(** * Exponential backoff controller (package [backoff])

    A shallow embedding of [backoff.go] (the [Backoff] controller) and of
    the [Timer] abstraction with its real and mock implementations,
    together with the properties of the controller's contract.

    Durations are [time.Duration] values, i.e. signed 64-bit nanosecond
    counts; the attempt counter is a Go [uint] (64 bits wide); [Factor] is
    an IEEE-754 binary64 number, modelled bit-exactly with the standard
    library's [SpecFloat]. *)

From Stdlib Require Import ZArith Bool List Lia.
From Stdlib Require Import Floats.SpecFloat.
Import ListNotations.

Local Open Scope Z_scope.

(** ** binary64 arithmetic *)

Module F64.

Definition prec : Z := 53.
Definition emax : Z := 1024.

Definition float64 : Type := spec_float.

Definition mul : float64 -> float64 -> float64 := SFmul prec emax.
Definition add : float64 -> float64 -> float64 := SFadd prec emax.
Definition sub : float64 -> float64 -> float64 := SFsub prec emax.
Definition div : float64 -> float64 -> float64 := SFdiv prec emax.
Definition neg : float64 -> float64 := SFopp.

(** Go's comparison operators on floats: every comparison with a NaN is
    false, and the two zeros are equal. *)
Definition eqb : float64 -> float64 -> bool := SFeqb.
Definition ltb : float64 -> float64 -> bool := SFltb.
Definition leb : float64 -> float64 -> bool := SFleb.
Definition gtb (x y : float64) : bool := SFltb y x.
Definition geb (x y : float64) : bool := SFleb y x.
Definition neqb (x y : float64) : bool := negb (SFeqb x y).

(** Conversion of an integer to binary64, rounding to nearest even: the
    conversions [float64(i)] of an [int64] or [uint] value and the
    conversion of an integer constant. *)
Definition of_Z (z : Z) : float64 := binary_normalize prec emax z 0 false.

Definition zero : float64 := S754_zero false.
Definition one : float64 := Eval cbv in of_Z 1.
Definition half : float64 := Eval cbv in SFldexp prec emax one (-1).
Definition minus_one : float64 := Eval cbv in of_Z (-1).
Definition two63 : float64 := Eval cbv in of_Z (2 ^ 63).
Definition two53 : float64 := Eval cbv in of_Z (2 ^ 53).
Definition inf : float64 := S754_infinity false.
Definition nan : float64 := S754_nan.

(** The integer obtained by discarding the fraction of a finite float;
    [None] for NaN and the infinities. *)
Definition trunc (f : float64) : option Z :=
  match f with
  | S754_zero _ => Some 0
  | S754_finite s m e =>
      let a := if 0 <=? e then Z.shiftl (Zpos m) e
               else Z.shiftr (Zpos m) (- e) in
      Some (cond_Zopp s a)
  | S754_infinity _ | S754_nan => None
  end.

End F64.

Import F64.

(** ** Package [math] *)

Module math.

Definition MaxInt64 : Z := 2 ^ 63 - 1.
Definition MinInt64 : Z := - 2 ^ 63.

Definition IsNaN (f : float64) : bool :=
  match f with S754_nan => true | _ => false end.

(** [IsInf(f, sign)]: [sign > 0] asks for +Inf, [sign < 0] for -Inf and
    [sign = 0] for either. *)
Definition IsInf (f : float64) (sign : Z) : bool :=
  match f with
  | S754_infinity s => if sign =? 0 then true else Bool.eqb s (sign <? 0)
  | _ => false
  end.

Definition Signbit (f : float64) : bool :=
  match f with
  | S754_zero s | S754_infinity s | S754_finite s _ _ => s
  | S754_nan => false
  end.

Definition Abs : float64 -> float64 := SFabs.

Definition Copysign (f sign : float64) : float64 :=
  if Bool.eqb (Signbit f) (Signbit sign) then f else neg f.

Definition Inf (sign : Z) : float64 := S754_infinity (sign <? 0).

Definition Sqrt : float64 -> float64 := SFsqrt prec emax.

(** [Modf(f)]: integer and fractional part, both with the sign of [f]. *)
Definition Modf (f : float64) : float64 * float64 :=
  match f with
  | S754_zero _ => (f, f)
  | S754_finite s _ _ =>
      match trunc f with
      | Some i =>
          let int := match i with
                     | 0 => S754_zero s
                     | _ => of_Z i
                     end in
          (int, Copysign (sub f int) f)
      | None => (f, nan)
      end
  | S754_infinity _ => (f, nan)
  | S754_nan => (nan, nan)
  end.

(** [Frexp(f)]: [f = frac * 2^exp] with [1/2 <= |frac| < 1]. *)
Definition Frexp (f : float64) : float64 * Z :=
  match f with
  | S754_finite _ _ _ => SFfrexp prec emax f
  | _ => (f, 0)
  end.

(** [Ldexp(frac, exp)]: [frac * 2^exp], correctly rounded. *)
Definition Ldexp (frac : float64) (exp : Z) : float64 :=
  SFldexp prec emax frac exp.

(** [int64(f)] for a float whose truncation fits: used by [isOddInt] and
    [pow] only below [2^63]. *)
Definition int_part (f : float64) : Z :=
  match trunc f with Some i => i | None => 0 end.

Definition isOddInt (x : float64) : bool :=
  if geb (Abs x) two53 then false
  else
    let '(xi, xf) := Modf x in
    eqb xf zero && Z.odd (int_part xi).

Section Pow.

(** [math.Exp] and [math.Log] are reached by [pow] only for an exponent
    with a fractional part; they are left abstract. *)
Variables Exp Log : float64 -> float64.

(** The loop [for i := int64(yi); i != 0; i >>= 1] of [pow], by
    recursion on the binary digits of [i]. *)
Fixpoint pow_loop (i : positive) (a1 : float64) (ae : Z)
                  (x1 : float64) (xe : Z) : float64 * Z :=
  if (xe <? - 2 ^ 12) || (2 ^ 12 <? xe) then (a1, ae + xe)
  else
    let '(a1, ae) :=
      match i with
      | xH | xI _ => (mul a1 x1, ae + xe)
      | xO _ => (a1, ae)
      end in
    let x1 := mul x1 x1 in
    let xe := 2 * xe in
    let '(x1, xe) :=
      if ltb x1 half then (add x1 x1, xe - 1) else (x1, xe) in
    match i with
    | xH => (a1, ae)
    | xO i' | xI i' => pow_loop i' a1 ae x1 xe
    end.

(** The part of [pow] after the [switch] on the special cases. *)
Definition pow_general (x y : float64) : float64 :=
  let '(yi, yf) := Modf (Abs y) in
  if neqb yf zero && ltb x zero then nan
  else if geb yi two63 then
    if eqb x minus_one then one
    else if Bool.eqb (ltb (Abs x) one) (gtb y zero) then zero
    else Inf 1
  else
    let '(yi, a1) :=
      if neqb yf zero then
        let '(yf, yi) :=
          if gtb yf half then (sub yf one, add yi one) else (yf, yi) in
        (yi, Exp (mul yf (Log x)))
      else (yi, one) in
    let '(x1, xe) := Frexp x in
    let '(a1, ae) :=
      match int_part yi with
      | Zpos i => pow_loop i a1 0 x1 xe
      | _ => (a1, 0)
      end in
    let '(a1, ae) :=
      if ltb y zero then (div one a1, - ae) else (a1, ae) in
    Ldexp a1 ae.

(** The body of [pow]; [self] is the function called by the one
    recursive call, [Pow(1/x, -y)] for [x = -Inf].  An inner [switch]
    none of whose cases applies falls out to the general part. *)
Definition pow_body (self : float64 -> float64 -> float64)
                    (x y : float64) : float64 :=
  if eqb y zero || eqb x one then one
  else if eqb y one then x
  else if IsNaN x || IsNaN y then nan
  else if eqb x zero then
    if ltb y zero then
      if Signbit x && isOddInt y then Copysign (Inf 1) x else Inf 1
    else if gtb y zero then
      if Signbit x && isOddInt y then x else zero
    else pow_general x y
  else if IsInf y 0 then
    if eqb x minus_one then one
    else if Bool.eqb (ltb (Abs x) one) (IsInf y 1) then zero
    else Inf 1
  else if IsInf x 0 then
    if IsInf x (-1) then self (div one x) (neg y)
    else if ltb y zero then zero
    else if gtb y zero then Inf 1
    else pow_general x y
  else if eqb y half then Sqrt x
  else if eqb y (neg half) then div one (Sqrt x)
  else pow_general x y.

(** [math.Pow], the portable implementation ([pow] in [math/pow.go]).
    The recursive call is made with a base of [-0], for which the body
    does not recurse again. *)
Definition Pow (x y : float64) : float64 :=
  pow_body (pow_body (fun _ _ => nan)) x y.

End Pow.

End math.

(** ** Machine integers *)

(** A Go [uint] on the 64-bit targets: arithmetic wraps around modulo
    [2^64]. *)
Definition uint_modulus : Z := 2 ^ 64.
Definition uint_wrap (z : Z) : Z := z mod uint_modulus.
Definition is_uint (z : Z) : Prop := 0 <= z < uint_modulus.
Definition is_int64 (z : Z) : Prop := math.MinInt64 <= z <= math.MaxInt64.

(** ** Package [time] *)

Module time.

(** [time.Duration] is an [int64] count of nanoseconds. *)
Definition Duration : Type := Z.

Definition Nanosecond : Duration := 1.
Definition Microsecond : Duration := 1000 * Nanosecond.
Definition Millisecond : Duration := 1000 * Microsecond.
Definition Second : Duration := 1000 * Millisecond.

(** A [time.Timer] as its documentation describes it: an alarm that is
    [active] until it expires or is stopped, and a channel of capacity
    one on which the expiry leaves a tick. *)
Record Timer : Type := mkTimer {
  active : bool;
  after : Duration;
  ticks : nat
}.

Definition NewTimer (d : Duration) : Timer :=
  {| active := true; after := d; ticks := 0 |}.

(** [t.Stop()] "returns true if the call stops the timer, false if the
    timer has already expired or been stopped". *)
Definition Stop (t : Timer) : bool * Timer :=
  (active t, {| active := false; after := after t; ticks := ticks t |}).

(** [t.Reset(d)] re-arms the timer. *)
Definition Reset (d : Duration) (t : Timer) : bool * Timer :=
  (active t, {| active := true; after := d; ticks := ticks t |}).

(** The runtime's side: an active timer expires and leaves its tick. *)
Definition expire (t : Timer) : Timer :=
  if active t then {| active := false; after := after t; ticks := 1 |}
  else t.

(** A receive on [t.C] that obtained a tick. *)
Definition receive (t : Timer) : Timer :=
  {| active := active t; after := after t; ticks := pred (ticks t) |}.

End time.

(** ** The [Timer] interface and its implementations *)

(** [C], [Start] and [Stop] are the methods of the interface.  [C] gives
    the channel as the number of ticks that wait in it, [None] being the
    [nil] channel.  [tick] and [recv] are the two ends of that channel:
    the alarm going off, and a receive that obtained the tick. *)
Class Timer (T : Type) : Type := {
  C : T -> option nat;
  Start : time.Duration -> T -> T;
  Stop : T -> bool * T;
  tick : T -> T;
  recv : T -> T
}.

(** [realTimer] wraps a [*time.Timer], [nil] until the first [Start]. *)
Record realTimer : Type := mkRealTimer {
  timer : option time.Timer
}.

Definition NewRealTimer : realTimer := {| timer := None |}.

Definition realTimer_C (t : realTimer) : option nat :=
  match timer t with
  | None => None
  | Some tm => Some (time.ticks tm)
  end.

Definition realTimer_Start (d : time.Duration) (t : realTimer) : realTimer :=
  match timer t with
  | None => {| timer := Some (time.NewTimer d) |}
  | Some tm => {| timer := Some (snd (time.Reset d tm)) |}
  end.

Definition realTimer_Stop (t : realTimer) : bool * realTimer :=
  match timer t with
  | None => (true, t)
  | Some tm => let '(r, tm') := time.Stop tm in (r, {| timer := Some tm' |})
  end.

#[export] Instance realTimer_Timer : Timer realTimer := {
  C := realTimer_C;
  Start := realTimer_Start;
  Stop := realTimer_Stop;
  tick := fun t => {| timer := option_map time.expire (timer t) |};
  recv := fun t => {| timer := option_map time.receive (timer t) |}
}.

(** [mockTimer], the test double: [Start] spawns a goroutine that sends on
    an unbuffered channel, so the ticks that wait are the [senders]. *)
Record mockTimer : Type := mkMockTimer {
  started : bool;
  stopped : bool;
  senders : nat
}.

Definition newMockTimer : mockTimer :=
  {| started := false; stopped := false; senders := 0 |}.

Definition mockTimer_C (t : mockTimer) : option nat :=
  if started t then Some (senders t) else None.

Definition mockTimer_Start (_ : time.Duration) (t : mockTimer) : mockTimer :=
  {| started := true; stopped := stopped t; senders := S (senders t) |}.

Definition mockTimer_Stop (t : mockTimer) : bool * mockTimer :=
  if stopped t then (true, t)
  else (false, {| started := started t; stopped := true;
                  senders := senders t |}).

#[export] Instance mockTimer_Timer : Timer mockTimer := {
  C := mockTimer_C;
  Start := mockTimer_Start;
  Stop := mockTimer_Stop;
  tick := fun t => t;
  recv := fun t => {| started := started t; stopped := stopped t;
                      senders := pred (senders t) |}
}.

(** ** The context and the scheduler, as [Next] observes them *)

(** How the blocking [select] of [Next] is resolved: the timer's channel
    delivers, or [ctx.Done()] does; in the second case [in_flight] tells
    whether the timer had already expired when [Stop] was called. *)
Inductive Race : Type :=
  | TimerFires
  | CtxDone (in_flight : bool).

(** What one call of [Next] meets: whether [ctx.Done()] is closed when it
    is polled, and how a blocking [select] is resolved. *)
Record World : Type := mkWorld {
  ctx_done : bool;
  race : Race
}.

(** A context that is never cancelled, with a timer that always fires. *)
Definition calm : World := {| ctx_done := false; race := TimerFires |}.

(** What a call of [Next] does besides updating the controller. *)
Inductive Effect : Type :=
  | PollDone                      (* non-blocking receive on ctx.Done() *)
  | TimerStart (d : time.Duration)
  | SelectWait                    (* blocking select *)
  | TimerStop
  | DrainC.                       (* blocking receive on Timer.C() *)

(** ** The controller *)

(** The interface under a second name, for use where the field [Timer] of
    the controller hides it. *)
Abbreviation TimerImpl := Timer.

Module Backoff.

Record t (T : Type) : Type := mk {
  n : Z;
  MaxAttempts : Z;
  Factor : float64;
  Min : time.Duration;
  Max : time.Duration;
  Timer : T
}.

Arguments mk {T}.
Arguments n {T}.
Arguments MaxAttempts {T}.
Arguments Factor {T}.
Arguments Min {T}.
Arguments Max {T}.
Arguments Timer {T}.

Definition set_n {T} (b : t T) (k : Z) : t T :=
  mk k (MaxAttempts b) (Factor b) (Min b) (Max b) (Timer b).

Definition set_Timer {T U} (b : t T) (tm : U) : t U :=
  mk (n b) (MaxAttempts b) (Factor b) (Min b) (Max b) tm.

(** [maxInt64 = float64(math.MaxInt64 - 512)], a constant conversion. *)
Definition maxInt64 : float64 := Eval cbv in of_Z (math.MaxInt64 - 512).

Definition New (maxAttempts : Z) (factor : float64)
               (min max : time.Duration) : t realTimer :=
  mk 0 maxAttempts factor min max NewRealTimer.

Definition Attempt {T} (b : t T) : Z := n b.

Definition Reset {T} (b : t T) : t T := set_n b 0.

Section Platform.

(** The value of the conversion [time.Duration(f)] when [f] is a NaN or
    its integer part is outside [int64]: the language leaves it to the
    implementation. *)
Variable convert_invalid : float64 -> Z.

(** [math.Exp] and [math.Log] of the platform. *)
Variables Exp Log : float64 -> float64.

(** The conversion [time.Duration(f)] of a [float64]. *)
Definition to_Duration (f : float64) : time.Duration :=
  match trunc f with
  | Some z =>
      if (math.MinInt64 <=? z) && (z <=? math.MaxInt64) then z
      else convert_invalid f
  | None => convert_invalid f
  end.

Definition duration {T} (b : t T) (attempt : Z) : time.Duration :=
  if attempt =? 0 then 0
  else
    let factor := math.Pow Exp Log (Factor b) (of_Z attempt) in
    let durF := mul (of_Z (Min b)) factor in
    if gtb durF maxInt64 then Max b
    else
      let dur := to_Duration durF in
      if dur <? Min b then Min b
      else if dur >? Max b then Max b
      else dur.

Definition Duration {T} (b : t T) : time.Duration := duration b (n b).

Definition Next {T} `{TimerImpl T} (w : World) (b : t T)
  : bool * t T * list Effect :=
  if negb (MaxAttempts b =? 0) && (n b >=? MaxAttempts b) then
    (false, b, [])
  else
    let d := Duration b in
    let b := set_n b (uint_wrap (n b + 1)) in
    if d =? 0 then
      (* select { case <-ctx.Done(): ...; default: ... } *)
      (negb (ctx_done w), b, [PollDone])
    else
      let tm := Start d (Timer b) in
      match race w with
      | CtxDone in_flight =>
          let tm := if in_flight then tick tm else tm in
          let '(prevented, tm) := Stop tm in
          if negb prevented then
            (false, set_Timer b (recv tm),
             [TimerStart d; SelectWait; TimerStop; DrainC])
          else
            (false, set_Timer b tm,
             [TimerStart d; SelectWait; TimerStop])
      | TimerFires =>
          (true, set_Timer b (recv (tick tm)),
           [TimerStart d; SelectWait])
      end.

(** The loop [for b.Next(ctx) { }], every call meeting the world [w];
    it yields the number of iterations of the body and the controller
    as the loop leaves it, or [None] if [fuel] calls were not enough
    for [Next] to return false. *)
Fixpoint loop {T} `{TimerImpl T} (fuel : nat) (w : World) (b : t T)
  : option (nat * t T) :=
  match fuel with
  | O => None
  | S fuel' =>
      let '(continue, b', _) := Next w b in
      if continue then
        match loop fuel' w b' with
        | Some (k, b'') => Some (S k, b'')
        | None => None
        end
      else Some (O, b')
  end.

(** The values returned by successive calls of [Next], one for each
    world of the list. *)
Fixpoint calls {T} `{TimerImpl T} (ws : list World) (b : t T)
  : list bool * t T :=
  match ws with
  | [] => ([], b)
  | w :: ws' =>
      let '(r, b', _) := Next w b in
      let '(rs, b'') := calls ws' b' in
      (r :: rs, b'')
  end.

End Platform.

End Backoff.

(** ** The controller's operations as commands *)

(** The public operations of a controller; [Attempt] and [Duration] only
    read it. *)
Inductive Op : Type :=
  | OpAttempt
  | OpDuration
  | OpNext (w : World)
  | OpReset.

Definition is_Next (op : Op) : bool :=
  match op with OpNext _ => true | _ => false end.

Section Exec.

Variable convert_invalid : float64 -> Z.
Variables Exp Log : float64 -> float64.
Context {T : Type} `{Timer T}.

Definition exec (b : Backoff.t T) (op : Op) : Backoff.t T :=
  match op with
  | OpAttempt => let _ := Backoff.Attempt b in b
  | OpDuration => let _ := Backoff.Duration convert_invalid Exp Log b in b
  | OpNext w => snd (fst (Backoff.Next convert_invalid Exp Log w b))
  | OpReset => Backoff.Reset b
  end.

End Exec.

(** ** The operation [duration] in the specification's words *)

Module Spec.

(** "Constrain a value to lie within a closed bound": raised to the lower
    bound if below it, lowered to the upper bound if above it. *)
Definition clamp (x lo hi : Z) : Z :=
  if x <? lo then lo else if hi <? x then hi else x.

Definition safety_margin : Z := 512.

(** "The computed value exceeds the bound": the number that [f] stands for
    is greater than the integer [bound], compared exactly; an infinity
    exceeds it when positive, a NaN never does. *)
Definition exceeds (f : float64) (bound : Z) : bool :=
match f with
| S754_nan => false
| S754_infinity s => negb s
| S754_zero _ => bound <? 0
| S754_finite s m e =>
    if 0 <=? e then bound <? cond_Zopp s (Zpos m) * 2 ^ e
    else bound * 2 ^ (- e) <? cond_Zopp s (Zpos m)
end.

Section Platform.

Variable convert_invalid : float64 -> Z.
Variables Exp Log : float64 -> float64.

(** "0 if attempt == 0; otherwise clamp(min_delay * factor^attempt,
    min_delay, max_delay)", the product being computed in floating
    point and compared, before it is converted, with the largest
    duration minus a safety margin; a product that exceeds it is answered
    by [max_delay]. *)
Definition duration (min_delay max_delay : Z) (factor : float64)
                    (attempt : Z) : Z :=
  if attempt =? 0 then 0
  else
    let growth :=
      mul (of_Z min_delay) (math.Pow Exp Log factor (of_Z attempt)) in
    if exceeds growth (math.MaxInt64 - safety_margin) then max_delay
    else
      clamp (Backoff.to_Duration convert_invalid growth)
            min_delay max_delay.

End Platform.

End Spec.

(** ** Rounding to 53 bits, read on integers *)

(** A positive number is written [M * 2^E]; a binary64 number of the normal
    range is such a pair whose mantissa has exactly 53 binary digits.  The
    definitions of this part say what [SpecFloat]'s rounding computes on
    such pairs; the lemmas further down relate the two. *)

(** The number of binary digits of a positive integer. *)
Definition digits (z : Z) : Z := Z.log2 z + 1.

(** [M / 2^n] rounded to the nearest integer, ties to even; for [n <= 0]
    the exact [M * 2^(-n)]. *)
Definition rne (M n : Z) : Z :=
if n <=? 0 then M * 2 ^ (- n)
else
  let q := M / 2 ^ n in
  let r := M mod 2 ^ n in
  let half := 2 ^ (n - 1) in
  if (half <? r) || ((r =? half) && Z.odd q) then q + 1 else q.

(** [M * 2^E] rounded to 53 significant digits. *)
Definition norm (M E : Z) : Z * Z :=
let n := digits M - 53 in
let m := rne M n in
if m =? 2 ^ 53 then (2 ^ 52, E + n + 1) else (m, E + n).

(** The float of a rounded pair: an infinity past the largest exponent. *)
Definition to_float (s : bool) (me : Z * Z) : float64 :=
if snd me <=? emax - prec then S754_finite s (Z.to_pos (fst me)) (snd me)
else S754_infinity s.

Definition normal (m : Z) : Prop := 2 ^ 52 <= m < 2 ^ 53.

(** The order of normal pairs: by exponent, then by mantissa. *)
Definition nle (a b : Z * Z) : Prop :=
snd a < snd b \/ (snd a = snd b /\ fst a <= fst b).

Definition nleb (a b : Z * Z) : bool :=
(snd a <? snd b) || ((snd a =? snd b) && (fst a <=? fst b)).

(** The order of the numbers [M * 2^E] and [M' * 2^E']. *)
Definition vle (M E M' E' : Z) : Prop :=
M * 2 ^ (E - Z.min E E') <= M' * 2 ^ (E' - Z.min E E').

(** The rounded product of two pairs. *)
Definition nmul (a b : Z * Z) : Z * Z :=
norm (fst a * fst b) (snd a + snd b).

(** The positive finite float of a pair. *)
Definition nfloat (a : Z * Z) : float64 :=
S754_finite false (Z.to_pos (fst a)) (snd a).

(** The number one, and the overflow guard [maxInt64]. *)
Definition n_one : Z * Z := (2 ^ 52, -52).
Definition n_guard : Z * Z := (2 ^ 53 - 1, 10).

(** The loop of [pow] on pairs: [A] is [a1 * 2^ae] and [X] is
    [x1 * 2^xe]; [None] is the "catastrophic overflow" exit, which ends in
    an infinity. *)
Definition overflows (X : Z * Z) : bool := 2 ^ 12 <? snd X + 53.

Fixpoint nloop (i : positive) (A X : Z * Z) : option (Z * Z) :=
if overflows X then None
else
  let A' := match i with xH | xI _ => nmul A X | xO _ => A end in
  match i with
  | xH => Some A'
  | xO i' | xI i' => nloop i' A' (nmul X X)
  end.

(** The test at the head of the loop of [pow], and the squaring of [x1]
    with its renormalisation, as [pow_loop] has them. *)
Definition loop_break (xe : Z) : bool := (xe <? - 2 ^ 12) || (2 ^ 12 <? xe).

Definition square (x1 : float64) (xe : Z) : float64 * Z :=
if ltb (mul x1 x1) half then (add (mul x1 x1) (mul x1 x1), 2 * xe - 1)
else (mul x1 x1, 2 * xe).

(** The order of results of the loop, overflow being the greatest. *)
Definition ole (o1 o2 : option (Z * Z)) : Prop :=
match o2 with
| None => True
| Some R2 => match o1 with Some R1 => nle R1 R2 | None => False end
end.

(** The integer part of a pair, and of [float64(a)]. *)
Definition ival (a : Z * Z) : Z :=
if 0 <=? snd a then fst a * 2 ^ snd a else fst a / 2 ^ (- snd a).

Definition ipart (a : Z) : Z := ival (norm a 0).

(** The float of a result of the loop. *)
Definition ofloat (o : option (Z * Z)) : float64 :=
match o with
| Some R => to_float false R
| None => S754_infinity false
end.

(** [Pow(x, float64(a))] on pairs, for [x > 1]. *)
Definition npow (X : Z * Z) (a : Z) : option (Z * Z) :=
if 2 ^ 63 <=? ipart a then None
else nloop (Z.to_pos (ipart a)) n_one X.

(** [duration] on pairs, for a positive [Min] whose float is [M] and a
    power [o]. *)
Definition nduration (Min Max : Z) (M : Z * Z) (o : option (Z * Z)) : Z :=
match o with
| None => Max
| Some R =>
    if (snd R <=? 971) && (snd (nmul M R) <=? 971) && nleb (nmul M R) n_guard
    then Spec.clamp (ival (nmul M R)) Min Max
    else Max
end.

(** What the comparison with the guard needs of a float: a mantissa of at
    most 53 digits, and of exactly 53 from the guard's exponent on. *)
Definition shaped (f : float64) : Prop :=
match f with
| S754_finite false m e =>
    Zpos m < 2 ^ 53 /\ (11 <= e -> 2 ^ 52 <= Zpos m)
| _ => True
end.

(** Case analysis on every integer comparison in sight. *)
Ltac zbool :=
  repeat match goal with
  | |- context [?a <=? ?b] => destruct (Z.leb_spec a b)
  | |- context [?a <? ?b] => destruct (Z.ltb_spec a b)
  | |- context [?a =? ?b] => destruct (Z.eqb_spec a b)
  | H : context [?a <=? ?b] |- _ => destruct (Z.leb_spec a b)
  | H : context [?a <? ?b] |- _ => destruct (Z.ltb_spec a b)
  | H : context [?a =? ?b] |- _ => destruct (Z.eqb_spec a b)
  end.

(** Linear arithmetic over the [uint] range. *)
Ltac uint_lia := unfold is_uint, uint_modulus in *; lia.

(** ** Conventions of the evaluations below *)

(** On amd64 the conversion instruction yields the "integer indefinite"
    value, the least [int64], for a NaN and for a value out of range. *)
Definition amd64 : float64 -> Z := fun _ => math.MinInt64.

(** Stands for [math.Exp] and [math.Log] where a closed term is evaluated:
    [pow] calls them only for an exponent with a fractional part, which
    [float64(attempt)] never has. *)
Definition libm : float64 -> float64 := fun _ => nan.

Definition two : float64 := Eval cbv in of_Z 2.

(** The guard at the head of [Next]: the retry budget is used up. *)
Definition exhausted {T} (b : Backoff.t T) : bool :=
negb (Backoff.MaxAttempts b =? 0)
&& (Backoff.n b >=? Backoff.MaxAttempts b).

(** What the controller keeps between calls when [MaxAttempts] is not
    zero: the counter stays within the budget. *)
Definition within_budget {T} (b : Backoff.t T) : Prop :=
Backoff.MaxAttempts b <> 0
/\ is_uint (Backoff.MaxAttempts b)
/\ 0 <= Backoff.Attempt b <= Backoff.MaxAttempts b.

(** The README's controller, [New(3, 2, 1*time.Second, 5*time.Second)]. *)
Definition readme : Backoff.t realTimer :=
Backoff.New 3 two time.Second (5 * time.Second).

(** The controller of the test "Duration does not exceed Max",
    [New(0, 2, 3*time.Second, 500*time.Millisecond)]. *)
Definition inverted : Backoff.t realTimer :=
Backoff.New 0 two (3 * time.Second) (500 * time.Millisecond).

(** ** Vocabulary of the further properties *)

(** A real timer at rest: never started, or neither armed nor holding a
    tick in its channel. *)
Definition idle (t : realTimer) : Prop :=
match timer t with
| None => True
| Some tm => time.active tm = false /\ time.ticks tm = 0%nat
end.

(** What can happen to a timer: a [Start] or a [Stop] by its owner, the
    alarm going off, and a receive from its channel. *)
Inductive TimerOp : Type :=
| TStart (d : time.Duration)
| TStop
| TFire
| TReceive.

Definition is_Start (op : TimerOp) : bool :=
match op with TStart _ => true | _ => false end.

Definition timer_exec {T} `{Timer T} (t : T) (op : TimerOp) : T :=
match op with
| TStart d => Start d t
| TStop => snd (Stop t)
| TFire => tick t
| TReceive => recv t
end.

(** The number of calls of [Next] that returned true. *)
Definition successes (rs : list bool) : Z :=
Z.of_nat (count_occ Bool.bool_dec rs true).

(** The number two on pairs. *)
Definition n_two : Z * Z := (2 ^ 52, -51).

(** [math.MaxFloat64], the largest finite [float64]. *)
Definition MaxFloat64 : float64 := S754_finite false 9007199254740991 971.

(** A float too small to count: a zero, or a positive number of the least
    exponent. *)
Definition tiny (r : float64) : Prop :=
match r with
| S754_zero _ => True
| S754_finite false p e => e = -1074 /\ Zpos p <= 2 ^ 52
| _ => False
end.

(** A float between zero and one: a tiny one, or a normal number not
    above one. *)
Definition at_most_one (r : float64) : Prop :=
tiny r
\/ exists R, r = nfloat R /\ normal (fst R) /\ nle R n_one /\ -1074 <= snd R.

(** ** Special cases of [Pow] *)

Section PowSpecial.

Variables Exp Log : float64 -> float64.

Lemma eqb_finite_true (s s' : bool) (m m' : positive) (e e' : Z) :
  eqb (S754_finite s m e) (S754_finite s' m' e') = true ->
  S754_finite s m e = S754_finite s' m' e'.
Proof.
  unfold eqb, SFeqb, SFcompare.
  destruct s, s'; try discriminate;
    destruct (Z.compare_spec e e') as [He | He | He]; try discriminate;
    destruct (Pos.compare_cont Eq m m') eqn:Hm; try discriminate;
    intros _; apply (Pos.compare_eq m m') in Hm; subst; reflexivity.
Qed.

(** [Pow(x, 1) = x] for any [x], the third special case of [math.Pow]. *)
Lemma Pow_one (x : float64) : math.Pow Exp Log x one = x.
Proof.
  unfold math.Pow, math.pow_body.
  change (eqb one zero) with false. change (eqb one one) with true.
  cbn [orb].
  destruct x as [s | s | | s m e].
  - reflexivity.
  - destruct s; reflexivity.
  - reflexivity.
  - destruct (eqb (S754_finite s m e) one) eqn:E; [| reflexivity].
    symmetry. apply eqb_finite_true. exact E.
Qed.

End PowSpecial.

(** ** Lemmas on rounding *)

(** *** Binary digits *)
Lemma digits2_pos_size (p : positive) : digits2_pos p = Pos.size p.
Proof. induction p as [p IH | p IH |]; cbn; rewrite ?IH; reflexivity. Qed.

Lemma digits2_pos_log2 (p : positive) :
  Zpos (digits2_pos p) = digits (Zpos p).
Proof.
  rewrite digits2_pos_size. unfold digits.
  destruct p as [p | p |]; cbn [Z.log2 Pos.size];
    rewrite ?Pos2Z.inj_succ; lia.
Qed.

Lemma digits_spec (M : Z) :
  0 < M -> 2 ^ (digits M - 1) <= M < 2 ^ digits M.
Proof.
  intros HM. unfold digits.
  replace (Z.log2 M + 1 - 1) with (Z.log2 M) by lia.
  apply Z.log2_spec. exact HM.
Qed.

Lemma digits_unique (M d : Z) :
  0 < d -> 2 ^ (d - 1) <= M < 2 ^ d -> digits M = d.
Proof.
  intros Hd HM. unfold digits.
  rewrite (Z.log2_unique M (d - 1)); [lia | lia |].
  replace (Z.succ (d - 1)) with d by lia. exact HM.
Qed.

Lemma digits_pos (M : Z) : 0 < M -> 0 < digits M.
Proof. intros HM. unfold digits. pose proof (Z.log2_nonneg M). lia. Qed.

Lemma digits_le (M N : Z) : 0 < M -> M <= N -> digits M <= digits N.
Proof.
  intros HM HMN. unfold digits.
  pose proof (Z.log2_le_mono M N HMN). lia.
Qed.

(** *** The shifts of [SpecFloat] *)
Lemma shr_1_spec (m : Z) (r s : bool) :
  0 <= m ->
  shr_1 (Build_shr_record m r s)
  = Build_shr_record (m / 2) (Z.odd m) (r || s).
Proof.
  intros Hm. destruct m as [| p | p]; [reflexivity | | lia].
  destruct p as [p | p |]; cbn [shr_1 Z.odd].
  - f_equal. rewrite Pos2Z.inj_xI. 
    apply Z.div_unique with (r := 1); lia.
  - f_equal. rewrite Pos2Z.inj_xO.
    apply Z.div_unique with (r := 0); lia.
  - reflexivity.
Qed.

Lemma iter_pos_nat {A} (f : A -> A) (p : positive) (x : A) :
  iter_pos f p x = Nat.iter (Pos.to_nat p) f x.
Proof.
  revert x. induction p as [p IH | p IH |]; intros x; cbn [iter_pos].
  - rewrite !IH, Pos2Nat.inj_xI.
    rewrite <- Nat.iter_add, <- Nat.iter_succ_r. f_equal. lia.
  - rewrite !IH, Pos2Nat.inj_xO.
    rewrite <- Nat.iter_add. f_equal. lia.
  - reflexivity.
Qed.

Lemma pow2_pos (k : Z) : 0 <= k -> 0 < 2 ^ k.
Proof. intros Hk. apply Z.pow_pos_nonneg; lia. Qed.

Lemma pow2_succ (k : Z) : 0 <= k -> 2 ^ (k + 1) = 2 * 2 ^ k.
Proof. intros Hk. rewrite Z.pow_add_r by lia. lia. Qed.

Lemma odd_mod2 (m : Z) : m mod 2 = if Z.odd m then 1 else 0.
Proof. apply Zmod_odd. Qed.

Lemma shr_iter (M : Z) (k : nat) :
  0 <= M ->
  let rec := Nat.iter (S k) shr_1 (Build_shr_record M false false) in
  let K := Z.of_nat (S k) in
  shr_m rec = M / 2 ^ K
  /\ shr_r rec = (2 ^ (K - 1) <=? M mod 2 ^ K)
  /\ shr_s rec = negb (M mod 2 ^ K =? 0) && negb (M mod 2 ^ K =? 2 ^ (K - 1)).
Proof.
  intros HM. induction k as [|k IH].
  - cbn [Nat.iter]. rewrite shr_1_spec by exact HM.
    change (Z.of_nat 1) with 1. change (2 ^ 1) with 2.
    change (2 ^ (1 - 1)) with 1. cbn [shr_m shr_r shr_s orb].
    rewrite odd_mod2. destruct (Z.odd M); repeat split; reflexivity.
  - cbv zeta in IH |- *.
    set (K := Z.of_nat (S k)) in *.
    replace (Z.of_nat (S (S k))) with (K + 1) by (unfold K; lia).
    replace (K + 1 - 1) with K by lia.
    assert (HK : 1 <= K) by (unfold K; lia).
    rewrite Nat.iter_succ.
    destruct (Nat.iter (S k) shr_1 (Build_shr_record M false false))
      as [m r s].
    cbn [shr_m shr_r shr_s] in IH. destruct IH as (Hm & Hr & Hs).
    pose proof (pow2_pos K ltac:(lia)) as HpK.
    pose proof (pow2_pos (K - 1) ltac:(lia)) as Hph.
    assert (H2 : 2 ^ K = 2 * 2 ^ (K - 1)).
    { rewrite <- pow2_succ by lia. f_equal. lia. }
    assert (Hm0 : 0 <= m).
    { rewrite Hm. apply Z.div_pos; lia. }
    rewrite shr_1_spec by exact Hm0. cbn [shr_m shr_r shr_s].
    assert (Hrem : M mod 2 ^ (K + 1) = M mod 2 ^ K + 2 ^ K * (m mod 2)).
    { rewrite pow2_succ by lia. rewrite (Z.mul_comm 2).
      rewrite Z.rem_mul_r by lia. rewrite Hm. reflexivity. }
    pose proof (Z.mod_pos_bound M (2 ^ K) HpK) as Hb.
    rewrite Hrem, odd_mod2, Hr, Hs.
    split.
    + rewrite pow2_succ by lia. rewrite Hm.
      rewrite Z.div_div by lia. f_equal. lia.
    + destruct (Z.odd m); zbool; cbn; split; try reflexivity; lia.
Qed.

Lemma round_shr (M : Z) (p : positive) :
  0 <= M ->
  let rec := iter_pos shr_1 p (Build_shr_record M false false) in
  round_nearest_even (shr_m rec) (loc_of_shr_record rec) = rne M (Zpos p).
Proof.
  intros HM. cbv zeta. rewrite iter_pos_nat.
  destruct (Pos2Nat.is_succ p) as [k Hk]. rewrite Hk.
  destruct (shr_iter M k HM) as (Hm & Hr & Hs).
  assert (HK : Z.of_nat (S k) = Zpos p) by (rewrite <- Hk; lia).
  rewrite HK in Hm, Hr, Hs.
  destruct (Nat.iter (S k) shr_1 (Build_shr_record M false false))
    as [m r s].
  cbn [shr_m shr_r shr_s] in *. subst m r s.
  unfold rne. change (Zpos p <=? 0) with false. cbv iota zeta.
  pose proof (pow2_pos (Zpos p - 1) ltac:(lia)) as Hph.
  assert (H2 : 2 ^ Zpos p = 2 * 2 ^ (Zpos p - 1)).
  { rewrite <- pow2_succ by lia. f_equal. lia. }
  pose proof (Z.mod_pos_bound M (2 ^ Zpos p) ltac:(lia)) as Hb.
  unfold round_nearest_even, loc_of_shr_record.
  rewrite <- Z.negb_odd.
  destruct (Z.odd (M / 2 ^ Zpos p)); zbool;
    cbn; try reflexivity; try lia.
Qed.

(** *** Rounding to nearest, ties to even *)
Lemma rne_nonpos (M n : Z) : n <= 0 -> rne M n = M * 2 ^ (- n).
Proof.
  intros Hn. unfold rne.
  destruct (Z.leb_spec n 0); [reflexivity | lia].
Qed.

Lemma rne_pos (M n : Z) :
  0 < n ->
  rne M n =
  if (2 ^ (n - 1) <? M mod 2 ^ n)
     || ((M mod 2 ^ n =? 2 ^ (n - 1)) && Z.odd (M / 2 ^ n))
  then M / 2 ^ n + 1 else M / 2 ^ n.
Proof.
  intros Hn. unfold rne.
  destruct (Z.leb_spec n 0); [lia | reflexivity].
Qed.

Lemma rne_between (M n : Z) :
  0 < n -> M / 2 ^ n <= rne M n <= M / 2 ^ n + 1.
Proof.
  intros Hn. rewrite rne_pos by exact Hn.
  destruct (_ || _); lia.
Qed.

Lemma rne_mono (M M' n : Z) :
  0 <= M -> M <= M' -> rne M n <= rne M' n.
Proof.
  intros HM HMM'. destruct (Z.le_gt_cases n 0) as [Hn | Hn].
  - rewrite !rne_nonpos by exact Hn.
    apply Z.mul_le_mono_nonneg_r; [apply Z.pow_nonneg; lia | exact HMM'].
  - pose proof (pow2_pos n ltac:(lia)) as Hp.
    pose proof (Z.div_le_mono M M' (2 ^ n) Hp HMM') as Hq.
    destruct (Z.eq_dec (M / 2 ^ n) (M' / 2 ^ n)) as [Heq | Hne].
    + rewrite !rne_pos by exact Hn. rewrite <- Heq.
      assert (Hr : M mod 2 ^ n <= M' mod 2 ^ n).
      { rewrite (Z.mod_eq M), (Z.mod_eq M') by lia. rewrite <- Heq. lia. }
      destruct (Z.odd (M / 2 ^ n)); zbool; cbn; lia.
    + pose proof (rne_between M n Hn). pose proof (rne_between M' n Hn).
      lia.
Qed.

Lemma rne_scale (M n k : Z) :
  0 <= M -> 0 <= k -> rne (M * 2 ^ k) (n + k) = rne M n.
Proof.
  intros HM Hk.
  pose proof (pow2_pos k Hk) as Hpk.
  destruct (Z.le_gt_cases n 0) as [Hn | Hn].
  - rewrite (rne_nonpos M n) by exact Hn.
    destruct (Z.le_gt_cases (n + k) 0) as [Hnk | Hnk].
    + rewrite rne_nonpos by exact Hnk.
      rewrite <- Z.mul_assoc, <- Z.pow_add_r by lia. f_equal. f_equal. lia.
    + rewrite rne_pos by exact Hnk.
      pose proof (pow2_pos (n + k) ltac:(lia)) as Hp.
      pose proof (pow2_pos (n + k - 1) ltac:(lia)) as Hp1.
      assert (Hsplit : M * 2 ^ k = (M * 2 ^ (- n)) * 2 ^ (n + k)).
      { rewrite <- Z.mul_assoc, <- Z.pow_add_r by lia. f_equal. f_equal.
        lia. }
      rewrite Hsplit, Z.mod_mul, Z.div_mul by lia.
      zbool; cbn; lia.
  - rewrite (rne_pos M n) by exact Hn. rewrite rne_pos by lia.
    pose proof (pow2_pos n ltac:(lia)) as Hp.
    pose proof (pow2_pos (n - 1) ltac:(lia)) as Hp1.
    assert (Hq : M * 2 ^ k / 2 ^ (n + k) = M / 2 ^ n).
    { rewrite Z.pow_add_r by lia. rewrite Z.div_mul_cancel_r by lia.
      reflexivity. }
    assert (Hr : (M * 2 ^ k) mod 2 ^ (n + k) = (M mod 2 ^ n) * 2 ^ k).
    { rewrite Z.pow_add_r by lia. rewrite Z.mul_mod_distr_r by lia.
      reflexivity. }
    assert (Hh : 2 ^ (n + k - 1) = 2 ^ (n - 1) * 2 ^ k).
    { rewrite <- Z.pow_add_r by lia. f_equal. lia. }
    rewrite Hq, Hr, Hh.
    destruct (Z.odd (M / 2 ^ n)); zbool; cbn; nia.
Qed.

(** *** Rounding to 53 digits *)
Lemma digits_mul_pow2 (M k : Z) :
  0 < M -> 0 <= k -> digits (M * 2 ^ k) = digits M + k.
Proof.
  intros HM Hk. unfold digits. rewrite Z.log2_mul_pow2 by lia. lia.
Qed.

Lemma rne_range (M : Z) :
  0 < M -> 2 ^ 52 <= rne M (digits M - 53) <= 2 ^ 53.
Proof.
  intros HM. pose proof (digits_spec M HM) as Hd.
  pose proof (digits_pos M HM) as Hdp.
  set (d := digits M) in *.
  destruct (Z.le_gt_cases (d - 53) 0) as [Hn | Hn].
  - rewrite rne_nonpos by exact Hn.
    replace (2 ^ 52) with (2 ^ (d - 1) * 2 ^ (- (d - 53))).
    2:{ rewrite <- Z.pow_add_r by lia. f_equal. lia. }
    replace (2 ^ 53) with (2 ^ d * 2 ^ (- (d - 53))).
    2:{ rewrite <- Z.pow_add_r by lia. f_equal. lia. }
    pose proof (pow2_pos (- (d - 53)) ltac:(lia)). nia.
  - pose proof (rne_between M (d - 53) Hn) as Hb.
    pose proof (pow2_pos (d - 53) ltac:(lia)) as Hp.
    assert (H1 : 2 ^ (d - 1) = 2 ^ 52 * 2 ^ (d - 53)).
    { rewrite <- Z.pow_add_r by lia. f_equal. lia. }
    assert (H2 : 2 ^ d = 2 ^ 53 * 2 ^ (d - 53)).
    { rewrite <- Z.pow_add_r by lia. f_equal. lia. }
    assert (Hq1 : 2 ^ 52 <= M / 2 ^ (d - 53)).
    { apply Z.div_le_lower_bound; lia. }
    assert (Hq2 : M / 2 ^ (d - 53) < 2 ^ 53).
    { apply Z.div_lt_upper_bound; lia. }
    lia.
Qed.

Lemma norm_range (M E : Z) : 0 < M -> normal (fst (norm M E)).
Proof.
  intros HM. unfold norm, normal. pose proof (rne_range M HM) as Hr.
  cbv zeta. destruct (Z.eqb_spec (rne M (digits M - 53)) (2 ^ 53));
    cbn [fst]; lia.
Qed.

Lemma norm_scale (M E k : Z) :
  0 < M -> 0 <= k -> norm (M * 2 ^ k) (E - k) = norm M E.
Proof.
  intros HM Hk. unfold norm. cbv zeta.
  rewrite digits_mul_pow2 by assumption.
  replace (digits M + k - 53) with (digits M - 53 + k) by lia.
  rewrite rne_scale by lia.
  destruct (rne M (digits M - 53) =? 2 ^ 53); f_equal; lia.
Qed.

Lemma norm_normal (m e : Z) : normal m -> norm m e = (m, e).
Proof.
  unfold normal. intros Hm. unfold norm. cbv zeta.
  rewrite (digits_unique m 53) by (try lia; exact Hm).
  change (53 - 53) with 0. rewrite rne_nonpos by lia.
  change (2 ^ (- 0)) with 1. rewrite Z.mul_1_r.
  destruct (Z.eqb_spec m (2 ^ 53)); [lia |]. f_equal. lia.
Qed.

Lemma norm_mono_same (M M' E : Z) :
  0 < M -> M <= M' -> nle (norm M E) (norm M' E).
Proof.
  intros HM HMM'.
  pose proof (digits_le M M' HM HMM') as Hd.
  pose proof (rne_range M HM) as Hr.
  pose proof (rne_range M' ltac:(lia)) as Hr'.
  unfold norm, nle. cbv zeta.
  destruct (Z.eq_dec (digits M) (digits M')) as [Heq | Hne].
  - rewrite <- Heq in *.
    pose proof (rne_mono M M' (digits M - 53) ltac:(lia) HMM') as Hm.
    destruct (Z.eqb_spec (rne M (digits M - 53)) (2 ^ 53));
      destruct (Z.eqb_spec (rne M' (digits M - 53)) (2 ^ 53));
      cbn [fst snd]; lia.
  - destruct (Z.eqb_spec (rne M (digits M - 53)) (2 ^ 53));
      destruct (Z.eqb_spec (rne M' (digits M' - 53)) (2 ^ 53));
      cbn [fst snd]; lia.
Qed.

Lemma norm_mono (M E M' E' : Z) :
  0 < M -> 0 < M' -> vle M E M' E' -> nle (norm M E) (norm M' E').
Proof.
  unfold vle. intros HM HM' Hv.
  set (e0 := Z.min E E') in *.
  assert (H0 : 0 <= E - e0) by (unfold e0; lia).
  assert (H0' : 0 <= E' - e0) by (unfold e0; lia).
  rewrite <- (norm_scale M E (E - e0)) by assumption.
  rewrite <- (norm_scale M' E' (E' - e0)) by assumption.
  replace (E - (E - e0)) with e0 by lia.
  replace (E' - (E' - e0)) with e0 by lia.
  apply norm_mono_same; [| exact Hv].
  pose proof (pow2_pos (E - e0) H0). nia.
Qed.

Lemma nle_vle (m e m' e' : Z) :
  normal m -> normal m' -> nle (m, e) (m', e') -> vle m e m' e'.
Proof.
  unfold normal, nle, vle. cbn [fst snd].
  intros Hm Hm' [Hlt | [Heq Hle]].
  - rewrite Z.min_l by lia. replace (e - e) with 0 by lia.
    change (2 ^ 0) with 1.
    assert (H2 : 2 * 1 <= 2 ^ (e' - e)).
    { change (2 * 1) with (2 ^ 1). apply Z.pow_le_mono_r; lia. }
    nia.
  - subst e'. rewrite Z.min_id. replace (e - e) with 0 by lia.
    change (2 ^ 0) with 1. lia.
Qed.

Lemma vle_mul (M E M' E' y ey : Z) :
  0 < y -> vle M E M' E' -> vle (M * y) (E + ey) (M' * y) (E' + ey).
Proof.
  unfold vle. intros Hy Hv.
  replace (E + ey - Z.min (E + ey) (E' + ey)) with (E - Z.min E E') by lia.
  replace (E' + ey - Z.min (E + ey) (E' + ey)) with (E' - Z.min E E')
    by lia.
  nia.
Qed.

Lemma nle_refl (a : Z * Z) : nle a a.
Proof. unfold nle. lia. Qed.

Lemma nle_trans (a b c : Z * Z) : nle a b -> nle b c -> nle a c.
Proof. unfold nle. lia. Qed.

Lemma nmul_comm (a b : Z * Z) : nmul a b = nmul b a.
Proof. unfold nmul. f_equal; lia. Qed.

Lemma nmul_normal (a b : Z * Z) :
  normal (fst a) -> normal (fst b) -> normal (fst (nmul a b)).
Proof.
  unfold normal at 1 2. intros Ha Hb. apply norm_range. nia.
Qed.

Lemma nmul_mono_l (a a' b : Z * Z) :
  normal (fst a) -> normal (fst a') -> normal (fst b) ->
  nle a a' -> nle (nmul a b) (nmul a' b).
Proof.
  intros Ha Ha' Hb Hle. unfold nmul.
  destruct a as [m e], a' as [m' e'], b as [y ey]. cbn [fst snd] in *.
  unfold normal in *.
  apply norm_mono; [nia | nia |].
  apply vle_mul; [lia |]. apply nle_vle; assumption.
Qed.

Lemma nmul_mono_r (a b b' : Z * Z) :
  normal (fst a) -> normal (fst b) -> normal (fst b') ->
  nle b b' -> nle (nmul a b) (nmul a b').
Proof.
  intros. rewrite (nmul_comm a b), (nmul_comm a b').
  apply nmul_mono_l; assumption.
Qed.

Lemma nmul_one_r (m e : Z) : normal m -> nmul (m, e) (2 ^ 52, -52) = (m, e).
Proof.
  intros Hm. unfold nmul. cbn [fst snd].
  replace (e + -52) with (e - 52) by lia.
  rewrite norm_scale by (unfold normal in Hm; lia).
  apply norm_normal. exact Hm.
Qed.

(** *** [binary_round_aux] in the normal range *)
Lemma fexp_normal (x : Z) : -1021 <= x -> fexp prec emax x = x - 53.
Proof.
  intros Hx. unfold fexp, emin, prec, emax. lia.
Qed.

Lemma Zdigits2_digits (M : Z) : 0 < M -> Zdigits2 M = digits M.
Proof.
  intros HM. destruct M as [| p | p]; try lia.
  cbn [Zdigits2]. apply digits2_pos_log2.
Qed.

Lemma shr_fexp_normal (M E : Z) :
  0 < M -> 53 <= digits M -> -1074 <= digits M + E - 53 ->
  let res := shr_fexp prec emax M E loc_Exact in
  round_nearest_even (shr_m (fst res)) (loc_of_shr_record (fst res))
  = rne M (digits M - 53)
  /\ snd res = E + (digits M - 53).
Proof.
  intros HM Hd He. cbv zeta. unfold shr_fexp.
  rewrite Zdigits2_digits by exact HM.
  rewrite fexp_normal by lia.
  replace (digits M + E - 53 - E) with (digits M - 53) by lia.
  cbn [shr_record_of_loc].
  destruct (digits M - 53) as [| p | p] eqn:Hn; try lia.
  - cbn [shr fst snd shr_m loc_of_shr_record round_nearest_even].
    rewrite rne_nonpos by lia. change (2 ^ (- 0)) with 1. lia.
  - cbn [shr fst snd]. split; [| reflexivity].
    apply round_shr. lia.
Qed.

Lemma binary_round_aux_norm (sx : bool) (M : positive) (E : Z) :
  53 <= digits (Zpos M) -> -1074 <= digits (Zpos M) + E - 53 ->
  binary_round_aux prec emax sx (Zpos M) E loc_Exact
  = to_float sx (norm (Zpos M) E).
Proof.
  intros Hd He. unfold binary_round_aux.
  destruct (shr_fexp_normal (Zpos M) E ltac:(lia) Hd He) as [Hr Hs].
  destruct (shr_fexp prec emax (Zpos M) E loc_Exact) as [mrs' e'].
  cbn [fst snd] in Hr, Hs. rewrite Hr. subst e'.
  pose proof (rne_range (Zpos M) ltac:(lia)) as Hrange.
  set (n := digits (Zpos M) - 53) in *.
  set (m1 := rne (Zpos M) n) in *.
  unfold norm. cbv zeta. fold n. fold m1.
  destruct (Z.eqb_spec m1 (2 ^ 53)) as [Hc | Hc].
  - rewrite Hc. unfold shr_fexp.
    rewrite Zdigits2_digits by lia.
    rewrite (digits_unique (2 ^ 53) 54) by lia.
    rewrite fexp_normal by lia.
    replace (54 + (E + n) - 53 - (E + n)) with 1 by lia.
    cbn [shr_record_of_loc shr iter_pos].
    change (shr_1 {| shr_m := 2 ^ 53; shr_r := false; shr_s := false |})
      with {| shr_m := 2 ^ 52; shr_r := false; shr_s := false |}.
    cbn [shr_m loc_of_shr_record round_nearest_even].
    change (2 ^ 52) with (Zpos (2 ^ 52)).
    unfold to_float. cbn [fst snd]. 
    replace (E + n + 1) with (E + n + 1) by lia. reflexivity.
  - unfold shr_fexp.
    rewrite Zdigits2_digits by lia.
    rewrite (digits_unique m1 53) by lia.
    rewrite fexp_normal by lia.
    replace (53 + (E + n) - 53 - (E + n)) with 0 by lia.
    cbn [shr_record_of_loc shr shr_m loc_of_shr_record round_nearest_even].
    destruct m1 as [| p1 | p1] eqn:Hm1; try lia.
    unfold to_float. cbn [fst snd Z.to_pos]. reflexivity.
Qed.

(** *** Multiplication of normal floats *)
Lemma normal_pos (m : Z) : normal m -> 0 < m.
Proof. unfold normal. lia. Qed.

Lemma normal_digits (m : Z) : normal m -> digits m = 53.
Proof. intros Hm. apply digits_unique; [lia | exact Hm]. Qed.

Lemma to_pos_id (m : Z) : 0 < m -> Zpos (Z.to_pos m) = m.
Proof. intros. apply Z2Pos.id. assumption. Qed.

Lemma to_float_finite (a : Z * Z) :
  snd a <= 971 -> to_float false a = nfloat a.
Proof.
  intros Ha. unfold to_float, nfloat.
  change (emax - prec) with 971.
  destruct (Z.leb_spec (snd a) 971); [reflexivity | lia].
Qed.

Lemma to_float_inf (a : Z * Z) :
  971 < snd a -> to_float false a = S754_infinity false.
Proof.
  intros Ha. unfold to_float.
  change (emax - prec) with 971.
  destruct (Z.leb_spec (snd a) 971); [lia | reflexivity].
Qed.

Lemma digits_mul_normal (m1 m2 : Z) :
  normal m1 -> normal m2 -> 105 <= digits (m1 * m2) <= 106.
Proof.
  unfold normal. intros H1 H2.
  assert (Hlo : 2 ^ 104 <= m1 * m2) by nia.
  assert (Hhi : m1 * m2 < 2 ^ 106) by nia.
  unfold digits.
  assert (104 <= Z.log2 (m1 * m2)).
  { apply Z.log2_le_pow2; lia. }
  assert (Z.log2 (m1 * m2) < 106).
  { apply Z.log2_lt_pow2; lia. }
  lia.
Qed.

Lemma mul_normal (a b : Z * Z) :
  normal (fst a) -> normal (fst b) -> -1126 <= snd a + snd b ->
  mul (nfloat a) (nfloat b) = to_float false (nmul a b).
Proof.
  intros Ha Hb He. destruct a as [m1 e1], b as [m2 e2].
  cbn [fst snd] in *. unfold mul, nfloat, nmul. cbn [fst snd SFmul xorb].
  pose proof (normal_pos m1 Ha). pose proof (normal_pos m2 Hb).
  pose proof (digits_mul_normal m1 m2 Ha Hb) as Hd.
  rewrite binary_round_aux_norm.
  - rewrite Pos2Z.inj_mul, !to_pos_id by assumption. reflexivity.
  - rewrite Pos2Z.inj_mul, !to_pos_id by assumption. lia.
  - rewrite Pos2Z.inj_mul, !to_pos_id by assumption. lia.
Qed.

Lemma nmul_exp (a b : Z * Z) :
  normal (fst a) -> normal (fst b) ->
  snd a + snd b + 52 <= snd (nmul a b) <= snd a + snd b + 53.
Proof.
  intros Ha Hb. pose proof (digits_mul_normal _ _ Ha Hb) as Hd.
  unfold nmul, norm. cbv zeta.
  set (P := fst a * fst b) in *.
  assert (HP : 0 < P).
  { unfold P. pose proof (normal_pos _ Ha). pose proof (normal_pos _ Hb).
    nia. }
  assert (HPhi : P <= 2 ^ 106 - 2 ^ 54 + 1).
  { unfold P, normal in *. nia. }
  destruct (Z.eqb_spec (rne P (digits P - 53)) (2 ^ 53)) as [Hc | Hc];
    cbn [snd]; [| lia].
  assert (Hcase : digits P = 105 \/ digits P = 106) by lia.
  destruct Hcase as [H5 | H6]; [lia |].
  exfalso. rewrite H6 in Hc. change (106 - 53) with 53 in Hc.
  pose proof (rne_between P 53 ltac:(lia)) as Hb'.
  assert (Hq : P / 2 ^ 53 < 2 ^ 53 - 1).
  { apply Z.div_lt_upper_bound; lia. }
  lia.
Qed.

(** *** Conversions, [Ldexp], [Frexp] and doubling *)
Lemma iter_xO (m d : positive) :
  Zpos (Pos.iter xO m d) = Zpos m * 2 ^ Zpos d.
Proof.
  induction d as [| d IH] using Pos.peano_ind.
  - cbn [Pos.iter]. rewrite Pos2Z.inj_xO. change (2 ^ 1) with 2. lia.
  - rewrite Pos.iter_succ, Pos2Z.inj_xO, IH, Pos2Z.inj_succ.
    rewrite Z.pow_succ_r by lia. lia.
Qed.

Lemma binary_round_norm (sx : bool) (m : positive) (e : Z) :
  -1074 <= digits (Zpos m) + e - 53 ->
  binary_round prec emax sx m e = to_float sx (norm (Zpos m) e).
Proof.
  intros He. unfold binary_round.
  rewrite digits2_pos_log2. rewrite fexp_normal by lia.
  unfold shl_align.
  pose proof (digits_pos (Zpos m) ltac:(lia)) as Hdp.
  destruct (digits (Zpos m) + e - 53 - e) as [| p | p] eqn:Hn.
  - apply binary_round_aux_norm; lia.
  - apply binary_round_aux_norm; lia.
  - assert (Hd : digits (Zpos m) = 53 - Zpos p) by lia.
    rewrite binary_round_aux_norm.
    + rewrite iter_xO.
      replace (digits (Zpos m) + e - 53) with (e - Zpos p) by lia.
      rewrite norm_scale by lia. reflexivity.
    + rewrite iter_xO, digits_mul_pow2 by lia. lia.
    + rewrite iter_xO, digits_mul_pow2 by lia. lia.
Qed.

Lemma of_Z_pos (z : Z) : 0 < z -> of_Z z = to_float false (norm z 0).
Proof.
  intros Hz. destruct z as [| p | p]; try lia.
  unfold of_Z. cbn [binary_normalize].
  apply binary_round_norm.
  pose proof (digits_pos (Zpos p) ltac:(lia)). lia.
Qed.

Lemma Ldexp_normal (a : Z * Z) (k : Z) :
  normal (fst a) -> -1074 <= snd a + k ->
  math.Ldexp (nfloat a) k = to_float false (fst a, snd a + k).
Proof.
  intros Ha He. unfold math.Ldexp, nfloat. cbn [SFldexp].
  pose proof (normal_pos _ Ha).
  rewrite binary_round_norm; rewrite to_pos_id by assumption.
  - rewrite norm_normal by exact Ha. reflexivity.
  - rewrite normal_digits by exact Ha. lia.
Qed.

Lemma Frexp_normal (a : Z * Z) :
  normal (fst a) ->
  math.Frexp (nfloat a) = (nfloat (fst a, -53), snd a + 53).
Proof.
  intros Ha. unfold math.Frexp, nfloat. cbn [SFfrexp fst snd].
  pose proof (normal_pos _ Ha).
  rewrite digits2_pos_log2, to_pos_id by assumption.
  rewrite normal_digits by exact Ha.
  reflexivity.
Qed.

Lemma add_self_normal (a : Z * Z) :
  normal (fst a) -> -1075 <= snd a ->
  add (nfloat a) (nfloat a) = to_float false (fst a, snd a + 1).
Proof.
  intros Ha He. unfold add, nfloat. cbn [SFadd].
  rewrite Z.min_id. unfold shl_align. rewrite Z.sub_diag.
  cbn [fst cond_Zopp]. cbn [Z.add binary_normalize].
  pose proof (normal_pos _ Ha).
  rewrite binary_round_norm.
  - rewrite Pos2Z.inj_add, to_pos_id by assumption.
    replace (fst a + fst a) with (fst a * 2 ^ 1) by (change (2 ^ 1) with 2; lia).
    replace (snd a) with (snd a + 1 - 1) at 1 by lia.
    rewrite norm_scale by lia. rewrite norm_normal by exact Ha.
    reflexivity.
  - rewrite Pos2Z.inj_add, to_pos_id by assumption.
    replace (fst a + fst a) with (fst a * 2 ^ 1) by (change (2 ^ 1) with 2; lia).
    rewrite digits_mul_pow2, normal_digits by (try lia; exact Ha). lia.
Qed.

(** *** Comparisons *)
Lemma nleb_spec (a b : Z * Z) : nleb a b = true <-> nle a b.
Proof.
  unfold nleb, nle.
  rewrite orb_true_iff, andb_true_iff, Z.ltb_lt, Z.eqb_eq, Z.leb_le.
  reflexivity.
Qed.

Lemma nleb_false (a b : Z * Z) : nleb a b = false -> nle b a.
Proof.
  unfold nleb, nle. intros H.
  apply orb_false_iff in H. destruct H as [H1 H2].
  apply Z.ltb_ge in H1. apply andb_false_iff in H2.
  destruct H2 as [H2 | H2].
  - apply Z.eqb_neq in H2. lia.
  - apply Z.leb_gt in H2. lia.
Qed.

Lemma compare_nfloat (a b : Z * Z) :
  0 < fst a -> 0 < fst b ->
  SFcompare (nfloat a) (nfloat b)
  = Some (match snd a ?= snd b with
          | Lt => Lt
          | Gt => Gt
          | Eq => fst a ?= fst b
          end).
Proof.
  intros Ha Hb. unfold nfloat. cbn [SFcompare].
  destruct (snd a ?= snd b); try reflexivity.
  f_equal. change (Pos.compare_cont Eq ?x ?y) with (Pos.compare x y).
  symmetry. apply Z2Pos.inj_compare; assumption.
Qed.

Lemma leb_nfloat (a b : Z * Z) :
  0 < fst a -> 0 < fst b -> leb (nfloat a) (nfloat b) = nleb a b.
Proof.
  intros Ha Hb. unfold leb, SFleb. rewrite compare_nfloat by assumption.
  unfold nleb.
  destruct (Z.compare_spec (snd a) (snd b));
    destruct (Z.compare_spec (fst a) (fst b)); zbool; cbn;
    try reflexivity; lia.
Qed.

Lemma ltb_nfloat (a b : Z * Z) :
  0 < fst a -> 0 < fst b -> ltb (nfloat a) (nfloat b) = negb (nleb b a).
Proof.
  intros Ha Hb. unfold ltb, SFltb. rewrite compare_nfloat by assumption.
  unfold nleb.
  destruct (Z.compare_spec (snd a) (snd b));
    destruct (Z.compare_spec (fst a) (fst b)); zbool; cbn;
    try reflexivity; lia.
Qed.

Lemma eqb_nfloat (a b : Z * Z) :
  0 < fst a -> 0 < fst b ->
  eqb (nfloat a) (nfloat b) = (snd a =? snd b) && (fst a =? fst b).
Proof.
  intros Ha Hb. unfold eqb, SFeqb. rewrite compare_nfloat by assumption.
  destruct (Z.compare_spec (snd a) (snd b));
    destruct (Z.compare_spec (fst a) (fst b)); zbool; cbn;
    try reflexivity; lia.
Qed.

(** *** The loop of [pow] on pairs *)
Lemma norm_shift (M E k : Z) :
  norm M (E + k) = (fst (norm M E), snd (norm M E) + k).
Proof.
  unfold norm. cbv zeta.
  destruct (rne M (digits M - 53) =? 2 ^ 53); cbn [fst snd]; f_equal; lia.
Qed.

Lemma nmul_shift (m1 e1 m2 e2 k j : Z) :
  nmul (m1, e1 + k) (m2, e2 + j)
  = (fst (nmul (m1, e1) (m2, e2)), snd (nmul (m1, e1) (m2, e2)) + (k + j)).
Proof.
  unfold nmul. cbn [fst snd].
  replace (e1 + k + (e2 + j)) with (e1 + e2 + (k + j)) by lia.
  apply norm_shift.
Qed.

Lemma mul_step (ma ea mx : Z) :
  normal ma -> normal mx -> -1000 <= ea <= 900 ->
  mul (nfloat (ma, ea)) (nfloat (mx, -53)) = nfloat (nmul (ma, ea) (mx, -53)).
Proof.
  intros Ha Hx He.
  rewrite mul_normal by (cbn [fst snd]; try assumption; lia).
  apply to_float_finite.
  pose proof (nmul_exp (ma, ea) (mx, -53) Ha Hx) as Hb.
  cbn [fst snd] in Hb. lia.
Qed.

Lemma half_nfloat : half = nfloat (2 ^ 52, -53).
Proof. reflexivity. Qed.

Lemma one_nfloat : one = nfloat n_one.
Proof. reflexivity. Qed.

Lemma square_spec (mx xe2 : Z) :
  normal mx ->
  (let x1 := mul (nfloat (mx, -53)) (nfloat (mx, -53)) in
   if ltb x1 half then (add x1 x1, xe2 - 1) else (x1, xe2))
  = (nfloat (fst (nmul (mx, -53) (mx, -53)), -53),
     xe2 + snd (nmul (mx, -53) (mx, -53)) + 53).
Proof.
  intros Hx. cbv zeta.
  rewrite mul_step by (try assumption; lia).
  pose proof (nmul_exp (mx, -53) (mx, -53) Hx Hx) as Hb.
  pose proof (nmul_normal (mx, -53) (mx, -53) Hx Hx) as Hn.
  cbn [fst snd] in Hb.
  destruct (nmul (mx, -53) (mx, -53)) as [m2 e2]. cbn [fst snd] in *.
  rewrite half_nfloat, ltb_nfloat
    by (cbn [fst]; first [apply normal_pos; assumption | lia]).
  unfold nleb. cbn [fst snd]. unfold normal in Hn.
  assert (Hcase : e2 = -54 \/ e2 = -53) by lia.
  destruct Hcase as [-> | ->].
  - change (-53 <? -54) with false. change (-53 =? -54) with false.
    cbn [orb andb negb].
    rewrite add_self_normal by (cbn [fst snd]; try assumption; lia).
    cbn [fst snd]. change (-54 + 1) with (-53).
    rewrite to_float_finite by (cbn [snd]; lia). f_equal. lia.
  - change (-53 <? -53) with false. change (-53 =? -53) with true.
    destruct (Z.leb_spec (2 ^ 52) m2); [| lia].
    cbn [orb andb negb]. f_equal. lia.
Qed.

Lemma pow_loop_xH a1 ae x1 xe :
  math.pow_loop xH a1 ae x1 xe
  = if loop_break xe then (a1, ae + xe) else (mul a1 x1, ae + xe).
Proof.
  cbn [math.pow_loop]. unfold loop_break. destruct (_ || _); [reflexivity |].
  destruct (ltb (mul x1 x1) half); reflexivity.
Qed.

Lemma pow_loop_xO i a1 ae x1 xe :
  math.pow_loop (xO i) a1 ae x1 xe
  = if loop_break xe then (a1, ae + xe)
    else math.pow_loop i a1 ae (fst (square x1 xe)) (snd (square x1 xe)).
Proof.
  cbn [math.pow_loop]. unfold loop_break, square. destruct (_ || _); [reflexivity |].
  destruct (ltb (mul x1 x1) half); reflexivity.
Qed.

Lemma pow_loop_xI i a1 ae x1 xe :
  math.pow_loop (xI i) a1 ae x1 xe
  = if loop_break xe then (a1, ae + xe)
    else math.pow_loop i (mul a1 x1) (ae + xe)
                       (fst (square x1 xe)) (snd (square x1 xe)).
Proof.
  cbn [math.pow_loop]. unfold loop_break, square. destruct (_ || _); [reflexivity |].
  destruct (ltb (mul x1 x1) half); reflexivity.
Qed.

Lemma square_nfloat (mx xe : Z) :
  normal mx ->
  square (nfloat (mx, -53)) xe
  = (nfloat (fst (nmul (mx, -53) (mx, -53)), -53),
     2 * xe + snd (nmul (mx, -53) (mx, -53)) + 53).
Proof.
  intros Hx. unfold square. apply (square_spec mx (2 * xe) Hx).
Qed.

Lemma loop_break_overflows (mx xe : Z) : 1 <= xe -> loop_break xe = overflows (mx, xe - 53).
Proof.
  intros Hxe. unfold loop_break, overflows. cbn [snd].
  replace (xe - 53 + 53) with xe by lia.
  destruct (Z.ltb_spec xe (- 2 ^ 12)); [lia | reflexivity].
Qed.

Lemma pow_loop_spec (i : positive) :
  forall ma ea ae mx xe,
  normal ma -> normal mx -> 1 <= xe -> -52 <= ea + ae ->
  -1000 + Zpos (Pos.size i) <= ea -> ea <= 900 ->
  exists m e1 ae',
    math.pow_loop i (nfloat (ma, ea)) ae (nfloat (mx, -53)) xe = (nfloat (m, e1), ae')
    /\ normal m /\ ea - Zpos (Pos.size i) <= e1 <= ea
    /\ -52 <= e1 + ae'
    /\ match nloop i (ma, ea + ae) (mx, xe - 53) with
       | Some R => R = (m, e1 + ae')
       | None => 971 < e1 + ae'
       end.
Proof.
  induction i as [i IH | i IH |]; intros ma ea ae mx xe Ha Hx Hxe HA Hlo Hhi.
  - (* xI *)
    rewrite pow_loop_xI. cbn [nloop]. rewrite (loop_break_overflows mx xe Hxe).
    destruct (overflows (mx, xe - 53)) eqn:Hb.
    + exists ma, ea, (ae + xe).
      split; [reflexivity |]. split; [exact Ha |]. split; [lia |].
      split; [lia |].
      unfold overflows in Hb. cbn [snd] in Hb. apply Z.ltb_lt in Hb. lia.
    + cbn [Pos.size] in Hlo |- *. rewrite Pos2Z.inj_succ in Hlo |- *.
      rewrite square_nfloat by exact Hx. cbn [fst snd].
      rewrite mul_step by (try assumption; lia).
      pose proof (nmul_exp (ma, ea) (mx, -53) Ha Hx) as HeA.
      pose proof (nmul_normal (ma, ea) (mx, -53) Ha Hx) as HnA.
      pose proof (nmul_exp (mx, -53) (mx, -53) Hx Hx) as HeX.
      pose proof (nmul_normal (mx, -53) (mx, -53) Hx Hx) as HnX.
      cbn [fst snd] in HeA, HeX.
      replace (xe - 53) with (-53 + xe) by lia.
      rewrite (nmul_shift mx (-53) mx (-53) xe xe).
      rewrite (nmul_shift ma ea mx (-53) ae xe).
      destruct (nmul (ma, ea) (mx, -53)) as [m1 e1'].
      destruct (nmul (mx, -53) (mx, -53)) as [m2 e2].
      cbn [fst snd] in *.
      destruct (IH m1 e1' (ae + xe) m2 (2 * xe + e2 + 53))
        as (m & e1 & ae' & Hpow & Hm & He1 & Hge & Hal);
        try assumption; try lia.
      exists m, e1, ae'. split; [exact Hpow |]. split; [exact Hm |].
      split; [lia |]. split; [exact Hge |].
      replace (e1' + (ae + xe)) with (e1' + (ae + xe)) in Hal by lia.
      replace (2 * xe + e2 + 53 - 53) with (e2 + (xe + xe)) in Hal by lia.
      exact Hal.
  - (* xO *)
    rewrite pow_loop_xO. cbn [nloop]. rewrite (loop_break_overflows mx xe Hxe).
    destruct (overflows (mx, xe - 53)) eqn:Hb.
    + exists ma, ea, (ae + xe).
      split; [reflexivity |]. split; [exact Ha |]. split; [lia |].
      split; [lia |].
      unfold overflows in Hb. cbn [snd] in Hb. apply Z.ltb_lt in Hb. lia.
    + cbn [Pos.size] in Hlo |- *. rewrite Pos2Z.inj_succ in Hlo |- *.
      rewrite square_nfloat by exact Hx. cbn [fst snd].
      pose proof (nmul_exp (mx, -53) (mx, -53) Hx Hx) as HeX.
      pose proof (nmul_normal (mx, -53) (mx, -53) Hx Hx) as HnX.
      cbn [fst snd] in HeX.
      replace (xe - 53) with (-53 + xe) by lia.
      rewrite (nmul_shift mx (-53) mx (-53) xe xe).
      destruct (nmul (mx, -53) (mx, -53)) as [m2 e2].
      cbn [fst snd] in *.
      destruct (IH ma ea ae m2 (2 * xe + e2 + 53))
        as (m & e1 & ae' & Hpow & Hm & He1 & Hge & Hal);
        try assumption; try lia.
      exists m, e1, ae'. split; [exact Hpow |]. split; [exact Hm |].
      split; [lia |]. split; [exact Hge |].
      replace (2 * xe + e2 + 53 - 53) with (e2 + (xe + xe)) in Hal by lia.
      exact Hal.
  - (* xH *)
    rewrite pow_loop_xH. cbn [nloop]. rewrite (loop_break_overflows mx xe Hxe).
    destruct (overflows (mx, xe - 53)) eqn:Hb.
    + exists ma, ea, (ae + xe).
      split; [reflexivity |]. split; [exact Ha |]. split; [lia |].
      split; [lia |].
      unfold overflows in Hb. cbn [snd] in Hb. apply Z.ltb_lt in Hb. lia.
    + cbn [Pos.size] in Hlo |- *.
      rewrite mul_step by (try assumption; lia).
      pose proof (nmul_exp (ma, ea) (mx, -53) Ha Hx) as HeA.
      pose proof (nmul_normal (ma, ea) (mx, -53) Ha Hx) as HnA.
      cbn [fst snd] in HeA.
      replace (xe - 53) with (-53 + xe) by lia.
      rewrite (nmul_shift ma ea mx (-53) ae xe).
      destruct (nmul (ma, ea) (mx, -53)) as [m1 e1'].
      cbn [fst snd] in *.
      exists m1, e1', (ae + xe).
      split; [reflexivity |]. split; [exact HnA |]. split; [lia |].
      split; [lia |]. reflexivity.
Qed.

(** *** The loop grows with the exponent *)
Lemma ole_refl o : ole o o.
Proof. destruct o; cbn; [apply nle_refl | exact I]. Qed.

Lemma ole_trans a b c : ole a b -> ole b c -> ole a c.
Proof.
  destruct c as [c|]; [| intros; exact I].
  destruct b as [b|]; cbn; [| intros _ []].
  destruct a as [a|]; cbn; [| intros []].
  apply nle_trans.
Qed.

Lemma n_one_normal : normal (fst n_one).
Proof. unfold normal, n_one. cbn [fst]. lia. Qed.

Lemma nmul_one_l (X : Z * Z) : normal (fst X) -> nmul n_one X = X.
Proof.
  intros HX. rewrite nmul_comm. destruct X as [m e]. apply nmul_one_r.
  exact HX.
Qed.

Lemma nloop_mono_acc (i : positive) :
  forall A A' X,
  normal (fst A) -> normal (fst A') -> normal (fst X) ->
  nle A A' -> ole (nloop i A X) (nloop i A' X).
Proof.
  induction i as [i IH | i IH |]; intros A A' X HA HA' HX Hle;
    cbn [nloop]; destruct (overflows X); try exact I.
  - apply IH; try (apply nmul_normal; assumption).
    apply nmul_mono_l; assumption.
  - apply IH; try assumption. apply nmul_normal; assumption.
  - cbn. apply nmul_mono_l; assumption.
Qed.

Lemma nloop_succ (i : positive) :
  forall A X,
  normal (fst A) -> normal (fst X) -> nle A X ->
  ole (nloop i A X) (nloop (Pos.succ i) n_one X).
Proof.
  induction i as [i IH | i IH |]; intros A X HA HX Hle;
    cbn [nloop Pos.succ]; destruct (overflows X); try exact I.
  - apply IH; try (apply nmul_normal; assumption).
    apply nmul_mono_l; assumption.
  - rewrite nmul_one_l by exact HX.
    apply nloop_mono_acc; try assumption. apply nmul_normal; assumption.
  - destruct (overflows (nmul X X)); [exact I |].
    rewrite nmul_one_l by (apply nmul_normal; assumption).
    cbn. apply nmul_mono_l; assumption.
Qed.

Lemma nloop_le (i j : positive) (X : Z * Z) :
  normal (fst X) -> nle n_one X -> (i <= j)%positive ->
  ole (nloop i n_one X) (nloop j n_one X).
Proof.
  intros HX H1 Hij.
  assert (Hk : exists k : nat, Pos.to_nat j = (Pos.to_nat i + k)%nat).
  { exists (Pos.to_nat j - Pos.to_nat i)%nat. lia. }
  destruct Hk as [k Hk]. revert j Hij Hk.
  induction k as [|k IHk]; intros j Hij Hk.
  - assert (j = i) by lia. subst j. apply ole_refl.
  - assert (Hj : exists j', j = Pos.succ j').
    { exists (Pos.pred j). rewrite Pos.succ_pred; [reflexivity | lia]. }
    destruct Hj as [j' ->].
    apply ole_trans with (b := nloop j' n_one X).
    + apply IHk; lia.
    + apply nloop_succ; try assumption. apply n_one_normal.
Qed.

(** *** [float64(a)] for a positive integer *)
Lemma trunc_nfloat (a : Z * Z) : 0 < fst a -> trunc (nfloat a) = Some (ival a).
Proof.
  intros Ha. unfold trunc, nfloat, ival. rewrite to_pos_id by exact Ha.
  cbn [cond_Zopp]. f_equal.
  destruct (Z.leb_spec 0 (snd a)).
  - apply Z.shiftl_mul_pow2. assumption.
  - apply Z.shiftr_div_pow2. lia.
Qed.

Lemma norm_int_small (a : Z) :
  0 < a -> digits a <= 53 ->
  norm a 0 = (a * 2 ^ (53 - digits a), digits a - 53).
Proof.
  intros Ha Hd. unfold norm. cbv zeta.
  rewrite rne_nonpos by lia.
  replace (- (digits a - 53)) with (53 - digits a) by lia.
  pose proof (digits_spec a Ha) as Hs.
  pose proof (digits_pos a Ha) as Hp.
  assert (Hlt : a * 2 ^ (53 - digits a) < 2 ^ 53).
  { replace (2 ^ 53) with (2 ^ digits a * 2 ^ (53 - digits a)).
    2:{ rewrite <- Z.pow_add_r by lia. f_equal. lia. }
    pose proof (pow2_pos (53 - digits a) ltac:(lia)). nia. }
  destruct (Z.eqb_spec (a * 2 ^ (53 - digits a)) (2 ^ 53)); [lia |].
  f_equal.
Qed.

Lemma norm_int_exp (a : Z) :
  0 < a -> digits a - 53 <= snd (norm a 0) <= digits a - 52.
Proof.
  intros Ha. unfold norm. cbv zeta.
  destruct (rne a (digits a - 53) =? 2 ^ 53); cbn [snd]; lia.
Qed.

Lemma ipart_small (a : Z) : 0 < a -> digits a <= 53 -> ipart a = a.
Proof.
  intros Ha Hd. unfold ipart. rewrite norm_int_small by assumption.
  unfold ival. cbn [fst snd].
  pose proof (digits_pos a Ha) as Hp.
  destruct (Z.leb_spec 0 (digits a - 53)).
  - replace (digits a - 53) with 0 by lia.
    replace (53 - digits a) with 0 by lia. change (2 ^ 0) with 1. lia.
  - replace (- (digits a - 53)) with (53 - digits a) by lia.
    apply Z.div_mul. pose proof (pow2_pos (53 - digits a) ltac:(lia)). lia.
Qed.

Lemma of_Z_ipart (a : Z) :
  0 < a -> of_Z (ipart a) = of_Z a.
Proof.
  intros Ha. destruct (Z.le_gt_cases (digits a) 53) as [Hd | Hd].
  - rewrite ipart_small by assumption. reflexivity.
  - pose proof (norm_int_exp a Ha) as He.
    pose proof (norm_range a 0 Ha) as Hn.
    unfold ipart, ival.
    destruct (norm a 0) as [m e] eqn:Hnorm. cbn [fst snd] in *.
    destruct (Z.leb_spec 0 e); [| lia].
    pose proof (normal_pos m Hn) as Hm.
    pose proof (pow2_pos e ltac:(lia)) as Hpe.
    rewrite (of_Z_pos a Ha), Hnorm.
    rewrite of_Z_pos by nia.
    replace 0 with (e - e) at 1 by lia.
    rewrite norm_scale by lia. rewrite norm_normal by exact Hn.
    reflexivity.
Qed.

Lemma ipart_pos (a : Z) : 0 < a -> 0 < ipart a.
Proof.
  intros Ha. destruct (Z.le_gt_cases (digits a) 53) as [Hd | Hd].
  - rewrite ipart_small by assumption. exact Ha.
  - pose proof (norm_int_exp a Ha) as He.
    pose proof (norm_range a 0 Ha) as Hn.
    unfold ipart, ival.
    destruct (norm a 0) as [m e]. cbn [fst snd] in *.
    destruct (Z.leb_spec 0 e); [| lia].
    pose proof (normal_pos m Hn) as Hm.
    pose proof (pow2_pos e ltac:(lia)) as Hpe. nia.
Qed.

Lemma ival_mono (m e m' e' : Z) :
  normal m -> normal m' -> nle (m, e) (m', e') ->
  ival (m, e) <= ival (m', e').
Proof.
  unfold normal, nle, ival. cbn [fst snd]. intros Hm Hm' Hle.
  destruct (Z.leb_spec 0 e) as [He | He];
    destruct (Z.leb_spec 0 e') as [He' | He'].
  - destruct Hle as [Hlt | [Heq Hmm]].
    + assert (H2 : 2 ^ e' = 2 ^ e * 2 ^ (e' - e)).
      { rewrite <- Z.pow_add_r by lia. f_equal. lia. }
      assert (H3 : 2 * 1 <= 2 ^ (e' - e)).
      { change (2 * 1) with (2 ^ 1). apply Z.pow_le_mono_r; lia. }
      pose proof (pow2_pos e He). rewrite H2. nia.
    + subst e'. pose proof (pow2_pos e He). nia.
  - lia.
  - assert (H1 : m / 2 ^ (- e) <= m / 2 ^ 1).
    { apply Z.div_le_compat_l; [lia |]. split; [reflexivity |].
      apply Z.pow_le_mono_r; lia. }
    assert (H2 : m / 2 ^ 1 < 2 ^ 52).
    { apply Z.div_lt_upper_bound; [reflexivity | lia]. }
    pose proof (pow2_pos e' He'). nia.
  - destruct Hle as [Hlt | [Heq Hmm]].
    + assert (H2 : 2 ^ (- e) = 2 ^ (e' - e) * 2 ^ (- e')).
      { rewrite <- Z.pow_add_r by lia. f_equal. lia. }
      rewrite H2. rewrite <- Z.div_div;
        [| pose proof (pow2_pos (e' - e)); lia
         | pose proof (pow2_pos (- e')); lia].
      apply Z.div_le_mono; [apply pow2_pos; lia |].
      assert (H1 : m / 2 ^ (e' - e) <= m / 2 ^ 1).
      { apply Z.div_le_compat_l; [lia |]. split; [reflexivity |].
        apply Z.pow_le_mono_r; lia. }
      assert (H3 : m / 2 ^ 1 < 2 ^ 52).
      { apply Z.div_lt_upper_bound; [reflexivity | lia]. }
      lia.
    + subst e'. apply Z.div_le_mono; [apply pow2_pos; lia | exact Hmm].
Qed.

Lemma norm_int_mono (a b : Z) :
  0 < a -> a <= b -> nle (norm a 0) (norm b 0).
Proof. intros Ha Hab. apply norm_mono_same; assumption. Qed.

Lemma ipart_mono (a b : Z) : 0 < a -> a <= b -> ipart a <= ipart b.
Proof.
  intros Ha Hab. unfold ipart.
  pose proof (norm_int_mono a b Ha Hab) as Hle.
  pose proof (norm_range a 0 Ha) as Hn.
  pose proof (norm_range b 0 ltac:(lia)) as Hn'.
  destruct (norm a 0) as [m e], (norm b 0) as [m' e'].
  apply ival_mono; assumption.
Qed.

Lemma digits_lt_pow2 (a k : Z) : 0 < a -> a < 2 ^ k -> digits a <= k.
Proof.
  intros Ha Hk. unfold digits.
  assert (Z.log2 a < k) by (apply Z.log2_lt_pow2; assumption). lia.
Qed.

Lemma of_Z_nfloat (a : Z) :
  0 < a -> a < 2 ^ 64 -> of_Z a = nfloat (norm a 0).
Proof.
  intros Ha Hb. rewrite of_Z_pos by exact Ha. apply to_float_finite.
  pose proof (norm_int_exp a Ha). pose proof (digits_lt_pow2 a 64 Ha Hb).
  lia.
Qed.

Lemma sub_self_finite (m : positive) (e : Z) :
  sub (S754_finite false m e) (S754_finite false m e) = S754_zero false.
Proof.
  unfold sub. cbn [SFsub]. rewrite Z.min_id.
  unfold shl_align. rewrite Z.sub_diag. cbn [fst cond_Zopp].
  reflexivity.
Qed.

Lemma Modf_finite (s : bool) (m : positive) (e i : Z) :
  trunc (S754_finite s m e) = Some i -> i <> 0 ->
  math.Modf (S754_finite s m e)
  = (of_Z i, math.Copysign (sub (S754_finite s m e) (of_Z i))
                           (S754_finite s m e)).
Proof.
  intros Ht Hi. unfold math.Modf. rewrite Ht.
  destruct i; [congruence | reflexivity | reflexivity].
Qed.

Lemma Modf_int (a : Z) :
  0 < a -> a < 2 ^ 64 ->
  math.Modf (of_Z a) = (of_Z a, S754_zero false).
Proof.
  intros Ha Hb.
  pose proof (of_Z_ipart a Ha) as Hip.
  pose proof (ipart_pos a Ha) as Hpos.
  pose proof (of_Z_nfloat a Ha Hb) as Hfl.
  pose proof (norm_range a 0 Ha) as Hn.
  assert (Ht : trunc (nfloat (norm a 0)) = Some (ipart a)).
  { apply trunc_nfloat. apply normal_pos. exact Hn. }
  rewrite Hfl in Hip |- *. unfold nfloat in Ht, Hip |- *.
  rewrite (Modf_finite _ _ _ _ Ht) by lia.
  rewrite Hip, sub_self_finite. reflexivity.
Qed.

(** *** [Pow] at an integer exponent *)
Section PowTests.

Variables Exp Log : float64 -> float64.

Lemma pow_body_general self x y :
  eqb y zero = false -> eqb x one = false -> eqb y one = false ->
  math.IsNaN x = false -> math.IsNaN y = false ->
  eqb x zero = false -> math.IsInf y 0 = false -> math.IsInf x 0 = false ->
  eqb y half = false -> eqb y (neg half) = false ->
  math.pow_body Exp Log self x y = math.pow_general Exp Log x y.
Proof.
  intros H1 H2 H3 H4 H5 H6 H7 H8 H9 H10. unfold math.pow_body.
  rewrite H1, H2, H3, H4, H5, H6, H7, H8, H9, H10. reflexivity.
Qed.

Lemma size_lt_pow2 (i : positive) (k : Z) :
  Zpos i < 2 ^ k -> Zpos (Pos.size i) <= k.
Proof.
  intros Hi. rewrite <- digits2_pos_size, digits2_pos_log2.
  apply digits_lt_pow2; [lia | exact Hi].
Qed.

Lemma gt_n_one (X : Z * Z) :
  normal (fst X) -> nleb X n_one = false ->
  -52 <= snd X /\ nleb n_one X = true
  /\ (snd X =? -52) && (fst X =? 2 ^ 52) = false.
Proof.
  unfold normal, nleb, n_one. cbn [fst snd]. intros HX H.
  apply orb_false_iff in H. destruct H as [H1 H2].
  apply Z.ltb_ge in H1. split; [lia |].
  destruct (Z.eqb_spec (snd X) (-52)) as [E | E].
  - cbn [andb] in H2. apply Z.leb_gt in H2. rewrite E. split.
    + change (-52 <? -52) with false. change (-52 =? -52) with true.
      cbn. apply Z.leb_le. lia.
    + cbn. apply Z.eqb_neq. lia.
  - split; [| reflexivity].
    destruct (Z.ltb_spec (-52) (snd X)); [reflexivity | lia].
Qed.

Lemma ipart_big (a : Z) :
  0 < a ->
  (2 ^ 63 <=? ipart a) = nleb (2 ^ 52, 11) (norm a 0).
Proof.
  intros Ha. unfold ipart, ival, nleb.
  pose proof (norm_range a 0 Ha) as Hn. unfold normal in Hn.
  destruct (norm a 0) as [m e]. cbn [fst snd] in *.
  destruct (Z.leb_spec 0 e) as [He | He].
  - destruct (Z.ltb_spec 11 e) as [H11 | H11].
    + cbn [orb]. apply Z.leb_le.
      assert (H2 : 2 ^ 12 <= 2 ^ e) by (apply Z.pow_le_mono_r; lia).
      nia.
    + cbn [orb]. destruct (Z.eqb_spec 11 e) as [E | E].
      * subst e. cbn [andb].
        destruct (Z.leb_spec (2 ^ 52) m); [| lia].
        apply Z.leb_le. lia.
      * cbn [andb]. apply Z.leb_gt.
        assert (H2 : 2 ^ e <= 2 ^ 10) by (apply Z.pow_le_mono_r; lia).
        pose proof (pow2_pos e He). nia.
  - destruct (Z.ltb_spec 11 e); [lia |].
    destruct (Z.eqb_spec 11 e); [lia |]. cbn.
    apply Z.leb_gt.
    assert (m / 2 ^ (- e) <= m).
    { apply Z.div_le_upper_bound; [apply pow2_pos; lia |].
      pose proof (pow2_pos (- e) ltac:(lia)). nia. }
    lia.
Qed.

End PowTests.

Section PowGeneral.

Variables Exp Log : float64 -> float64.

Lemma two63_nfloat : two63 = nfloat (2 ^ 52, 11).
Proof. reflexivity. Qed.

Lemma digits_ge2 (a : Z) : 2 <= a -> 2 <= digits a.
Proof.
  intros Ha. change 2 with (digits 2) at 1. apply digits_le; lia.
Qed.

Lemma pow_general_nfloat (X : Z * Z) (a : Z) :
  normal (fst X) -> nleb X n_one = false -> snd X <= 971 ->
  2 <= a -> a < 2 ^ 64 ->
  math.pow_general Exp Log (nfloat X) (of_Z a) = ofloat (npow X a).
Proof.
  intros HX Hgt HeX Ha Hb.
  destruct (gt_n_one X HX Hgt) as (HX52 & HleX & HneX).
  pose proof (norm_range a 0 ltac:(lia)) as HnY.
  pose proof (norm_int_exp a ltac:(lia)) as HeY.
  pose proof (digits_ge2 a Ha) as Hd2.
  pose proof (digits_lt_pow2 a 64 ltac:(lia) Hb) as Hd64.
  pose proof (normal_pos _ HX) as HXpos.
  pose proof (normal_pos _ HnY) as HYpos.
  unfold math.pow_general.
  replace (math.Abs (of_Z a)) with (of_Z a)
    by (rewrite of_Z_nfloat by lia; reflexivity).
  rewrite Modf_int by lia.
  change (neqb (S754_zero false) zero) with false. cbn [andb].
  unfold geb. fold (leb two63 (of_Z a)).
  rewrite of_Z_nfloat by lia. rewrite two63_nfloat.
  rewrite leb_nfloat by (cbn [fst]; lia).
  unfold npow. rewrite ipart_big by lia.
  destruct (nleb (2 ^ 52, 11) (norm a 0)) eqn:Hbig.
  - (* exponent of at least 2^63 *)
    replace (eqb (nfloat X) minus_one) with false by reflexivity.
    replace (math.Abs (nfloat X)) with (nfloat X) by reflexivity.
    rewrite one_nfloat, ltb_nfloat by (try exact HXpos; cbn; lia).
    rewrite HleX. replace (gtb (nfloat (norm a 0)) zero) with true by reflexivity.
    reflexivity.
  - (* the loop *)
    rewrite Frexp_normal by exact HX.
    assert (Hip : math.int_part (nfloat (norm a 0)) = ipart a).
    { unfold math.int_part. rewrite trunc_nfloat by exact HYpos. reflexivity. }
    rewrite Hip.
    pose proof (ipart_pos a ltac:(lia)) as Hipos.
    assert (Hilt : ipart a < 2 ^ 63).
    { rewrite <- ipart_big in Hbig by lia. apply Z.leb_gt. exact Hbig. }
    destruct (ipart a) as [| i | i] eqn:Hi; try lia.
    cbn [Z.to_pos].
    pose proof (size_lt_pow2 i 63 Hilt) as Hsz.
    destruct (pow_loop_spec i (2 ^ 52) (-52) 0 (fst X) (snd X + 53))
      as (m & e1 & ae' & Hpow & Hm & He1 & Hge & Hal);
      try assumption; try lia.
    { unfold normal. lia. }
    change (nfloat (2 ^ 52, -52)) with (nfloat n_one) in Hpow.
    rewrite one_nfloat, Hpow.
    replace (ltb (nfloat (norm a 0)) zero) with false by reflexivity.
    rewrite Ldexp_normal by (cbn [fst snd]; try assumption; lia).
    cbn [fst snd].
    change (-52 + 0) with (-52) in Hal.
    replace (snd X + 53 - 53) with (snd X) in Hal by lia.
    replace (fst X, snd X) with X in Hal by (destruct X; reflexivity).
    fold n_one in Hal.
    destruct (nloop i n_one X) as [R |].
    + subst R. reflexivity.
    + cbn [ofloat]. apply to_float_inf. cbn [snd]. exact Hal.
Qed.

End PowGeneral.

Section PowAtInteger.

Variables Exp Log : float64 -> float64.

Lemma of_Z_tests (a : Z) :
  2 <= a -> a < 2 ^ 64 ->
  eqb (of_Z a) zero = false /\ eqb (of_Z a) one = false
  /\ math.IsNaN (of_Z a) = false /\ math.IsInf (of_Z a) 0 = false
  /\ eqb (of_Z a) half = false /\ eqb (of_Z a) (neg half) = false
  /\ ltb (of_Z a) zero = false /\ gtb (of_Z a) zero = true.
Proof.
  intros Ha Hb.
  pose proof (norm_range a 0 ltac:(lia)) as HnY.
  pose proof (norm_int_exp a ltac:(lia)) as HeY.
  pose proof (digits_ge2 a Ha) as Hd2.
  pose proof (normal_pos _ HnY) as HYpos.
  rewrite of_Z_nfloat by lia.
  rewrite one_nfloat, half_nfloat.
  rewrite !eqb_nfloat by (try exact HYpos; cbn; lia).
  unfold n_one. cbn [fst snd].
  destruct (Z.eqb_spec (snd (norm a 0)) (-52)); [lia |].
  destruct (Z.eqb_spec (snd (norm a 0)) (-53)); [lia |].
  repeat split; reflexivity.
Qed.

Lemma Pow_nfloat (X : Z * Z) (a : Z) :
  normal (fst X) -> nleb X n_one = false -> snd X <= 971 ->
  1 <= a -> a < 2 ^ 64 ->
  math.Pow Exp Log (nfloat X) (of_Z a) = ofloat (npow X a).
Proof.
  intros HX Hgt HeX Ha Hb.
  destruct (gt_n_one X HX Hgt) as (HX52 & HleX & HneX).
  pose proof (normal_pos _ HX) as HXpos.
  destruct (Z.eq_dec a 1) as [-> | Hne].
  - change (of_Z 1) with one. rewrite Pow_one.
    unfold npow. change (ipart 1) with 1.
    change (2 ^ 63 <=? 1) with false. cbn [Z.to_pos nloop].
    unfold overflows. destruct (Z.ltb_spec (2 ^ 12) (snd X + 53)); [lia |].
    rewrite nmul_one_l by exact HX. cbn [ofloat].
    symmetry. apply to_float_finite. exact HeX.
  - destruct (of_Z_tests a ltac:(lia) Hb)
      as (T1 & T2 & T3 & T4 & T5 & T6 & _ & _).
    unfold math.Pow. rewrite pow_body_general; try assumption;
      try reflexivity.
    + apply pow_general_nfloat; try assumption; lia.
    + rewrite one_nfloat, eqb_nfloat by (try exact HXpos; cbn; lia).
      exact HneX.
Qed.

Lemma Pow_inf (a : Z) :
  1 <= a -> a < 2 ^ 64 ->
  math.Pow Exp Log (S754_infinity false) (of_Z a) = S754_infinity false.
Proof.
  intros Ha Hb.
  destruct (Z.eq_dec a 1) as [-> | Hne].
  - change (of_Z 1) with one. apply Pow_one.
  - destruct (of_Z_tests a ltac:(lia) Hb)
      as (T1 & T2 & T3 & T4 & T5 & T6 & T7 & T8).
    unfold math.Pow, math.pow_body.
    rewrite T1, T2, T3, T4, T7, T8. reflexivity.
Qed.

End PowAtInteger.

Lemma nloop_inv (i : positive) :
  forall A X R,
  normal (fst A) -> normal (fst X) -> -52 <= snd A -> -52 <= snd X ->
  nloop i A X = Some R -> normal (fst R) /\ -52 <= snd R.
Proof.
  induction i as [i IH | i IH |]; intros A X R HA HX HeA HeX;
    cbn [nloop]; destruct (overflows X); try discriminate;
    pose proof (nmul_exp A X HA HX) as HAX;
    pose proof (nmul_exp X X HX HX) as HXX;
    pose proof (nmul_normal A X HA HX) as HnAX;
    pose proof (nmul_normal X X HX HX) as HnXX.
  - apply IH; try assumption; lia.
  - apply IH; try assumption; lia.
  - intros [= <-]. split; [assumption | lia].
Qed.

Lemma npow_inv (X : Z * Z) (a : Z) (R : Z * Z) :
  normal (fst X) -> -52 <= snd X ->
  npow X a = Some R -> normal (fst R) /\ -52 <= snd R.
Proof.
  intros HX HeX. unfold npow. destruct (2 ^ 63 <=? ipart a); [discriminate |].
  apply nloop_inv; try assumption; try apply n_one_normal.
Qed.

Lemma npow_mono (X : Z * Z) (a a' : Z) :
  normal (fst X) -> nleb X n_one = false ->
  1 <= a -> a <= a' ->
  ole (npow X a) (npow X a').
Proof.
  intros HX Hgt Ha Haa'.
  destruct (gt_n_one X HX Hgt) as (HX52 & HleX & HneX).
  apply nleb_spec in HleX.
  pose proof (ipart_mono a a' ltac:(lia) Haa') as Hip.
  pose proof (ipart_pos a ltac:(lia)) as Hpa.
  unfold npow.
  destruct (Z.leb_spec (2 ^ 63) (ipart a'));  [exact I |].
  destruct (Z.leb_spec (2 ^ 63) (ipart a)); [lia |].
  apply nloop_le; try assumption.
  lia.
Qed.

(** *** A valid factor above one *)
Lemma factor_gt_one (x : float64) :
  valid_binary prec emax x = true -> gtb x one = true ->
  x = S754_infinity false
  \/ exists X, x = nfloat X /\ normal (fst X) /\ nleb X n_one = false
               /\ snd X <= 971.
Proof.
  intros Hv Hgt. destruct x as [s | s | | s m e]; try discriminate.
  - destruct s; [discriminate | left; reflexivity].
  - destruct s; [discriminate |]. right. exists (Zpos m, e).
    assert (Hfl : S754_finite false m e = nfloat (Zpos m, e)) by reflexivity.
    rewrite Hfl in Hgt. unfold gtb in Hgt. fold (ltb one (nfloat (Zpos m, e))) in Hgt.
    rewrite one_nfloat, ltb_nfloat in Hgt by (cbn; lia).
    apply negb_true_iff in Hgt.
    cbn [valid_binary] in Hv. unfold bounded in Hv.
    apply andb_true_iff in Hv. destruct Hv as [Hc Hb].
    apply Z.leb_le in Hb. change (emax - prec) with 971 in Hb.
    unfold canonical_mantissa in Hc. apply Z.eqb_eq in Hc.
    rewrite digits2_pos_log2 in Hc.
    assert (He : -52 <= e).
    { unfold nleb, n_one in Hgt. cbn [fst snd] in Hgt.
      apply orb_false_iff in Hgt. destruct Hgt as [H1 _].
      apply Z.ltb_ge in H1. exact H1. }
    pose proof (digits_pos (Zpos m) ltac:(lia)) as Hdp.
    rewrite fexp_normal in Hc by lia.
    pose proof (digits_spec (Zpos m) ltac:(lia)) as Hs.
    replace (digits (Zpos m)) with 53 in Hs by lia.
    split; [exact Hfl |]. split; [exact Hs |]. split; [exact Hgt |].
    exact Hb.
Qed.

(** *** The duration on pairs *)
Lemma maxInt64_nfloat : Backoff.maxInt64 = nfloat n_guard.
Proof. reflexivity. Qed.

Lemma n_guard_normal : normal (fst n_guard).
Proof. unfold normal, n_guard. cbn [fst]. lia. Qed.

Lemma ival_nonneg (Q : Z * Z) : 0 < fst Q -> 0 <= ival Q.
Proof.
  intros HQ. unfold ival. destruct (Z.leb_spec 0 (snd Q)).
  - pose proof (pow2_pos (snd Q) ltac:(lia)). nia.
  - apply Z.div_pos; [lia | apply pow2_pos; lia].
Qed.

Lemma to_Duration_nfloat (convert_invalid : float64 -> Z) (Q : Z * Z) :
  normal (fst Q) -> nleb Q n_guard = true ->
  Backoff.to_Duration convert_invalid (nfloat Q) = ival Q.
Proof.
  intros HQ Hle. apply nleb_spec in Hle.
  pose proof (normal_pos _ HQ) as Hpos.
  pose proof (ival_nonneg Q Hpos) as H0.
  assert (Hhi : ival Q <= ival n_guard).
  { destruct Q as [m e]. apply ival_mono; try assumption. apply n_guard_normal. }
  change (ival n_guard) with (2 ^ 63 - 1024) in Hhi.
  unfold Backoff.to_Duration. rewrite trunc_nfloat by exact Hpos.
  unfold math.MinInt64, math.MaxInt64.
  destruct (Z.leb_spec (- 2 ^ 63) (ival Q)); [| lia].
  destruct (Z.leb_spec (ival Q) (2 ^ 63 - 1)); [| lia].
  reflexivity.
Qed.

Lemma clamp_mono (x y lo hi : Z) :
  lo <= hi -> x <= y -> Spec.clamp x lo hi <= Spec.clamp y lo hi.
Proof.
  intros Hlh Hxy. unfold Spec.clamp. zbool; lia.
Qed.

Lemma clamp_range (x lo hi : Z) :
  lo <= hi -> lo <= Spec.clamp x lo hi <= hi.
Proof. intros Hlh. unfold Spec.clamp. zbool; lia. Qed.

Lemma nduration_mono (Min Max : Z) (M : Z * Z) (o o' : option (Z * Z)) :
  Min <= Max -> normal (fst M) ->
  (forall R, o = Some R -> normal (fst R)) ->
  (forall R, o' = Some R -> normal (fst R)) ->
  ole o o' ->
  nduration Min Max M o <= nduration Min Max M o'.
Proof.
  intros Hmm HM Hn Hn' Hle.
  assert (Hub : forall q, nduration Min Max M q <= Max).
  { intros [R |]; cbn [nduration]; [| lia].
    destruct (_ && _); [apply clamp_range; exact Hmm | lia]. }
  destruct o' as [R' |]; [| apply Hub].
  destruct o as [R |]; [| destruct Hle].
  cbn [ole] in Hle. cbn [nduration].
  specialize (Hn R eq_refl). specialize (Hn' R' eq_refl).
  pose proof (nmul_mono_r M R R' HM Hn Hn' Hle) as HQ.
  pose proof (nmul_normal M R HM Hn) as HnQ.
  pose proof (nmul_normal M R' HM Hn') as HnQ'.
  destruct ((snd R' <=? 971) && (snd (nmul M R') <=? 971)
            && nleb (nmul M R') n_guard) eqn:Hc'.
  - apply andb_true_iff in Hc'. destruct Hc' as [Hc' HG'].
    apply andb_true_iff in Hc'. destruct Hc' as [HR' HQ'].
    apply Z.leb_le in HR', HQ'. apply nleb_spec in HG'.
    assert (HR : snd R <= 971) by (unfold nle in Hle; lia).
    assert (HQle : snd (nmul M R) <= 971) by (unfold nle in HQ; lia).
    assert (HG : nle (nmul M R) n_guard) by (eapply nle_trans; eassumption).
    apply nleb_spec in HG. apply Z.leb_le in HR, HQle.
    rewrite HR, HQle, HG. cbn [andb].
    apply clamp_mono; [exact Hmm |].
    destruct (nmul M R) as [q e], (nmul M R') as [q' e'].
    apply ival_mono; assumption.
  - apply (Hub (Some R)).
Qed.

Section DurationPairs.

Variable convert_invalid : float64 -> Z.
Variables Exp Log : float64 -> float64.

Lemma duration_inf_product {T} (b : Backoff.t T) (a : Z) (M : Z * Z) :
  a <> 0 ->
  of_Z (Backoff.Min b) = nfloat M ->
  math.Pow Exp Log (Backoff.Factor b) (of_Z a) = S754_infinity false ->
  Backoff.duration convert_invalid Exp Log b a = Backoff.Max b.
Proof.
  intros Ha HM HP. unfold Backoff.duration.
  destruct (Z.eqb_spec a 0); [lia |].
  rewrite HP, HM. reflexivity.
Qed.

Lemma duration_nduration {T} (b : Backoff.t T) (X : Z * Z) (a : Z) :
  0 < Backoff.Min b -> Backoff.Min b < 2 ^ 63 ->
  Backoff.Factor b = nfloat X ->
  normal (fst X) -> nleb X n_one = false -> snd X <= 971 ->
  1 <= a -> a < 2 ^ 64 ->
  Backoff.duration convert_invalid Exp Log b a
  = nduration (Backoff.Min b) (Backoff.Max b) (norm (Backoff.Min b) 0) (npow X a).
Proof.
  intros Hmin Hmin63 HF HX Hgt HeX Ha Hb.
  destruct (gt_n_one X HX Hgt) as (HX52 & _ & _).
  pose proof (of_Z_nfloat (Backoff.Min b) Hmin ltac:(lia)) as HM.
  pose proof (norm_range (Backoff.Min b) 0 Hmin) as HnM.
  pose proof (norm_int_exp (Backoff.Min b) Hmin) as HeM.
  pose proof (digits_pos (Backoff.Min b) Hmin) as HdM.
  set (M := norm (Backoff.Min b) 0) in *.
  pose proof (Pow_nfloat Exp Log X a HX Hgt HeX Ha Hb) as HP.
  rewrite <- HF in HP.
  destruct (npow X a) as [R |] eqn:Ho; cbn [ofloat nduration] in *.
  2:{ apply duration_inf_product with (M := M); try assumption. lia. }
  destruct (npow_inv X a R HX HX52 Ho) as [HnR HeR].
  destruct (Z.leb_spec (snd R) 971) as [HR | HR]; cbn [andb].
  2:{ rewrite to_float_inf in HP by exact HR.
      apply duration_inf_product with (M := M); try assumption. lia. }
  rewrite to_float_finite in HP by exact HR.
  unfold Backoff.duration.
  destruct (Z.eqb_spec a 0); [lia |].
  rewrite HP, HM. rewrite mul_normal by (try assumption; lia).
  pose proof (nmul_normal M R HnM HnR) as HnQ.
  destruct (Z.leb_spec (snd (nmul M R)) 971) as [HQ | HQ]; cbn [andb].
  2:{ rewrite to_float_inf by exact HQ. reflexivity. }
  rewrite to_float_finite by exact HQ.
  unfold gtb. fold (ltb Backoff.maxInt64 (nfloat (nmul M R))).
  rewrite maxInt64_nfloat, ltb_nfloat
    by (first [apply normal_pos; assumption | cbn; lia]).
  destruct (nleb (nmul M R) n_guard) eqn:HG; cbn [negb].
  - rewrite to_Duration_nfloat by assumption.
    unfold Spec.clamp. rewrite Z.gtb_ltb. reflexivity.
  - reflexivity.
Qed.

End DurationPairs.

Lemma ofloat_cases (o : option (Z * Z)) :
  (exists R, o = Some R /\ snd R <= 971 /\ ofloat o = nfloat R)
  \/ ofloat o = S754_infinity false.
Proof.
  destruct o as [R |]; [| right; reflexivity].
  destruct (Z.le_gt_cases (snd R) 971) as [H | H].
  - left. exists R. repeat split; try assumption.
    cbn [ofloat]. apply to_float_finite. exact H.
  - right. cbn [ofloat]. apply to_float_inf. exact H.
Qed.

Lemma ofloat_inf_mono (o o' : option (Z * Z)) :
  ole o o' -> ofloat o = S754_infinity false -> ofloat o' = S754_infinity false.
Proof.
  intros Hle Hinf. destruct o' as [R' |]; [| reflexivity].
  destruct o as [R |]; [| destruct Hle]. cbn [ole ofloat] in *.
  destruct (Z.le_gt_cases (snd R) 971) as [H | H].
  - rewrite to_float_finite in Hinf by exact H. discriminate.
  - apply to_float_inf. unfold nle in Hle. lia.
Qed.

Section DurationOrder.

Variable convert_invalid : float64 -> Z.
Variables Exp Log : float64 -> float64.

Lemma duration_range {T} (b : Backoff.t T) (attempt : Z) :
  1 <= attempt ->
  Backoff.Min b <= Backoff.Max b ->
  Backoff.Min b <= Backoff.duration convert_invalid Exp Log b attempt <= Backoff.Max b.
Proof.
  intros Ha Hmm. unfold Backoff.duration.
  destruct (Z.eqb_spec attempt 0) as [E|_]; [lia |].
  destruct (gtb _ Backoff.maxInt64); [lia |].
  rewrite Z.gtb_ltb. zbool; lia.
Qed.

Lemma duration_same_power {T} (b : Backoff.t T) (a a' : Z) :
  a <> 0 -> a' <> 0 ->
  math.Pow Exp Log (Backoff.Factor b) (of_Z a)
  = math.Pow Exp Log (Backoff.Factor b) (of_Z a') ->
  Backoff.duration convert_invalid Exp Log b a = Backoff.duration convert_invalid Exp Log b a'.
Proof.
  intros Ha Ha' HP. unfold Backoff.duration.
  destruct (Z.eqb_spec a 0); [lia |]. destruct (Z.eqb_spec a' 0); [lia |].
  rewrite HP. reflexivity.
Qed.

Lemma duration_zero_Min {T} (b : Backoff.t T) (a : Z) (R : Z * Z) :
  a <> 0 -> Backoff.Min b = 0 -> 0 <= Backoff.Max b ->
  math.Pow Exp Log (Backoff.Factor b) (of_Z a) = nfloat R ->
  Backoff.duration convert_invalid Exp Log b a = 0.
Proof.
  intros Ha HM Hmax HP. unfold Backoff.duration.
  destruct (Z.eqb_spec a 0); [lia |].
  rewrite HP, HM. change (mul (of_Z 0) (nfloat R)) with (S754_zero false).
  change (gtb (S754_zero false) Backoff.maxInt64) with false.
  change (Backoff.to_Duration convert_invalid (S754_zero false)) with 0.
  cbv iota. rewrite Z.gtb_ltb. zbool; lia.
Qed.



End DurationOrder.

(** *** The overflow guard, exactly *)
Lemma fexp_subnormal (x : Z) : x <= -1021 -> fexp prec emax x = -1074.
Proof. intros Hx. unfold fexp, emin, prec, emax. lia. Qed.

Lemma shr_fexp_subnormal (M E : Z) :
  0 < M -> 53 <= digits M -> digits M + E - 53 < -1074 ->
  let res := shr_fexp prec emax M E loc_Exact in
  round_nearest_even (shr_m (fst res)) (loc_of_shr_record (fst res))
  = rne M (-1074 - E)
  /\ snd res = -1074.
Proof.
  intros HM Hd He. cbv zeta. unfold shr_fexp.
  rewrite Zdigits2_digits by exact HM.
  rewrite fexp_subnormal by lia.
  cbn [shr_record_of_loc].
  destruct (-1074 - E) as [| p | p] eqn:Hn; try lia.
  cbn [shr fst snd]. split; [| lia].
  apply round_shr. lia.
Qed.

Lemma binary_round_aux_subnormal (sx : bool) (M : positive) (E : Z) :
  53 <= digits (Zpos M) ->
  digits (Zpos M) + E - 53 < -1074 ->
  binary_round_aux prec emax sx (Zpos M) E loc_Exact
  = match rne (Zpos M) (-1074 - E) with
    | Z0 => S754_zero sx
    | Zpos p => S754_finite sx p (-1074)
    | Zneg _ => S754_nan
    end
  /\ 0 <= rne (Zpos M) (-1074 - E) <= 2 ^ 52.
Proof.
  intros H53 He.
  pose proof (digits_spec (Zpos M) ltac:(lia)) as Hd.
  assert (Hn : 0 < -1074 - E) by lia.
  assert (Hr : 0 <= rne (Zpos M) (-1074 - E) <= 2 ^ 52).
  { pose proof (rne_between (Zpos M) (-1074 - E) Hn) as Hb.
    pose proof (pow2_pos (-1074 - E) ltac:(lia)) as Hp.
    assert (Hq0 : 0 <= Zpos M / 2 ^ (-1074 - E)) by (apply Z.div_pos; lia).
    assert (Hq : Zpos M / 2 ^ (-1074 - E) < 2 ^ 52).
    { apply Z.div_lt_upper_bound; [lia |].
      assert (H1 : 2 ^ digits (Zpos M) <= 2 ^ (-1074 - E + 52)).
      { apply Z.pow_le_mono_r; lia. }
      rewrite Z.pow_add_r in H1 by lia. lia. }
    lia. }
  split; [| exact Hr].
  unfold binary_round_aux.
  destruct (shr_fexp_subnormal (Zpos M) E ltac:(lia) H53 He) as [Hrd Hs].
  destruct (shr_fexp prec emax (Zpos M) E loc_Exact) as [mrs' e'].
  cbn [fst snd] in Hrd, Hs. rewrite Hrd. subst e'.
  destruct (rne (Zpos M) (-1074 - E)) as [| q | q] eqn:Hq.
  - reflexivity.
  - unfold shr_fexp. rewrite Zdigits2_digits by lia.
    assert (Hdq : digits (Zpos q) <= 53).
    { apply digits_lt_pow2; lia. }
    pose proof (digits_pos (Zpos q) ltac:(lia)).
    rewrite fexp_subnormal by lia.
    cbn [shr_record_of_loc shr shr_m loc_of_shr_record round_nearest_even
         Z.sub Z.opp Z.add Z.pos_sub].
    reflexivity.
  - lia.
Qed.

Lemma shaped_to_float (s : bool) (m e : Z) :
  normal m -> shaped (to_float s (m, e)).
Proof.
  intros Hm. unfold to_float. cbn [fst snd].
  destruct (e <=? emax - prec); [| exact I].
  destruct s; [exact I |]. cbn [shaped].
  rewrite to_pos_id by (apply normal_pos; exact Hm).
  unfold normal in Hm. lia.
Qed.

Lemma shaped_round_aux (s : bool) (M : positive) (E : Z) :
  53 <= digits (Zpos M) ->
  shaped (binary_round_aux prec emax s (Zpos M) E loc_Exact).
Proof.
  intros Hd.
  destruct (Z.le_gt_cases (-1074) (digits (Zpos M) + E - 53)) as [H | H].
  - rewrite binary_round_aux_norm by assumption.
    pose proof (norm_range (Zpos M) E ltac:(lia)) as Hn.
    destruct (norm (Zpos M) E) as [m e]. apply shaped_to_float. exact Hn.
  - destruct (binary_round_aux_subnormal s M E Hd ltac:(lia)) as [Heq Hr].
    rewrite Heq.
    destruct (rne (Zpos M) (-1074 - E)) as [| p | p]; try exact I.
    destruct s; [exact I |]. cbn [shaped]. lia.
Qed.

Lemma shaped_of_Z_mul (z : Z) (f : float64) : shaped (mul (of_Z z) f).
Proof.
  destruct z as [| p | p].
  - destruct f as [s | s | | s m e]; try destruct s; exact I.
  - unfold of_Z. cbn [binary_normalize].
    pose proof (digits_pos (Zpos p) ltac:(lia)) as Hdp.
    rewrite binary_round_norm by lia.
    pose proof (norm_range (Zpos p) 0 ltac:(lia)) as Hn.
    destruct (norm (Zpos p) 0) as [m e]. cbn [fst] in Hn.
    unfold to_float. cbn [fst snd].
    destruct (e <=? emax - prec).
    + destruct f as [s | s | | s my ey]; try destruct s; try exact I;
        unfold mul; cbn [SFmul xorb]; apply shaped_round_aux;
        rewrite Pos2Z.inj_mul, to_pos_id by (apply normal_pos; exact Hn);
        unfold normal in Hn;
        (assert (Hd : 52 <= Z.log2 (m * Zpos my))
           by (apply Z.log2_le_pow2; nia));
        unfold digits; lia.
    + destruct f as [s | s | | s my ey]; try destruct s; exact I.
  - unfold of_Z. cbn [binary_normalize].
    pose proof (digits_pos (Zpos p) ltac:(lia)) as Hdp.
    rewrite binary_round_norm by lia.
    pose proof (norm_range (Zpos p) 0 ltac:(lia)) as Hn.
    destruct (norm (Zpos p) 0) as [m e]. cbn [fst] in Hn.
    unfold to_float. cbn [fst snd].
    destruct (e <=? emax - prec).
    + destruct f as [s | s | | s my ey]; try destruct s; try exact I;
        unfold mul; cbn [SFmul xorb]; apply shaped_round_aux;
        rewrite Pos2Z.inj_mul, to_pos_id by (apply normal_pos; exact Hn);
        unfold normal in Hn;
        (assert (Hd : 52 <= Z.log2 (m * Zpos my))
           by (apply Z.log2_le_pow2; nia));
        unfold digits; lia.
    + destruct f as [s | s | | s my ey]; try destruct s; exact I.
Qed.

Lemma gtb_guard_exact (f : float64) :
  shaped f ->
  gtb f Backoff.maxInt64 = Spec.exceeds f (math.MaxInt64 - Spec.safety_margin).
Proof.
  intros Hf.
  change (math.MaxInt64 - Spec.safety_margin) with (2 ^ 63 - 513).
  destruct f as [s | s | | s m e]; try (destruct s; reflexivity).
  - reflexivity.
  - destruct s.
    + (* negative *)
      cbn [Spec.exceeds cond_Zopp].
      replace (gtb (S754_finite true m e) Backoff.maxInt64) with false
        by reflexivity.
      symmetry. destruct (Z.leb_spec 0 e).
      * apply Z.ltb_ge. pose proof (pow2_pos e ltac:(lia)). nia.
      * apply Z.ltb_ge. pose proof (pow2_pos (- e) ltac:(lia)). nia.
    + cbn [shaped] in Hf. destruct Hf as [Hlt Hge].
      change (S754_finite false m e) with (nfloat (Zpos m, e)).
      unfold gtb. fold (ltb Backoff.maxInt64 (nfloat (Zpos m, e))).
      rewrite maxInt64_nfloat, ltb_nfloat by (cbn; lia).
      unfold nleb, n_guard, nfloat, Spec.exceeds. cbn [fst snd cond_Zopp Z.to_pos].
      destruct (Z.leb_spec 0 e) as [He | He].
      * destruct (Z.ltb_spec e 10) as [H10 | H10]; cbn [orb negb].
        -- symmetry. apply Z.ltb_ge.
           assert (H2 : 2 ^ e <= 2 ^ 9) by (apply Z.pow_le_mono_r; lia).
           pose proof (pow2_pos e He). nia.
        -- destruct (Z.eqb_spec e 10) as [E10 | E10]; cbn [andb].
           ++ subst e. destruct (Z.leb_spec (Zpos m) (2 ^ 53 - 1)); [| lia].
              cbn [negb]. symmetry. apply Z.ltb_ge. lia.
           ++ cbn [negb]. symmetry. apply Z.ltb_lt.
              specialize (Hge ltac:(lia)).
              assert (H2 : 2 ^ 11 <= 2 ^ e) by (apply Z.pow_le_mono_r; lia).
              nia.
      * destruct (Z.ltb_spec e 10); [| lia]. cbn [orb negb].
        symmetry. apply Z.ltb_ge.
        assert (H2 : 2 ^ 1 <= 2 ^ (- e)) by (apply Z.pow_le_mono_r; lia).
        change (2 ^ 1) with 2 in H2. nia.
Qed.

(** *** [math.Exp] and [math.Log] are never reached *)
Section Libm.

Variables Exp Log Exp' Log' : float64 -> float64.

Lemma pow_general_integral (x y yi : float64) :
  math.Modf (math.Abs y) = (yi, S754_zero false) ->
  math.pow_general Exp Log x y = math.pow_general Exp' Log' x y.
Proof.
  intros HM. unfold math.pow_general. rewrite HM.
  change (neqb (S754_zero false) zero) with false. reflexivity.
Qed.

Lemma pow_body_integral (self self' : float64 -> float64 -> float64)
    (x y yi : float64) :
  math.Modf (math.Abs y) = (yi, S754_zero false) ->
  self (div one x) (neg y) = self' (div one x) (neg y) ->
  math.pow_body Exp Log self x y = math.pow_body Exp' Log' self' x y.
Proof.
  intros HM Hself. unfold math.pow_body.
  rewrite (pow_general_integral x y yi HM), Hself. reflexivity.
Qed.

Lemma Pow_libm_irrelevant (x : float64) (a : Z) :
  1 <= a -> a < 2 ^ 64 ->
  math.Pow Exp Log x (of_Z a) = math.Pow Exp' Log' x (of_Z a).
Proof.
  intros Ha Hb.
  assert (Habs : math.Abs (of_Z a) = of_Z a)
    by (rewrite of_Z_nfloat by lia; reflexivity).
  assert (Habs' : math.Abs (neg (of_Z a)) = of_Z a)
    by (rewrite of_Z_nfloat by lia; reflexivity).
  pose proof (Modf_int a ltac:(lia) Hb) as HM.
  unfold math.Pow.
  apply pow_body_integral with (yi := of_Z a).
  - rewrite Habs. exact HM.
  - apply pow_body_integral with (yi := of_Z a).
    + rewrite Habs'. exact HM.
    + reflexivity.
Qed.

End Libm.

(** *** Powers of two *)

Lemma nmul_pow2 (e1 e2 : Z) :
  nmul (2 ^ 52, e1) (2 ^ 52, e2) = (2 ^ 52, e1 + e2 + 52).
Proof.
  replace e1 with (0 + e1) at 1 by lia.
  replace e2 with (0 + e2) at 1 by lia.
  rewrite nmul_shift.
  change (nmul (2 ^ 52, 0) (2 ^ 52, 0)) with (2 ^ 52, 52).
  cbn [fst snd]. f_equal. lia.
Qed.

Lemma size_digits (i : positive) : Zpos (Pos.size i) = digits (Zpos i).
Proof. rewrite <- digits2_pos_size. apply digits2_pos_log2. Qed.

(** The loop of [pow] on a power of two multiplies nothing but exponents:
    it yields [2^(i*x)], or overflows when the squared base leaves the
    range the loop allows. *)
Lemma nloop_pow2 (i : positive) :
  forall ae x, 1 <= x ->
  nloop i (2 ^ 52, ae) (2 ^ 52, x - 52)
  = if x * 2 ^ (Zpos (Pos.size i) - 1) <=? 4095
    then Some (2 ^ 52, ae + Zpos i * x) else None.
Proof.
  induction i as [i IH | i IH |]; intros ae x Hx; cbn [nloop];
    unfold overflows; cbn [snd];
    change (2 ^ 12) with 4096.
  - rewrite !nmul_pow2.
    cbn [Pos.size]. rewrite Pos2Z.inj_succ.
    replace (Z.succ (Zpos (Pos.size i)) - 1) with (Zpos (Pos.size i) - 1 + 1)
      by lia.
    rewrite pow2_succ by lia.
    pose proof (pow2_pos (Zpos (Pos.size i) - 1) ltac:(lia)) as Hp.
    destruct (Z.ltb_spec 4096 (x - 52 + 53)) as [Ho | Ho].
    + destruct (Z.leb_spec (x * (2 * 2 ^ (Zpos (Pos.size i) - 1))) 4095);
        [nia | reflexivity].
    + replace (x - 52 + (x - 52) + 52) with (2 * x - 52) by lia.
      rewrite IH by lia.
      replace (2 * x * 2 ^ (Zpos (Pos.size i) - 1))
        with (x * (2 * 2 ^ (Zpos (Pos.size i) - 1))) by lia.
      destruct (Z.leb_spec (x * (2 * 2 ^ (Zpos (Pos.size i) - 1))) 4095);
        [| reflexivity].
      do 2 f_equal. lia.
  - rewrite !nmul_pow2.
    cbn [Pos.size]. rewrite Pos2Z.inj_succ.
    replace (Z.succ (Zpos (Pos.size i)) - 1) with (Zpos (Pos.size i) - 1 + 1)
      by lia.
    rewrite pow2_succ by lia.
    pose proof (pow2_pos (Zpos (Pos.size i) - 1) ltac:(lia)) as Hp.
    destruct (Z.ltb_spec 4096 (x - 52 + 53)) as [Ho | Ho].
    + destruct (Z.leb_spec (x * (2 * 2 ^ (Zpos (Pos.size i) - 1))) 4095);
        [nia | reflexivity].
    + replace (x - 52 + (x - 52) + 52) with (2 * x - 52) by lia.
      rewrite IH by lia.
      replace (2 * x * 2 ^ (Zpos (Pos.size i) - 1))
        with (x * (2 * 2 ^ (Zpos (Pos.size i) - 1))) by lia.
      destruct (Z.leb_spec (x * (2 * 2 ^ (Zpos (Pos.size i) - 1))) 4095);
        [| reflexivity].
      do 2 f_equal. lia.
  - rewrite nmul_pow2. cbn [Pos.size].
    change (2 ^ (1 - 1)) with 1.
    destruct (Z.ltb_spec 4096 (x - 52 + 53)) as [Ho | Ho];
      destruct (Z.leb_spec (x * 1) 4095); try lia; [reflexivity |].
    do 2 f_equal. lia.
Qed.

(** [Pow(2, a)] on pairs: [2^a] up to the exponent at which the loop of
    [pow] gives up, an overflow beyond. *)
Lemma npow_two (a : Z) :
  1 <= a ->
  npow n_two a = if a <=? 4095 then Some (2 ^ 52, a - 52) else None.
Proof.
  intros Ha. unfold npow, n_two.
  destruct (Z.leb_spec a 4095) as [Hs | Hb].
  - assert (Hd : digits a <= 53).
    { apply digits_lt_pow2; [lia |]. change (2 ^ 53) with 9007199254740992. lia. }
    rewrite ipart_small by (try assumption; lia).
    destruct (Z.leb_spec (2 ^ 63) a) as [H63 | _];
      [change (2 ^ 63) with 9223372036854775808 in H63; lia |].
    change n_one with (2 ^ 52, -52).
    change (-51) with (1 - 52).
    rewrite nloop_pow2 by lia.
    assert (Hsz : Zpos (Pos.size (Z.to_pos a)) <= 12).
    { apply size_lt_pow2. rewrite Z2Pos.id by lia.
      change (2 ^ 12) with 4096. lia. }
    assert (Hsz0 : 0 < Zpos (Pos.size (Z.to_pos a))) by lia.
    assert (Hp : 2 ^ (Zpos (Pos.size (Z.to_pos a)) - 1) <= 2 ^ 11)
      by (apply Z.pow_le_mono_r; lia).
    change (2 ^ 11) with 2048 in Hp.
    destruct (Z.leb_spec (1 * 2 ^ (Zpos (Pos.size (Z.to_pos a)) - 1)) 4095);
      [| lia].
    rewrite Z2Pos.id by lia. do 2 f_equal. lia.
  - destruct (Z.leb_spec (2 ^ 63) (ipart a)) as [_ | H63]; [reflexivity |].
    assert (Hi : 4096 <= ipart a).
    { assert (H4 : ipart 4096 = 4096) by reflexivity.
      rewrite <- H4. apply ipart_mono; lia. }
    change n_one with (2 ^ 52, -52).
    change (-51) with (1 - 52).
    rewrite nloop_pow2 by lia.
    rewrite size_digits, Z2Pos.id by lia.
    pose proof (digits_spec (ipart a) ltac:(lia)) as [_ Hlt].
    assert (Hd : 13 <= digits (ipart a)).
    { destruct (Z.le_gt_cases 13 (digits (ipart a))) as [|Hc]; [assumption |].
      pose proof (digits_pos (ipart a) ltac:(lia)).
      assert (2 ^ digits (ipart a) <= 2 ^ 12)
        by (apply Z.pow_le_mono_r; lia).
      change (2 ^ 12) with 4096 in *. lia. }
    assert (Hp : 2 ^ 12 <= 2 ^ (digits (ipart a) - 1))
      by (apply Z.pow_le_mono_r; lia).
    change (2 ^ 12) with 4096 in Hp.
    destruct (Z.leb_spec (1 * 2 ^ (digits (ipart a) - 1)) 4095);
      [lia | reflexivity].
Qed.

Lemma two_nfloat : two = nfloat n_two.
Proof. reflexivity. Qed.

Lemma n_two_normal : normal (fst n_two).
Proof. unfold normal, n_two. cbn [fst]. lia. Qed.

(** A duration of at most 53 binary digits times a power of two. *)
Lemma nmul_small_pow2 (z k : Z) :
  0 < z -> digits z <= 53 ->
  nmul (norm z 0) (2 ^ 52, k - 52)
  = (z * 2 ^ (53 - digits z), digits z - 53 + k).
Proof.
  intros Hz Hd. rewrite norm_int_small by assumption.
  assert (Hn : normal (z * 2 ^ (53 - digits z))).
  { pose proof (norm_range z 0 Hz) as Hn.
    rewrite norm_int_small in Hn by assumption. exact Hn. }
  replace (digits z - 53) with (digits z - 53 + 0) at 1 by lia.
  replace (k - 52) with (-52 + k) by lia.
  rewrite nmul_shift, nmul_one_r by exact Hn.
  cbn [fst snd]. f_equal; lia.
Qed.

Lemma ival_small_pow2 (z k : Z) :
  0 < z -> digits z <= 53 -> 0 <= k ->
  ival (z * 2 ^ (53 - digits z), digits z - 53 + k) = z * 2 ^ k.
Proof.
  intros Hz Hd Hk. unfold ival. cbn [fst snd].
  pose proof (digits_pos z Hz) as Hp.
  destruct (Z.leb_spec 0 (digits z - 53 + k)) as [H | H].
  - rewrite <- Z.mul_assoc, <- Z.pow_add_r by lia.
    do 2 f_equal. lia.
  - replace (53 - digits z) with (k + (53 - digits z - k)) by lia.
    rewrite Z.pow_add_r by lia.
    replace (- (digits z - 53 + k)) with (53 - digits z - k) by lia.
    rewrite !Z.mul_assoc. apply Z.div_mul.
    pose proof (pow2_pos (53 - digits z - k) ltac:(lia)). lia.
Qed.

(** *** Factors above the guard *)

Lemma factor_gt_guard (x : float64) :
  valid_binary prec emax x = true -> gtb x Backoff.maxInt64 = true ->
  x = S754_infinity false
  \/ exists X, x = nfloat X /\ normal (fst X) /\ nleb X n_guard = false
               /\ snd X <= 971.
Proof.
  intros Hv Hgt. destruct x as [s | s | | s m e]; try discriminate.
  - destruct s; [discriminate | left; reflexivity].
  - destruct s; [discriminate |]. right. exists (Zpos m, e).
    assert (Hfl : S754_finite false m e = nfloat (Zpos m, e)) by reflexivity.
    rewrite Hfl in Hgt. unfold gtb in Hgt.
    fold (ltb Backoff.maxInt64 (nfloat (Zpos m, e))) in Hgt.
    rewrite maxInt64_nfloat, ltb_nfloat in Hgt by (cbn; lia).
    apply negb_true_iff in Hgt.
    cbn [valid_binary] in Hv. unfold bounded in Hv.
    apply andb_true_iff in Hv. destruct Hv as [Hc Hb].
    apply Z.leb_le in Hb. change (emax - prec) with 971 in Hb.
    unfold canonical_mantissa in Hc. apply Z.eqb_eq in Hc.
    rewrite digits2_pos_log2 in Hc.
    assert (He : 10 <= e).
    { unfold nleb, n_guard in Hgt. cbn [fst snd] in Hgt.
      apply orb_false_iff in Hgt. destruct Hgt as [H1 _].
      apply Z.ltb_ge in H1. exact H1. }
    pose proof (digits_pos (Zpos m) ltac:(lia)) as Hdp.
    rewrite fexp_normal in Hc by lia.
    pose proof (digits_spec (Zpos m) ltac:(lia)) as Hs.
    replace (digits (Zpos m)) with 53 in Hs by lia.
    split; [exact Hfl |]. split; [exact Hs |]. split; [exact Hgt |].
    exact Hb.
Qed.

Lemma npow_first (X : Z * Z) :
  normal (fst X) -> snd X <= 971 -> npow X 1 = Some X.
Proof.
  intros HX He. unfold npow.
  change (ipart 1) with 1. change (2 ^ 63 <=? 1) with false.
  change (Z.to_pos 1) with xH. cbn [nloop]. unfold overflows.
  destruct (Z.ltb_spec (2 ^ 12) (snd X + 53)) as [H | _].
  - change (2 ^ 12) with 4096 in H. lia.
  - rewrite nmul_one_l by exact HX. reflexivity.
Qed.

Lemma nle_antisym_false (a b c : Z * Z) :
  nleb a b = false -> nle a c -> nleb c b = false.
Proof.
  intros Hab Hac. destruct (nleb c b) eqn:Hcb; [| reflexivity].
  apply nleb_spec in Hcb.
  pose proof (nle_trans _ _ _ Hac Hcb) as Hle.
  apply nleb_spec in Hle. congruence.
Qed.

(** *** Factors between zero and one *)

Lemma nle_n_one (R : Z * Z) :
  normal (fst R) -> nle R n_one ->
  snd R <= -53 \/ R = n_one.
Proof.
  destruct R as [m e]. unfold normal, nle, n_one. cbn [fst snd].
  intros Hm [Hlt | [He Hle]]; [left; lia |].
  right. f_equal; lia.
Qed.

Lemma at_most_one_one : at_most_one one.
Proof.
  right. exists n_one. split; [apply one_nfloat |].
  split; [apply n_one_normal |]. split; [apply nle_refl |].
  unfold n_one. cbn [snd]. lia.
Qed.

(** The float of a pair that need not be normal, far below one. *)
Lemma small_pair_converts (convert_invalid : float64 -> Z) (Q : Z * Z) :
  0 < fst Q -> fst Q <= 2 ^ 53 -> snd Q <= -54 ->
  gtb (nfloat Q) Backoff.maxInt64 = false
  /\ Backoff.to_Duration convert_invalid (nfloat Q) = 0.
Proof.
  intros Hp Hm He. split.
  - unfold gtb. fold (ltb Backoff.maxInt64 (nfloat Q)).
    rewrite maxInt64_nfloat, ltb_nfloat by (try exact Hp; cbn; lia).
    unfold nleb, n_guard. cbn [fst snd].
    destruct (Z.ltb_spec (snd Q) 10); [reflexivity | lia].
  - unfold Backoff.to_Duration. rewrite trunc_nfloat by exact Hp.
    assert (Hi : ival Q = 0).
    { unfold ival. destruct (Z.leb_spec 0 (snd Q)); [lia |].
      apply Z.div_small. split; [lia |].
      assert (2 ^ 54 <= 2 ^ (- snd Q)) by (apply Z.pow_le_mono_r; lia).
      change (2 ^ 53) with 9007199254740992 in Hm.
      change (2 ^ 54) with 18014398509481984 in *. lia. }
    rewrite Hi. reflexivity.
Qed.

Lemma zero_converts (convert_invalid : float64 -> Z) (s : bool) :
  gtb (S754_zero s) Backoff.maxInt64 = false
  /\ Backoff.to_Duration convert_invalid (S754_zero s) = 0.
Proof. destruct s; split; reflexivity. Qed.

(** The product of a duration with a tiny float truncates to zero. *)
Lemma mul_tiny (convert_invalid : float64 -> Z) (M : Z * Z) (r : float64) :
  normal (fst M) -> -52 <= snd M <= 0 -> tiny r ->
  gtb (mul (nfloat M) r) Backoff.maxInt64 = false
  /\ Backoff.to_Duration convert_invalid (mul (nfloat M) r) = 0.
Proof.
  intros HM He Ht. pose proof (normal_pos _ HM) as HMp.
  destruct r as [s | s | | s p e]; try contradiction.
  - apply zero_converts.
  - destruct s; [contradiction |]. destruct Ht as [-> Hp].
    unfold mul, nfloat. cbn [SFmul xorb].
    assert (HP : Zpos (Z.to_pos (fst M) * p) = fst M * Zpos p).
    { rewrite Pos2Z.inj_mul, to_pos_id by exact HMp. reflexivity. }
    assert (Hlo : 2 ^ 52 <= Zpos (Z.to_pos (fst M) * p)).
    { rewrite HP. destruct HM as [HM1 _]. nia. }
    assert (Hhi : Zpos (Z.to_pos (fst M) * p) < 2 ^ 106).
    { rewrite HP. destruct HM as [_ HM2].
      change (2 ^ 106) with (2 ^ 53 * 2 ^ 53).
      change (2 ^ 52) with 4503599627370496 in Hp.
      change (2 ^ 53) with 9007199254740992 in *. nia. }
    assert (Hd53 : 53 <= digits (Zpos (Z.to_pos (fst M) * p))).
    { change 53 with (digits (2 ^ 52)). apply digits_le; [reflexivity | exact Hlo]. }
    assert (Hd106 : digits (Zpos (Z.to_pos (fst M) * p)) <= 106)
      by (apply digits_lt_pow2; [lia | exact Hhi]).
    destruct (Z.le_gt_cases (-1074)
                (digits (Zpos (Z.to_pos (fst M) * p)) + (snd M + -1074) - 53))
      as [Hn | Hs].
    + rewrite binary_round_aux_norm by assumption.
      pose proof (norm_range (Zpos (Z.to_pos (fst M) * p)) (snd M + -1074)
                    ltac:(lia)) as Hnr.
      assert (Hex : snd (norm (Zpos (Z.to_pos (fst M) * p)) (snd M + -1074))
                    <= -54).
      { replace (snd M + -1074) with (0 + (snd M + -1074)) by lia.
        rewrite norm_shift. cbn [snd].
        pose proof (norm_int_exp (Zpos (Z.to_pos (fst M) * p)) ltac:(lia)).
        lia. }
      rewrite to_float_finite by lia.
      apply small_pair_converts; [apply normal_pos; exact Hnr | | exact Hex].
      destruct Hnr as [_ Hnr]. lia.
    + destruct (binary_round_aux_subnormal false (Z.to_pos (fst M) * p)
                  (snd M + -1074) Hd53 Hs) as [Hr Hb].
      rewrite Hr.
      destruct (rne (Zpos (Z.to_pos (fst M) * p)) (-1074 - (snd M + -1074)))
        as [| q | q] eqn:Hq; [apply zero_converts | | lia].
      change (S754_finite false q (-1074)) with (nfloat (Zpos q, -1074)).
      apply small_pair_converts; cbn [fst snd]; lia.
Qed.

(** The product of a small duration with a float between zero and one
    converts to a duration that is not above it. *)
Lemma mul_at_most_one (convert_invalid : float64 -> Z) (z : Z)
    (r : float64) :
  0 <= z -> z < 2 ^ 53 -> at_most_one r ->
  gtb (mul (of_Z z) r) Backoff.maxInt64 = false
  /\ 0 <= Backoff.to_Duration convert_invalid (mul (of_Z z) r) <= z.
Proof.
  intros Hz0 Hz Hr.
  destruct (Z.eq_dec z 0) as [-> | Hnz].
  - assert (Hzero : exists s, mul (of_Z 0) r = S754_zero s).
    { destruct Hr as [Ht | (R & -> & _)].
      - destruct r as [s | s | | s p e]; try contradiction.
        + exists (xorb false s). reflexivity.
        + exists (xorb false s). reflexivity.
      - exists false. reflexivity. }
    destruct Hzero as [s Hs]. rewrite Hs.
    destruct (zero_converts convert_invalid s) as [Hg Hc].
    rewrite Hg, Hc. split; [reflexivity | lia].
  - assert (Hd : digits z <= 53) by (apply digits_lt_pow2; lia).
    pose proof (norm_range z 0 ltac:(lia)) as HnM.
    pose proof (norm_int_exp z ltac:(lia)) as HeM.
    pose proof (digits_pos z ltac:(lia)) as Hdp.
    assert (HM : of_Z z = nfloat (norm z 0)).
    { apply of_Z_nfloat; [lia |].
      change (2 ^ 53) with 9007199254740992 in Hz.
      change (2 ^ 64) with 18446744073709551616. lia. }
    assert (HeM' : -52 <= snd (norm z 0) <= 0).
    { rewrite norm_int_small by (try assumption; lia). cbn [snd]. lia. }
    rewrite HM.
    destruct Hr as [Ht | (R & -> & HnR & HleR & HeR)].
    + destruct (mul_tiny convert_invalid (norm z 0) r HnM HeM' Ht)
        as [Hg Hc].
      rewrite Hg, Hc. split; [reflexivity | lia].
    + rewrite mul_normal by (try assumption; lia).
      pose proof (nmul_normal _ _ HnM HnR) as HnQ.
      pose proof (nmul_exp _ _ HnM HnR) as HeQ.
      assert (HR52 : snd R <= -52).
      { destruct (nle_n_one R HnR HleR) as [H | ->]; [lia |].
        unfold n_one. cbn [snd]. lia. }
      assert (HQM : nle (nmul (norm z 0) R) (norm z 0)).
      { destruct (norm z 0) as [m e] eqn:Hnorm. cbn [fst snd] in *.
        rewrite <- (nmul_one_r m e HnM) at 2.
        apply nmul_mono_r;
          first [assumption | apply n_one_normal | exact HleR]. }
      rewrite to_float_finite by lia.
      assert (HG : nleb (nmul (norm z 0) R) n_guard = true).
      { unfold nleb, n_guard. cbn [fst snd].
        destruct (Z.ltb_spec (snd (nmul (norm z 0) R)) 10);
          [reflexivity | lia]. }
      split.
      * unfold gtb. fold (ltb Backoff.maxInt64 (nfloat (nmul (norm z 0) R))).
        rewrite maxInt64_nfloat, ltb_nfloat
          by (first [apply normal_pos; assumption | cbn; lia]).
        rewrite HG. reflexivity.
      * rewrite to_Duration_nfloat by assumption.
        split; [apply ival_nonneg, normal_pos, HnQ |].
        assert (Hiz : ival (norm z 0) = z)
          by (apply (ipart_small z); [lia | exact Hd]).
        rewrite <- Hiz at 2.
        destruct (nmul (norm z 0) R) as [mq eq].
        destruct (norm z 0) as [m e].
        apply ival_mono; assumption.
Qed.

(** [Ldexp] of a number not above one by a non-positive exponent. *)
Lemma Ldexp_at_most_one (m e k : Z) :
  normal m -> nle (m, e) n_one -> k <= 0 ->
  at_most_one (math.Ldexp (nfloat (m, e)) k).
Proof.
  intros Hm Hle Hk. pose proof (normal_pos _ Hm) as Hmp.
  assert (He : e <= -52).
  { destruct (nle_n_one (m, e) Hm Hle) as [H | H]; cbn [snd] in *; [lia |].
    injection H as _ ->. lia. }
  destruct (Z.le_gt_cases (-1074) (e + k)) as [Hn | Hs].
  - right. exists (m, e + k).
    rewrite Ldexp_normal by (cbn [fst snd]; assumption).
    cbn [fst snd]. rewrite to_float_finite by (cbn [snd]; lia).
    split; [reflexivity |]. split; [exact Hm |]. split; [| exact Hn].
    unfold nle, n_one in *. cbn [fst snd] in *. lia.
  - left. unfold math.Ldexp, nfloat. cbn [SFldexp fst snd].
    unfold binary_round. rewrite digits2_pos_log2, to_pos_id by exact Hmp.
    rewrite normal_digits by exact Hm.
    rewrite fexp_subnormal by lia.
    unfold shl_align.
    destruct (-1074 - (e + k)) as [| d | d] eqn:Hd; try lia.
    assert (Hd53 : 53 <= digits (Zpos (Z.to_pos m))).
    { rewrite to_pos_id by exact Hmp. rewrite normal_digits by exact Hm. lia. }
    assert (Hlow : digits (Zpos (Z.to_pos m)) + (e + k) - 53 < -1074).
    { rewrite to_pos_id by exact Hmp. rewrite normal_digits by exact Hm. lia. }
    destruct (binary_round_aux_subnormal false (Z.to_pos m) (e + k) Hd53 Hlow)
      as [Hr Hb].
    rewrite Hr.
    destruct (rne (Zpos (Z.to_pos m)) (-1074 - (e + k))) as [| q | q];
      cbn [tiny]; [exact I | split; [reflexivity | lia] | lia].
Qed.

(** A valid factor between zero and one, and what [Frexp] makes of it
    when it is neither zero nor one. *)
Lemma factor_at_most_one (x : float64) :
  valid_binary prec emax x = true ->
  geb x zero = true -> leb x one = true ->
  at_most_one x
  /\ ((exists s, x = S754_zero s) \/ x = one
      \/ exists p e mx xe,
           x = S754_finite false p e
           /\ math.Frexp x = (nfloat (mx, -53), xe)
           /\ normal mx /\ xe <= 0
           /\ ltb x one = true).
Proof.
  intros Hv Hge Hle. destruct x as [s | s | | s p e]; try discriminate.
  - split; [left; exact I | left; exists s; reflexivity].
  - destruct s; discriminate.
  - destruct s; [discriminate |].
    cbn [valid_binary] in Hv. unfold bounded in Hv.
    apply andb_true_iff in Hv. destruct Hv as [Hc Hb].
    apply Z.leb_le in Hb. change (emax - prec) with 971 in Hb.
    unfold canonical_mantissa in Hc. apply Z.eqb_eq in Hc.
    rewrite digits2_pos_log2 in Hc.
    pose proof (digits_pos (Zpos p) ltac:(lia)) as Hdp.
    pose proof (digits_spec (Zpos p) ltac:(lia)) as Hs.
    assert (Hfl : S754_finite false p e = nfloat (Zpos p, e)) by reflexivity.
    destruct (Z.le_gt_cases (-1021) (digits (Zpos p) + e)) as [Hn | Hsub].
    + (* a normal number *)
      rewrite fexp_normal in Hc by exact Hn.
      assert (Hd : digits (Zpos p) = 53) by lia.
      rewrite Hd in Hs.
      assert (Hnp : normal (Zpos p)) by exact Hs.
      rewrite Hfl in Hle. rewrite one_nfloat, leb_nfloat in Hle by (cbn; lia).
      apply nleb_spec in Hle.
      split.
      * right. exists (Zpos p, e). cbn [fst snd].
        split; [exact Hfl |]. split; [exact Hnp |]. split; [exact Hle | lia].
      * destruct (nle_n_one (Zpos p, e) Hnp Hle) as [He | He].
        -- right. right. exists p, e, (Zpos p), (e + 53).
           split; [reflexivity |]. split.
           ++ rewrite Hfl. apply (Frexp_normal (Zpos p, e)). exact Hnp.
           ++ cbn [snd] in He. split; [exact Hnp |]. split; [lia |].
              rewrite Hfl, one_nfloat, ltb_nfloat by (cbn; lia).
              unfold nleb, n_one. cbn [fst snd].
              destruct (Z.ltb_spec (-52) e); [lia |].
              destruct (Z.eqb_spec (-52) e); [lia | reflexivity].
        -- right. left. rewrite Hfl, He. symmetry. apply one_nfloat.
    + (* a subnormal number *)
      rewrite fexp_subnormal in Hc by lia.
      assert (Hd : digits (Zpos p) <= 52) by lia.
      assert (Hp : Zpos p < 2 ^ 52).
      { destruct Hs as [_ Hs].
        assert (2 ^ digits (Zpos p) <= 2 ^ 52)
          by (apply Z.pow_le_mono_r; lia).
        lia. }
      split; [left; cbn [tiny]; split; [lia | lia] |].
      right. right.
      exists p, e, (Zpos p * 2 ^ (53 - digits (Zpos p))),
             (e + 53 - (53 - digits (Zpos p))).
      split; [reflexivity |]. split.
      * unfold math.Frexp. cbn [SFfrexp].
        rewrite digits2_pos_log2.
        destruct (Z.leb_spec prec (digits (Zpos p))) as [Hc' | _];
          [change prec with 53 in Hc'; lia |].
        change prec with 53. unfold nfloat. cbn [fst snd].
        rewrite <- (Pos2Z.id (Pos.iter xO p (Z.to_pos (53 - digits (Zpos p))))).
        rewrite iter_xO, Z2Pos.id by lia. reflexivity.
      * split.
        -- pose proof (digits_mul_pow2 (Zpos p) (53 - digits (Zpos p))
                         ltac:(lia) ltac:(lia)) as Hdm.
           pose proof (pow2_pos (53 - digits (Zpos p)) ltac:(lia)) as Hpp.
           pose proof (digits_spec (Zpos p * 2 ^ (53 - digits (Zpos p)))
                         ltac:(nia)) as Hsp.
           replace (digits (Zpos p * 2 ^ (53 - digits (Zpos p)))) with 53
             in Hsp by lia.
           exact Hsp.
        -- split; [lia |].
           rewrite Hfl, one_nfloat, ltb_nfloat by (cbn; lia).
           unfold nleb, n_one. cbn [fst snd].
           destruct (Z.ltb_spec (-52) e); [lia |].
           destruct (Z.eqb_spec (-52) e); [lia | reflexivity].
Qed.

(** The loop of [pow] on a base below one keeps the accumulator at or
    below one and its exponent at or below zero. *)
Lemma pow_loop_shrinks (i : positive) :
  forall ma ea ae mx xe,
  normal ma -> normal mx -> nle (ma, ea) n_one ->
  xe <= 0 -> ae <= 0 -> -1000 + Zpos (Pos.size i) <= ea ->
  exists m e1 ae',
    math.pow_loop i (nfloat (ma, ea)) ae (nfloat (mx, -53)) xe
    = (nfloat (m, e1), ae')
    /\ normal m /\ nle (m, e1) n_one /\ ae' <= 0.
Proof.
  assert (Hstep : forall ma ea mx,
            normal ma -> normal mx -> nle (ma, ea) n_one ->
            normal (fst (nmul (ma, ea) (mx, -53)))
            /\ nle (nmul (ma, ea) (mx, -53)) n_one
            /\ ea - 1 <= snd (nmul (ma, ea) (mx, -53))).
  { intros ma ea mx Hma Hmx Hle.
    pose proof (nmul_normal (ma, ea) (mx, -53) Hma Hmx) as Hn.
    pose proof (nmul_exp (ma, ea) (mx, -53) Hma Hmx) as He.
    cbn [fst snd] in He.
    split; [exact Hn |]. split; [| lia].
    apply nle_trans with (b := nmul n_one (mx, -53)).
    - apply nmul_mono_l;
        first [assumption | apply n_one_normal | exact Hle].
    - rewrite nmul_one_l by exact Hmx.
      left. unfold n_one. cbn [snd]. lia. }
  assert (Hsq : forall mx xe, normal mx -> xe <= 0 ->
            normal (fst (nmul (mx, -53) (mx, -53)))
            /\ 2 * xe + snd (nmul (mx, -53) (mx, -53)) + 53 <= 0).
  { intros mx xe Hmx Hxe.
    pose proof (nmul_normal (mx, -53) (mx, -53) Hmx Hmx) as Hn.
    pose proof (nmul_exp (mx, -53) (mx, -53) Hmx Hmx) as He.
    cbn [fst snd] in He. split; [exact Hn | lia]. }
  induction i as [i IH | i IH |];
    intros ma ea ae mx xe Hma Hmx Hle Hxe Hae Hea.
  - rewrite pow_loop_xI.
    destruct (loop_break xe).
    + exists ma, ea, (ae + xe). repeat split; try assumption; try apply Hma; lia.
    + assert (He52 : ea <= -52).
      { destruct (nle_n_one (ma, ea) Hma Hle) as [H | H]; cbn [snd] in *;
          [lia | injection H as _ ->; lia]. }
      cbn [Pos.size] in Hea. rewrite Pos2Z.inj_succ in Hea.
      rewrite mul_step by (try assumption; lia).
      rewrite square_nfloat by exact Hmx. cbn [fst snd].
      destruct (Hstep ma ea mx Hma Hmx Hle) as (Hn & Hl & He).
      destruct (Hsq mx xe Hmx Hxe) as (Hnx & Hxe').
      destruct (nmul (ma, ea) (mx, -53)) as [ma' ea'] eqn:HA.
      cbn [fst snd] in *.
      apply IH; try assumption; lia.
  - rewrite pow_loop_xO.
    destruct (loop_break xe).
    + exists ma, ea, (ae + xe). repeat split; try assumption; try apply Hma; lia.
    + cbn [Pos.size] in Hea. rewrite Pos2Z.inj_succ in Hea.
      rewrite square_nfloat by exact Hmx. cbn [fst snd].
      destruct (Hsq mx xe Hmx Hxe) as (Hnx & Hxe').
      apply IH; try assumption; lia.
  - rewrite pow_loop_xH.
    destruct (loop_break xe).
    + exists ma, ea, (ae + xe). repeat split; try assumption; try apply Hma; lia.
    + assert (He52 : ea <= -52).
      { destruct (nle_n_one (ma, ea) Hma Hle) as [H | H]; cbn [snd] in *;
          [lia | injection H as _ ->; lia]. }
      cbn [Pos.size] in Hea.
      rewrite mul_step by (try assumption; lia).
      destruct (Hstep ma ea mx Hma Hmx Hle) as (Hn & Hl & He).
      destruct (nmul (ma, ea) (mx, -53)) as [ma' ea'] eqn:HA.
      cbn [fst snd] in *.
      exists ma', ea', (ae + xe). repeat split; try assumption; try apply Hn; lia.
Qed.

(** *** The loop grows with the base *)

Lemma nle_snd (a b : Z * Z) : nle a b -> snd a <= snd b.
Proof. unfold nle. lia. Qed.

Lemma nmul_mono (a a' b b' : Z * Z) :
  normal (fst a) -> normal (fst a') -> normal (fst b) -> normal (fst b') ->
  nle a a' -> nle b b' -> nle (nmul a b) (nmul a' b').
Proof.
  intros Ha Ha' Hb Hb' Hle Hle'.
  apply nle_trans with (b := nmul a' b).
  - apply nmul_mono_l; assumption.
  - apply nmul_mono_r; assumption.
Qed.

Lemma nloop_mono_base (i : positive) :
  forall A A' X X',
  normal (fst A) -> normal (fst A') -> normal (fst X) -> normal (fst X') ->
  nle A A' -> nle X X' ->
  ole (nloop i A X) (nloop i A' X').
Proof.
  induction i as [i IH | i IH |];
    intros A A' X X' HA HA' HX HX' HleA HleX; cbn [nloop];
    pose proof (nle_snd _ _ HleX) as Hs;
    unfold overflows;
    (destruct (Z.ltb_spec (2 ^ 12) (snd X' + 53)) as [Ho' | Ho'];
     [destruct (if 2 ^ 12 <? snd X + 53 then None else _); exact I |]);
    (destruct (Z.ltb_spec (2 ^ 12) (snd X + 53)) as [Ho | Ho]; [lia |]).
  - apply IH; try (apply nmul_normal; assumption);
      apply nmul_mono; assumption.
  - apply IH; try assumption; try (apply nmul_normal; assumption).
    apply nmul_mono; assumption.
  - cbn [ole]. apply nmul_mono; assumption.
Qed.

Lemma npow_mono_base (X X' : Z * Z) (a : Z) :
  normal (fst X) -> normal (fst X') -> nle X X' ->
  ole (npow X a) (npow X' a).
Proof.
  intros HX HX' Hle. unfold npow.
  destruct (2 ^ 63 <=? ipart a); [exact I |].
  apply nloop_mono_base; try assumption;
    first [apply n_one_normal | apply nle_refl].
Qed.

(** A valid factor that is at least a normal number above one. *)
Lemma factor_ge (X : Z * Z) (g : float64) :
  normal (fst X) -> nleb X n_one = false ->
  valid_binary prec emax g = true -> leb (nfloat X) g = true ->
  g = S754_infinity false
  \/ exists G, g = nfloat G /\ normal (fst G) /\ nle X G
               /\ nleb G n_one = false /\ snd G <= 971.
Proof.
  intros HX Hgt Hv Hle. pose proof (normal_pos _ HX) as HXp.
  destruct (gt_n_one X HX Hgt) as (HX52 & _ & _).
  destruct g as [s | s | | s m e]; try discriminate.
  - destruct s; [discriminate | left; reflexivity].
  - destruct s; [discriminate |]. right. exists (Zpos m, e).
    assert (Hfl : S754_finite false m e = nfloat (Zpos m, e)) by reflexivity.
    rewrite Hfl in Hle. rewrite leb_nfloat in Hle by (cbn; lia).
    apply nleb_spec in Hle.
    pose proof (nle_snd _ _ Hle) as Hs. cbn [snd] in Hs.
    cbn [valid_binary] in Hv. unfold bounded in Hv.
    apply andb_true_iff in Hv. destruct Hv as [Hc Hb].
    apply Z.leb_le in Hb. change (emax - prec) with 971 in Hb.
    unfold canonical_mantissa in Hc. apply Z.eqb_eq in Hc.
    rewrite digits2_pos_log2 in Hc.
    pose proof (digits_pos (Zpos m) ltac:(lia)) as Hdp.
    rewrite fexp_normal in Hc by lia.
    pose proof (digits_spec (Zpos m) ltac:(lia)) as Hsp.
    replace (digits (Zpos m)) with 53 in Hsp by lia.
    split; [exact Hfl |]. split; [exact Hsp |]. split; [exact Hle |].
    split; [| exact Hb].
    apply (nle_antisym_false X n_one (Zpos m, e)); assumption.
Qed.

(** A power above the guard makes the product exceed it, for a [Min] of
    a nanosecond or more. *)
Lemma nduration_above_guard (Min Max : Z) (R : Z * Z) :
  1 <= Min -> normal (fst R) -> nleb R n_guard = false ->
  nduration Min Max (norm Min 0) (Some R) = Max.
Proof.
  intros Hmin HnR HG. cbn [nduration].
  pose proof (norm_range Min 0 ltac:(lia)) as HnM.
  assert (HMR : nle R (nmul (norm Min 0) R)).
  { rewrite <- (nmul_one_l R HnR) at 1.
    apply nmul_mono_l; try assumption; [exact n_one_normal |].
    change n_one with (norm 1 0). apply norm_int_mono; lia. }
  assert (Hfalse : nleb (nmul (norm Min 0) R) n_guard = false)
    by (apply (nle_antisym_false R n_guard); assumption).
  rewrite Hfalse, andb_false_r. reflexivity.
Qed.

(** ** Properties *)

Section Properties.

Variable convert_invalid : float64 -> Z.
Variables Exp Log : float64 -> float64.

Local Abbreviation duration := (Backoff.duration convert_invalid Exp Log).
Local Abbreviation Duration := (Backoff.Duration convert_invalid Exp Log).
Local Abbreviation Next := (Backoff.Next convert_invalid Exp Log).
Local Abbreviation loop := (Backoff.loop convert_invalid Exp Log).
Local Abbreviation calls := (Backoff.calls convert_invalid Exp Log).

Lemma exhausted_true {T} (b : Backoff.t T) :
  exhausted b = true <->
  Backoff.MaxAttempts b <> 0 /\ Backoff.n b >= Backoff.MaxAttempts b.
Proof.
  unfold exhausted.
  rewrite andb_true_iff, negb_true_iff, Z.eqb_neq, Z.geb_le. lia.
Qed.

Lemma exhausted_false {T} (b : Backoff.t T) :
  exhausted b = false <->
  Backoff.MaxAttempts b = 0 \/ Backoff.n b < Backoff.MaxAttempts b.
Proof.
  unfold exhausted.
  rewrite andb_false_iff, negb_false_iff, Z.eqb_eq.
  destruct (Z.geb_spec (Backoff.n b) (Backoff.MaxAttempts b));
    intuition (try discriminate; lia).
Qed.

Lemma Next_unfold {T} `{Timer T} (w : World) (b : Backoff.t T) :
  Next w b =
  if exhausted b then (false, b, [])
  else
    let d := Duration b in
    let b' := Backoff.set_n b (uint_wrap (Backoff.n b + 1)) in
    if d =? 0 then (negb (ctx_done w), b', [PollDone])
    else
      let tm := Start d (Backoff.Timer b') in
      match race w with
      | CtxDone in_flight =>
          let tm := if in_flight then tick tm else tm in
          let '(prevented, tm) := Stop tm in
          if negb prevented then
            (false, Backoff.set_Timer b' (recv tm),
             [TimerStart d; SelectWait; TimerStop; DrainC])
          else
            (false, Backoff.set_Timer b' tm,
             [TimerStart d; SelectWait; TimerStop])
      | TimerFires =>
          (true, Backoff.set_Timer b' (recv (tick tm)),
           [TimerStart d; SelectWait])
      end.
Proof. reflexivity. Qed.

Lemma Next_at_limit {T} `{Timer T} (w : World) (b : Backoff.t T) :
  exhausted b = true -> Next w b = (false, b, []).
Proof. intros Hex. rewrite Next_unfold, Hex. reflexivity. Qed.

(** Whatever [Next] meets, a controller that is not exhausted leaves it
    with the counter advanced and the configuration untouched. *)
Lemma Next_fields {T} `{Timer T} (w : World) (b : Backoff.t T) :
  exhausted b = false ->
  let b' := snd (fst (Next w b)) in
  Backoff.n b' = uint_wrap (Backoff.n b + 1)
  /\ Backoff.MaxAttempts b' = Backoff.MaxAttempts b
  /\ Backoff.Factor b' = Backoff.Factor b
  /\ Backoff.Min b' = Backoff.Min b
  /\ Backoff.Max b' = Backoff.Max b.
Proof.
  intros Hex. rewrite Next_unfold, Hex. cbv zeta.
  destruct (Duration b =? 0); [cbn; auto |].
  destruct (race w) as [|fl].
  - cbn; auto.
  - destruct (Stop _) as [p tm]. destruct p; cbn; auto.
Qed.

Lemma Next_calm {T} `{Timer T} (b : Backoff.t T) :
  exhausted b = false -> fst (fst (Next calm b)) = true.
Proof.
  intros Hex. rewrite Next_unfold, Hex. cbv zeta.
  destruct (Duration b =? 0); reflexivity.
Qed.

Lemma uint_wrap_small (z : Z) : is_uint z -> uint_wrap z = z.
Proof. intros Hz. apply Z.mod_small. exact Hz. Qed.

Lemma Next_result {T} `{Timer T} (w : World) (b : Backoff.t T) :
  Next w b = (fst (fst (Next w b)), snd (fst (Next w b)), snd (Next w b)).
Proof. destruct (Next w b) as [[r b'] tr]. reflexivity. Qed.

(** *** Exhaustion *)

(** C4.  A controller with a non-zero [MaxAttempts] whose counter has
    reached it: [Next] returns false and leaves the controller as it was --
    the counter, the configuration and the timer -- having polled nothing,
    started no timer and waited on nothing. *)
Theorem Next_exhausted_is_noop {T} `{Timer T} (w : World) (b : Backoff.t T) :
  Backoff.MaxAttempts b <> 0 ->
  Backoff.Attempt b >= Backoff.MaxAttempts b ->
  Next w b = (false, b, []).
Proof.
  intros Hmax Hn.
  assert (Hex : exhausted b = true) by (apply exhausted_true; auto).
  rewrite Next_unfold, Hex. reflexivity.
Qed.

(** *** The attempt counter *)

(** C5.  A controller that is not at its limit: [Next] advances the counter
    by one, whatever the context and the timer do -- in particular when the
    call returns false because of a cancellation.  The counter is a [uint]:
    the increment is [n++], which is [n + 1] below the top of the range. *)
Theorem Next_begins_attempt {T} `{Timer T} (w : World) (b : Backoff.t T) :
  Backoff.MaxAttempts b = 0 \/ Backoff.Attempt b < Backoff.MaxAttempts b ->
  is_uint (Backoff.Attempt b) ->
  Backoff.Attempt (snd (fst (Next w b))) = uint_wrap (Backoff.Attempt b + 1)
  /\ (Backoff.Attempt b + 1 < uint_modulus ->
      Backoff.Attempt (snd (fst (Next w b))) = Backoff.Attempt b + 1).
Proof.
  intros Hlim Hu.
  assert (Hex : exhausted b = false) by (apply exhausted_false; exact Hlim).
  destruct (Next_fields w b Hex) as [Hn _].
  unfold Backoff.Attempt in *. split; [exact Hn |].
  intros Hlt. rewrite Hn. apply uint_wrap_small. uint_lia.
Qed.

(** C6.  A controller that is not at its limit and whose duration for the
    current attempt is zero: [Next] polls [ctx.Done()] once, without
    waiting, and returns false exactly when it is closed; the timer is not
    touched. *)
Theorem Next_zero_duration {T} `{Timer T} (w : World) (b : Backoff.t T) :
  Backoff.MaxAttempts b = 0 \/ Backoff.Attempt b < Backoff.MaxAttempts b ->
  Duration b = 0 ->
  fst (fst (Next w b)) = negb (ctx_done w)
  /\ snd (Next w b) = [PollDone]
  /\ Backoff.Timer (snd (fst (Next w b))) = Backoff.Timer b.
Proof.
  intros Hlim Hd.
  assert (Hex : exhausted b = false) by (apply exhausted_false; exact Hlim).
  rewrite Next_unfold, Hex. cbv zeta. rewrite Hd.
  change (0 =? 0) with true. cbn. auto.
Qed.

(** *** The loop *)

Lemma loop_from {T} `{Timer T} (N : Z) (extra k : nat) (b : Backoff.t T) :
  N <> 0 -> is_uint N ->
  Backoff.MaxAttempts b = N ->
  Backoff.n b = N - Z.of_nat k ->
  0 <= Backoff.n b ->
  exists b',
    calls (repeat calm (S k)) b = (repeat true k ++ [false], b')
    /\ loop (S k + extra) calm b = Some (k, b')
    /\ Backoff.Attempt b' = N.
Proof.
  intros HN HuN. revert b.
  induction k as [|k IH]; intros b Hmax Hn Hpos.
  - exists b.
    assert (Hstop : Next calm b = (false, b, [])).
    { apply Next_at_limit. apply exhausted_true. lia. }
    cbn [repeat Backoff.calls Backoff.loop Nat.add app].
    rewrite Hstop. unfold Backoff.Attempt. repeat split; lia.
  - assert (Hex : exhausted b = false) by (apply exhausted_false; lia).
    pose proof (Next_calm b Hex) as Hr.
    destruct (Next_fields calm b Hex) as (Hn' & Hmax' & _).
    rewrite uint_wrap_small in Hn' by uint_lia.
    assert (Hc1 : Backoff.MaxAttempts (snd (fst (Next calm b))) = N) by lia.
    assert (Hc2 : Backoff.n (snd (fst (Next calm b))) = N - Z.of_nat k)
      by lia.
    assert (Hc3 : 0 <= Backoff.n (snd (fst (Next calm b)))) by lia.
    destruct (IH _ Hc1 Hc2 Hc3) as (b' & Hc & Hl & Ha).
    exists b'.
    change (repeat calm (S (S k))) with (calm :: repeat calm (S k)).
    change (S (S k) + extra)%nat with (S (S k + extra)).
    cbn [Backoff.calls Backoff.loop].
    rewrite (Next_result calm b), Hr, Hc, Hl.
    split; [reflexivity |]. split; [reflexivity | exact Ha].
Qed.

(** C3.  A controller fresh from [New] with [MaxAttempts = N > 0] (with the
    real timer or an injected one), driven with a context that is never
    cancelled and a timer that always fires: the calls of [Next] return
    true [N] times and then false, the loop [for b.Next(ctx) {}] runs its
    body [N] times whenever it is given at least [N + 1] calls, and
    [Attempt()] is [N] afterwards. *)
Theorem loop_runs_MaxAttempts_times {T} `{Timer T}
    (N : Z) (factor : float64) (min max : time.Duration) (tm : T)
    (extra : nat) :
  0 < N -> is_uint N ->
  exists b',
    calls (repeat calm (S (Z.to_nat N)))
          (Backoff.set_Timer (Backoff.New N factor min max) tm)
      = (repeat true (Z.to_nat N) ++ [false], b')
    /\ loop (S (Z.to_nat N) + extra) calm
            (Backoff.set_Timer (Backoff.New N factor min max) tm)
       = Some (Z.to_nat N, b')
    /\ Backoff.Attempt b' = N.
Proof.
  intros Hpos Hu.
  apply loop_from with (N := N).
  - lia.
  - exact Hu.
  - reflexivity.
  - change (0 = N - Z.of_nat (Z.to_nat N)). lia.
  - change (0 <= 0). lia.
Qed.

(** *** The budget invariant *)

Lemma exec_within_budget {T} `{Timer T} (b : Backoff.t T) (op : Op) :
  within_budget b ->
  within_budget (exec convert_invalid Exp Log b op).
Proof.
  unfold within_budget, Backoff.Attempt.
  intros (Hnz & Hu & Hn).
  destruct op as [| |w|]; cbn [exec]; auto.
  - destruct (exhausted b) eqn:Hex.
    + rewrite Next_unfold, Hex. cbn. auto.
    + destruct (Next_fields w b Hex) as (Hn' & Hmax' & _).
      apply exhausted_false in Hex.
      rewrite uint_wrap_small in Hn' by uint_lia.
      rewrite Hn', Hmax'. uint_lia.
  - cbn. uint_lia.
Qed.

(** C10.  For a controller made by [New] with a non-zero [MaxAttempts]
    (with the real timer or an injected one), [attempt <= MaxAttempts]
    holds at construction and is kept by every operation, hence after any
    sequence of operations; [Attempt], [Duration] and [Reset] never raise
    the counter. *)
Theorem attempt_within_budget {T} `{Timer T}
    (N : Z) (factor : float64) (min max : time.Duration) (tm : T) :
  N <> 0 -> is_uint N ->
  within_budget (Backoff.set_Timer (Backoff.New N factor min max) tm)
  /\ (forall (b : Backoff.t T) (op : Op),
        within_budget b ->
        within_budget (exec convert_invalid Exp Log b op)
        /\ (is_Next op = false ->
            Backoff.Attempt (exec convert_invalid Exp Log b op)
            <= Backoff.Attempt b))
  /\ (forall ops : list Op,
        within_budget
          (fold_left (exec convert_invalid Exp Log) ops
             (Backoff.set_Timer (Backoff.New N factor min max) tm))).
Proof.
  intros Hnz Hu.
  assert (H0 : within_budget
                 (Backoff.set_Timer (Backoff.New N factor min max) tm)).
  { unfold within_budget. cbn. uint_lia. }
  split; [exact H0 |]. split.
  - intros b op Hb. split; [apply exec_within_budget; exact Hb |].
    destruct op; cbn; try discriminate; intros _;
      unfold within_budget, Backoff.Attempt in *; cbn; lia.
  - intros ops. revert H0.
    generalize (Backoff.set_Timer (Backoff.New N factor min max) tm).
    induction ops as [|op ops IH]; intros b Hb; cbn [fold_left].
    + exact Hb.
    + apply IH, exec_within_budget, Hb.
Qed.

(** *** Bounds of the duration *)

(** C2, as the code has it.  When [Min <= Max], the duration of every
    attempt from the first retry on lies between [Min] and [Max], whatever
    the factor (small, huge, infinite or not a number) and whatever an
    invalid conversion yields. *)
Theorem duration_between_Min_and_Max {T} (b : Backoff.t T) (attempt : Z) :
  1 <= attempt ->
  Backoff.Min b <= Backoff.Max b ->
  Backoff.Min b <= duration b attempt <= Backoff.Max b.
Proof.
  intros Ha Hmm.
  destruct (duration_range convert_invalid Exp Log b attempt Ha Hmm)
    as [Hlo Hhi].
  split; [exact Hlo | exact Hhi].
Qed.

(** *** Growth of the duration *)

(** C7.  For a factor above one (a valid binary64 number, possibly
    infinite) and durations [0 <= Min <= Max], the duration does not
    decrease from one attempt to a later one, from the first retry on and
    over the whole [uint] range of the counter -- whatever an invalid
    conversion yields. *)
Theorem duration_monotone {T} (b : Backoff.t T) (a a' : Z) :
  valid_binary prec emax (Backoff.Factor b) = true ->
  gtb (Backoff.Factor b) one = true ->
  0 <= Backoff.Min b -> Backoff.Min b <= math.MaxInt64 ->
  Backoff.Min b <= Backoff.Max b ->
  1 <= a -> a <= a' -> is_uint a' ->
  duration b a <= duration b a'.
Proof.
  intros Hv Hgt Hmin0 Hmin63 Hmm Ha Haa' [_ Hb].
  change uint_modulus with (2 ^ 64) in Hb.
  unfold math.MaxInt64 in Hmin63.
  destruct (factor_gt_one _ Hv Hgt) as [Hinf | (X & HF & HX & HX1 & HeX)].
  - (* an infinite factor *)
    rewrite (duration_same_power convert_invalid Exp Log b a a'); [lia | lia | lia |].
    rewrite Hinf, !Pow_inf by lia. reflexivity.
  - destruct (gt_n_one X HX HX1) as (HX52 & _ & _).
    pose proof (npow_mono X a a' HX HX1 Ha Haa') as Hole.
    pose proof (Pow_nfloat Exp Log X a HX HX1 HeX Ha ltac:(lia)) as HP.
    pose proof (Pow_nfloat Exp Log X a' HX HX1 HeX ltac:(lia) Hb) as HP'.
    rewrite <- HF in HP, HP'.
    destruct (Z.eq_dec (Backoff.Min b) 0) as [Hz | Hnz].
    + (* Min = 0 *)
      destruct (ofloat_cases (npow X a)) as [(R & _ & _ & HR) | Hi].
      * rewrite HR in HP.
        rewrite (duration_zero_Min convert_invalid Exp Log b a R) by (try assumption; lia).
        pose proof (duration_range convert_invalid Exp Log b a' ltac:(lia) Hmm). lia.
      * pose proof (ofloat_inf_mono _ _ Hole Hi) as Hi'.
        rewrite (duration_same_power convert_invalid Exp Log b a a'); [lia | lia | lia |].
        rewrite HP, HP', Hi, Hi'. reflexivity.
    + (* Min > 0 *)
      rewrite (duration_nduration convert_invalid Exp Log b X a) by (try assumption; lia).
      rewrite (duration_nduration convert_invalid Exp Log b X a') by (try assumption; lia).
      apply nduration_mono; try assumption.
      * apply norm_range. lia.
      * intros R HR. apply (npow_inv X a R HX HX52 HR).
      * intros R HR. apply (npow_inv X a' R HX HX52 HR).
Qed.

(** *** The first retry *)

(** C8, as the code has it.  The delay of the first retry is the product
    [Min * Factor], computed in floating point: [Max] if it exceeds the
    overflow guard, and otherwise its integer part clamped into
    [[Min, Max]].  It is [Min] only where that clamping yields [Min]. *)
Theorem duration_first_retry {T} (b : Backoff.t T) :
  duration b 1 =
  if gtb (mul (of_Z (Backoff.Min b)) (Backoff.Factor b)) Backoff.maxInt64
  then Backoff.Max b
  else Spec.clamp
         (Backoff.to_Duration convert_invalid
            (mul (of_Z (Backoff.Min b)) (Backoff.Factor b)))
         (Backoff.Min b) (Backoff.Max b).
Proof.
  unfold Backoff.duration. change (1 =? 0) with false. cbv iota.
  change (of_Z 1) with one. rewrite Pow_one.
  unfold Spec.clamp. rewrite Z.gtb_ltb. reflexivity.
Qed.

(** *** The computation of the duration *)

(** C1.  [Duration()] is the specification's [duration] at the current
    attempt: zero at attempt zero and otherwise the floating-point product
    [Min * Factor^n], answered by [Max] when it exceeds [MaxInt64] less
    the safety margin, and else converted and clamped -- raised to [Min]
    if below it, lowered to [Max] if above it.  The code compares the
    product with the float nearest to [MaxInt64 - 512]; that is the same
    as comparing it exactly with [MaxInt64 - 512]. *)
Theorem Duration_refines_spec {T} (b : Backoff.t T) :
  Duration b =
  Spec.duration convert_invalid Exp Log
                (Backoff.Min b) (Backoff.Max b) (Backoff.Factor b)
                (Backoff.Attempt b)
  /\ (Backoff.Attempt b = 0 -> Duration b = 0).
Proof.
  assert (Heq : forall attempt,
             duration b attempt =
             Spec.duration convert_invalid Exp Log
               (Backoff.Min b) (Backoff.Max b) (Backoff.Factor b) attempt).
  { intros attempt. unfold Backoff.duration, Spec.duration, Spec.clamp.
    destruct (attempt =? 0); [reflexivity |].
    rewrite gtb_guard_exact by apply shaped_of_Z_mul.
    rewrite Z.gtb_ltb. reflexivity. }
  split.
  - apply Heq.
  - intros H0. unfold Backoff.Duration, Backoff.Attempt in *.
    rewrite H0. reflexivity.
Qed.

End Properties.

(** ** The real timer *)

(** C9, as the code has it.  [Stop] on a real timer returns true when
    [Start] was never called; after a [Start] it returns true exactly when
    the call prevented the pending fire, and false when the timer had
    already fired or had already been stopped. *)
Theorem realTimer_Stop_result :
  fst (Stop NewRealTimer) = true
  /\ (forall t : realTimer,
        fst (Stop t) = match timer t with
                       | None => true
                       | Some tm => time.active tm
                       end)
  /\ (forall (t : realTimer) (d : time.Duration),
        fst (Stop (Start d t)) = true)
  /\ (forall (t : realTimer) (d : time.Duration),
        fst (Stop (tick (Start d t))) = false)
  /\ (forall (t : realTimer) (d : time.Duration),
        fst (Stop (snd (Stop (Start d t)))) = false).
Proof.
  split; [reflexivity |]. split.
  - intros [[tm|]]; reflexivity.
  - repeat split; intros [[tm|]] d; reflexivity.
Qed.

(** C9 fails as stated: [Stop] before any [Start] returns true. *)
Lemma realTimer_Stop_before_Start : fst (Stop NewRealTimer) <> false.
Proof. cbn. discriminate. Qed.

(** ** Further properties of the controller *)

Section Further.

Variable convert_invalid : float64 -> Z.
Variables Exp Log : float64 -> float64.

Local Abbreviation duration := (Backoff.duration convert_invalid Exp Log).
Local Abbreviation Duration := (Backoff.Duration convert_invalid Exp Log).
Local Abbreviation Next := (Backoff.Next convert_invalid Exp Log).
Local Abbreviation loop := (Backoff.loop convert_invalid Exp Log).
Local Abbreviation calls := (Backoff.calls convert_invalid Exp Log).
Local Abbreviation run := (exec convert_invalid Exp Log).

Lemma calls_cons {T} `{Timer T} (w : World) (ws : list World)
    (b : Backoff.t T) :
  calls (w :: ws) b
  = (fst (fst (Next w b)) :: fst (calls ws (snd (fst (Next w b)))),
     snd (calls ws (snd (fst (Next w b))))).
Proof.
  cbn [Backoff.calls].
  destruct (Backoff.Next convert_invalid Exp Log w b) as [[r b'] tr].
  cbn [fst snd].
  destruct (Backoff.calls convert_invalid Exp Log ws b') as [rs b''].
  reflexivity.
Qed.

(** [duration] reads the configuration only. *)
Lemma duration_ext {T U} (b : Backoff.t T) (b' : Backoff.t U) (a : Z) :
  Backoff.Factor b' = Backoff.Factor b ->
  Backoff.Min b' = Backoff.Min b ->
  Backoff.Max b' = Backoff.Max b ->
  duration b' a = duration b a.
Proof.
  intros HF Hmin Hmax. unfold Backoff.duration.
  rewrite HF, Hmin, Hmax. reflexivity.
Qed.

(** The result of [duration] is one of [Min], [Max] and a converted value
    that lies between them. *)
Lemma duration_hull {T} (b : Backoff.t T) (attempt : Z) :
  attempt <> 0 ->
  Z.min (Backoff.Min b) (Backoff.Max b) <= duration b attempt
  <= Z.max (Backoff.Min b) (Backoff.Max b).
Proof.
  intros Ha. unfold Backoff.duration.
  destruct (Z.eqb_spec attempt 0) as [|_]; [contradiction |].
  cbv zeta.
  destruct (gtb _ Backoff.maxInt64); [lia |].
  destruct (Z.ltb_spec
              (Backoff.to_Duration convert_invalid
                 (mul (of_Z (Backoff.Min b))
                      (math.Pow Exp Log (Backoff.Factor b) (of_Z attempt))))
              (Backoff.Min b)); [lia |].
  rewrite Z.gtb_ltb.
  destruct (Z.ltb_spec (Backoff.Max b)
              (Backoff.to_Duration convert_invalid
                 (mul (of_Z (Backoff.Min b))
                      (math.Pow Exp Log (Backoff.Factor b) (of_Z attempt)))));
    lia.
Qed.

Lemma exec_fields {T} `{Timer T} (b : Backoff.t T) (op : Op) :
  Backoff.MaxAttempts (run b op) = Backoff.MaxAttempts b
  /\ Backoff.Factor (run b op) = Backoff.Factor b
  /\ Backoff.Min (run b op) = Backoff.Min b
  /\ Backoff.Max (run b op) = Backoff.Max b.
Proof.
  destruct op as [| |w|]; cbn [exec]; auto.
  destruct (exhausted b) eqn:Hex.
  - rewrite (Next_at_limit convert_invalid Exp Log w b Hex). cbn. auto.
  - destruct (Next_fields convert_invalid Exp Log w b Hex)
      as (_ & H1 & H2 & H3 & H4). auto.
Qed.

(** *** What [Next] returns *)

(** X1.  [Next] returns false only when the budget is used up or the context
    is seen cancelled: at the poll when there is nothing to wait for, and
    else by winning the [select] against the timer. *)
Theorem Next_false_only_when {T} `{Timer T} (w : World) (b : Backoff.t T) :
  fst (fst (Next w b)) = false <->
  (Backoff.MaxAttempts b <> 0 /\ Backoff.Attempt b >= Backoff.MaxAttempts b)
  \/ (Duration b = 0 /\ ctx_done w = true)
  \/ (Duration b <> 0 /\ exists in_flight, race w = CtxDone in_flight).
Proof.
  destruct (exhausted b) eqn:Hex.
  - rewrite (Next_at_limit convert_invalid Exp Log w b Hex). cbn [fst].
    apply exhausted_true in Hex. unfold Backoff.Attempt. tauto.
  - assert (Hlim : ~ (Backoff.MaxAttempts b <> 0
                      /\ Backoff.Attempt b >= Backoff.MaxAttempts b)).
    { apply exhausted_false in Hex. unfold Backoff.Attempt. lia. }
    rewrite Next_unfold, Hex. cbv zeta.
    destruct (Z.eqb_spec (Duration b) 0) as [Hd | Hd].
    + cbn [fst]. rewrite negb_false_iff. split.
      * intros Hc. right. left. split; assumption.
      * intros [Hl | [[_ Hc] | [Hnz _]]];
          [contradiction | exact Hc | contradiction].
    + destruct (race w) as [|fl] eqn:Hr.
      * cbn [fst]. split; [discriminate |].
        intros [Hl | [[Hz _] | [_ [fl Hfl]]]];
          [contradiction | contradiction | discriminate].
      * destruct (Stop _) as [[|] tm]; cbn [negb fst];
          (split; [intros _ | reflexivity]);
          right; right; (split; [exact Hd | exists fl; reflexivity]).
Qed.

(** *** The first call *)

(** X2.  The first call of [Next] on a new controller never waits and never
    touches the timer, whatever the configuration: it polls the context
    once, returns true unless it is cancelled, and leaves the counter at
    one. *)
Theorem first_call_skips_the_wait {T} `{Timer T}
    (N : Z) (factor : float64) (min max : time.Duration) (tm : T)
    (w : World) :
  0 <= N ->
  Next w (Backoff.set_Timer (Backoff.New N factor min max) tm)
  = (negb (ctx_done w),
     Backoff.set_n (Backoff.set_Timer (Backoff.New N factor min max) tm) 1,
     [PollDone]).
Proof.
  intros HN. rewrite Next_unfold.
  assert (Hex : exhausted (Backoff.set_Timer (Backoff.New N factor min max) tm)
                = false).
  { apply exhausted_false. cbn. lia. }
  rewrite Hex. reflexivity.
Qed.

(** *** An unlimited budget *)

(** X3.  With [MaxAttempts = 0] and a context that is never cancelled, every
    call of [Next] returns true, so that the loop [for b.Next(ctx) {}]
    does not end, however many calls it is given. *)
Theorem unlimited_loop_never_ends {T} `{Timer T} (b : Backoff.t T)
    (k : nat) :
  Backoff.MaxAttempts b = 0 ->
  fst (calls (repeat calm k) b) = repeat true k
  /\ loop k calm b = None.
Proof.
  revert b. induction k as [|k IH]; intros b Hmax.
  - split; reflexivity.
  - assert (Hex : exhausted b = false) by (apply exhausted_false; auto).
    pose proof (Next_calm convert_invalid Exp Log b Hex) as Hr.
    destruct (Next_fields convert_invalid Exp Log calm b Hex)
      as (_ & Hmax' & _).
    assert (Hm : Backoff.MaxAttempts (snd (fst (Next calm b))) = 0)
      by (rewrite Hmax'; exact Hmax).
    destruct (IH _ Hm) as [Hc Hl].
    split.
    + change (repeat calm (S k)) with (calm :: repeat calm k).
      rewrite calls_cons. cbn [fst repeat]. rewrite Hr, Hc. reflexivity.
    + cbn [Backoff.loop].
      rewrite (Next_result convert_invalid Exp Log calm b), Hr, Hl.
      reflexivity.
Qed.

(** *** Counting the calls *)

(** X4.  With [MaxAttempts = 0] the counter counts every call of [Next],
    cancelled or not, as a [uint] does: modulo [2^64]. *)
Theorem unlimited_counter_counts_calls {T} `{Timer T}
    (ws : list World) (b : Backoff.t T) :
  Backoff.MaxAttempts b = 0 ->
  is_uint (Backoff.Attempt b) ->
  Backoff.Attempt (snd (calls ws b))
  = uint_wrap (Backoff.Attempt b + Z.of_nat (length ws)).
Proof.
  unfold Backoff.Attempt.
  revert b. induction ws as [|w ws IH]; intros b Hmax Hu.
  - cbn [Backoff.calls snd length Z.of_nat].
    rewrite Z.add_0_r. symmetry. apply uint_wrap_small. exact Hu.
  - assert (Hex : exhausted b = false) by (apply exhausted_false; auto).
    destruct (Next_fields convert_invalid Exp Log w b Hex)
      as (Hn & Hmax' & _).
    rewrite calls_cons. cbn [snd].
    rewrite IH.
    + rewrite Hn. unfold uint_wrap.
      rewrite Z.add_mod_idemp_l by (unfold uint_modulus; lia).
      f_equal. cbn [length]. lia.
    + rewrite Hmax'. exact Hmax.
    + rewrite Hn. apply Z.mod_pos_bound. unfold uint_modulus. lia.
Qed.

Lemma Next_within_budget {T} `{Timer T} (w : World) (b : Backoff.t T) :
  within_budget b -> within_budget (snd (fst (Next w b))).
Proof.
  intros Hb.
  exact (exec_within_budget convert_invalid Exp Log b (OpNext w) Hb).
Qed.

(** X5.  With a non-zero [MaxAttempts] the counter counts every call of
    [Next], cancelled or not, until it stands at [MaxAttempts]. *)
Theorem limited_counter_counts_calls {T} `{Timer T}
    (ws : list World) (b : Backoff.t T) :
  within_budget b ->
  Backoff.Attempt (snd (calls ws b))
  = Z.min (Backoff.Attempt b + Z.of_nat (length ws)) (Backoff.MaxAttempts b).
Proof.
  revert b. induction ws as [|w ws IH]; intros b Hb.
  - cbn [Backoff.calls snd length Z.of_nat].
    destruct Hb as (_ & _ & Hn). lia.
  - rewrite calls_cons. cbn [snd].
    rewrite (IH _ (Next_within_budget w b Hb)).
    destruct Hb as (Hnz & Hu & Hn). unfold Backoff.Attempt in *.
    destruct (exhausted b) eqn:Hex.
    + rewrite (Next_at_limit convert_invalid Exp Log w b Hex). cbn [fst snd length].
      apply exhausted_true in Hex. lia.
    + destruct (Next_fields convert_invalid Exp Log w b Hex)
        as (Hn' & Hmax' & _).
      apply exhausted_false in Hex.
      rewrite uint_wrap_small in Hn' by uint_lia.
      rewrite Hn', Hmax'. cbn [length]. lia.
Qed.

Lemma successes_cons (r : bool) (rs : list bool) :
  successes (r :: rs) = (if r then 1 else 0) + successes rs.
Proof.
  unfold successes. destruct r.
  - rewrite count_occ_cons_eq by reflexivity. lia.
  - rewrite count_occ_cons_neq by discriminate. lia.
Qed.

(** X6.  Whatever the context and the timer do, [Next] returns true at most
    as many times as the budget has attempts left. *)
Theorem successes_within_budget {T} `{Timer T}
    (ws : list World) (b : Backoff.t T) :
  within_budget b ->
  successes (fst (calls ws b)) <= Backoff.MaxAttempts b - Backoff.Attempt b.
Proof.
  revert b. induction ws as [|w ws IH]; intros b Hb.
  - cbn [Backoff.calls fst]. destruct Hb as (_ & _ & Hn).
    change (successes []) with 0. lia.
  - rewrite calls_cons. cbn [fst]. rewrite successes_cons.
    pose proof (IH _ (Next_within_budget w b Hb)) as IHb.
    destruct Hb as (Hnz & Hu & Hn). unfold Backoff.Attempt in *.
    destruct (exhausted b) eqn:Hex.
    + rewrite (Next_at_limit convert_invalid Exp Log w b Hex) in *. cbn [fst snd] in *. lia.
    + destruct (Next_fields convert_invalid Exp Log w b Hex)
        as (Hn' & Hmax' & _).
      apply exhausted_false in Hex.
      rewrite uint_wrap_small in Hn' by uint_lia.
      rewrite Hn', Hmax' in IHb.
      destruct (fst (fst (Next w b))); lia.
Qed.

(** *** Reset *)

(** X7.  [Reset] makes a controller with a non-zero [MaxAttempts] good for a
    whole new loop, whatever state it was in: the first wait is skipped
    again, and with a context that is never cancelled [Next] returns true
    [MaxAttempts] times and then false. *)
Theorem Reset_restarts_the_loop {T} `{Timer T} (b : Backoff.t T)
    (extra : nat) :
  Backoff.MaxAttempts b <> 0 -> is_uint (Backoff.MaxAttempts b) ->
  Backoff.Attempt (Backoff.Reset b) = 0
  /\ Duration (Backoff.Reset b) = 0
  /\ exists b',
       calls (repeat calm (S (Z.to_nat (Backoff.MaxAttempts b))))
             (Backoff.Reset b)
       = (repeat true (Z.to_nat (Backoff.MaxAttempts b)) ++ [false], b')
       /\ loop (S (Z.to_nat (Backoff.MaxAttempts b)) + extra) calm
               (Backoff.Reset b)
          = Some (Z.to_nat (Backoff.MaxAttempts b), b')
       /\ Backoff.Attempt b' = Backoff.MaxAttempts b.
Proof.
  intros Hnz Hu.
  split; [reflexivity |]. split; [reflexivity |].
  apply (loop_from convert_invalid Exp Log) with (N := Backoff.MaxAttempts b).
  - exact Hnz.
  - exact Hu.
  - reflexivity.
  - change (0 = Backoff.MaxAttempts b
                - Z.of_nat (Z.to_nat (Backoff.MaxAttempts b))).
    unfold is_uint in Hu. lia.
  - change (0 <= 0). lia.
Qed.

(** *** The configuration *)

(** X8.  No operation of the controller changes [MaxAttempts], [Factor], [Min]
    or [Max]: they are after any sequence of operations what they were
    before it. *)
Theorem configuration_is_kept {T} `{Timer T} (ops : list Op)
    (b : Backoff.t T) :
  Backoff.MaxAttempts (fold_left run ops b) = Backoff.MaxAttempts b
  /\ Backoff.Factor (fold_left run ops b) = Backoff.Factor b
  /\ Backoff.Min (fold_left run ops b) = Backoff.Min b
  /\ Backoff.Max (fold_left run ops b) = Backoff.Max b.
Proof.
  revert b. induction ops as [|op ops IH]; intros b; cbn [fold_left].
  - auto.
  - destruct (IH (run b op)) as (H1 & H2 & H3 & H4).
    destruct (exec_fields b op) as (E1 & E2 & E3 & E4).
    rewrite H1, H2, H3, H4. auto.
Qed.

(** *** The delay of a call and the delay reported after it *)

(** X9.  After a call of [Next] on a controller that is not at its limit,
    [Duration()] is the delay of the attempt that follows the current
    one -- whether the call waited, was cancelled or skipped the wait. *)
Theorem Duration_after_Next {T} `{Timer T} (w : World) (b : Backoff.t T) :
  Backoff.MaxAttempts b = 0 \/ Backoff.Attempt b < Backoff.MaxAttempts b ->
  0 <= Backoff.Attempt b -> Backoff.Attempt b + 1 < uint_modulus ->
  Duration (snd (fst (Next w b))) = duration b (Backoff.Attempt b + 1).
Proof.
  unfold Backoff.Attempt. intros Hlim H0 H1.
  assert (Hex : exhausted b = false) by (apply exhausted_false; exact Hlim).
  destruct (Next_fields convert_invalid Exp Log w b Hex)
    as (Hn & _ & HF & Hmin & Hmax).
  rewrite uint_wrap_small in Hn by uint_lia.
  unfold Backoff.Duration. rewrite Hn.
  apply duration_ext; assumption.
Qed.

Lemma Next_effects {T} `{Timer T} (w : World) (b : Backoff.t T)
    (d : time.Duration) :
  In (TimerStart d) (snd (Next w b)) ->
  exhausted b = false /\ d = Duration b /\ d <> 0.
Proof.
  destruct (exhausted b) eqn:Hex.
  - rewrite (Next_at_limit convert_invalid Exp Log w b Hex). cbn. contradiction.
  - rewrite Next_unfold, Hex. cbv zeta.
    destruct (Z.eqb_spec (Duration b) 0) as [Hd | Hd].
    + cbn. intros [Hf | []]. discriminate.
    + assert (Hin : forall tr : list Effect,
                 In (TimerStart d) (TimerStart (Duration b) :: SelectWait :: tr) ->
                 (forall e, In e tr -> e = TimerStop \/ e = DrainC) ->
                 false = false /\ d = Duration b /\ d <> 0).
      { intros tr [Heq | [Hf | Hin]] Htr.
        - injection Heq as <-. auto.
        - discriminate.
        - destruct (Htr _ Hin); discriminate. }
      destruct (race w) as [|fl].
      * cbn [snd]. intros Hi. apply (Hin [] Hi). intros e [].
      * destruct (Stop _) as [[|] tm]; cbn [negb snd]; intros Hi.
        -- apply (Hin [TimerStop] Hi). intros e [<- | []]. auto.
        -- apply (Hin [TimerStop; DrainC] Hi).
           intros e [<- | [<- | []]]; auto.
Qed.

(** X10.  Whenever [Next] starts the timer, it is for the [Duration()] of the
    current attempt, which is not zero and lies between the lesser and
    the greater of [Min] and [Max]; with non-negative bounds the timer is
    thus never started for a negative delay. *)
Theorem Next_waits_within_bounds {T} `{Timer T} (w : World)
    (b : Backoff.t T) (d : time.Duration) :
  In (TimerStart d) (snd (Next w b)) ->
  d = Duration b
  /\ d <> 0
  /\ Z.min (Backoff.Min b) (Backoff.Max b) <= d
     <= Z.max (Backoff.Min b) (Backoff.Max b)
  /\ (0 <= Backoff.Min b -> 0 <= Backoff.Max b -> 0 < d).
Proof.
  intros Hin. destruct (Next_effects w b d Hin) as (_ & Hd & Hnz).
  assert (Ha : Backoff.n b <> 0).
  { intros H0. apply Hnz. rewrite Hd. unfold Backoff.Duration.
    rewrite H0. reflexivity. }
  pose proof (duration_hull b (Backoff.n b) Ha) as Hh.
  fold (Duration b) in Hh. rewrite <- Hd in Hh.
  split; [exact Hd |]. split; [exact Hnz |]. split; [exact Hh |]. lia.
Qed.

(** *** Bounds of the duration, in whichever order *)

(** X11.  For every configuration and every attempt after the first, the
    duration lies between the lesser and the greater of [Min] and [Max];
    with [Max] below [Min] it is one of the two; and with non-negative
    bounds it is never negative, at any attempt. *)
Theorem duration_within_hull {T} (b : Backoff.t T) (attempt : Z) :
  (attempt <> 0 ->
   Z.min (Backoff.Min b) (Backoff.Max b) <= duration b attempt
   <= Z.max (Backoff.Min b) (Backoff.Max b))
  /\ (attempt <> 0 -> Backoff.Max b < Backoff.Min b ->
      duration b attempt = Backoff.Min b \/ duration b attempt = Backoff.Max b)
  /\ (0 <= Backoff.Min b -> 0 <= Backoff.Max b -> 0 <= duration b attempt).
Proof.
  split; [apply duration_hull |]. split.
  - intros Ha Hinv. unfold Backoff.duration.
    destruct (Z.eqb_spec attempt 0) as [|_]; [contradiction |].
    cbv zeta.
    destruct (gtb _ Backoff.maxInt64); [right; reflexivity |].
    destruct (Z.ltb_spec
                (Backoff.to_Duration convert_invalid
                   (mul (of_Z (Backoff.Min b))
                        (math.Pow Exp Log (Backoff.Factor b) (of_Z attempt))))
                (Backoff.Min b)); [left; reflexivity |].
    rewrite Z.gtb_ltb.
    destruct (Z.ltb_spec (Backoff.Max b)
                (Backoff.to_Duration convert_invalid
                   (mul (of_Z (Backoff.Min b))
                        (math.Pow Exp Log (Backoff.Factor b) (of_Z attempt)))));
      [right; reflexivity | lia].
  - intros Hmin Hmax.
    destruct (Z.eq_dec attempt 0) as [-> | Ha]; [cbn; lia |].
    pose proof (duration_hull b attempt Ha). lia.
Qed.

End Further.

(** *** The channel of a timer *)

Lemma realTimer_exec_started (t : realTimer) (op : TimerOp) :
  C (timer_exec t op) = None <-> C t = None /\ is_Start op = false.
Proof.
  destruct t as [[tm|]]; destruct op; cbn; intuition discriminate.
Qed.

Lemma mockTimer_exec_started (t : mockTimer) (op : TimerOp) :
  C (timer_exec t op) = None <-> C t = None /\ is_Start op = false.
Proof.
  destruct t as [st sp k]; destruct op; cbn; unfold mockTimer_C, mockTimer_Stop;
    cbn; destruct st, sp; cbn; intuition discriminate.
Qed.

Lemma realTimer_run_started (ops : list TimerOp) (t : realTimer) :
  C (fold_left timer_exec ops t) = None
  <-> C t = None /\ existsb is_Start ops = false.
Proof.
  revert t. induction ops as [|op ops IH]; intros t; cbn [fold_left existsb].
  - tauto.
  - rewrite IH, realTimer_exec_started, orb_false_iff. tauto.
Qed.

Lemma mockTimer_run_started (ops : list TimerOp) (t : mockTimer) :
  C (fold_left timer_exec ops t) = None
  <-> C t = None /\ existsb is_Start ops = false.
Proof.
  revert t. induction ops as [|op ops IH]; intros t; cbn [fold_left existsb].
  - tauto.
  - rewrite IH, mockTimer_exec_started, orb_false_iff. tauto.
Qed.

(** X12.  [C()] of a real timer is [nil] exactly until the first [Start]:
    afterwards no [Stop], expiry, receive or further [Start] makes it
    [nil] again.  The mock of the tests behaves alike. *)
Theorem C_is_nil_until_Start (ops : list TimerOp) :
  (C (fold_left timer_exec ops NewRealTimer) = None
   <-> existsb is_Start ops = false)
  /\ (C (fold_left timer_exec ops newMockTimer) = None
      <-> existsb is_Start ops = false).
Proof.
  split.
  - rewrite realTimer_run_started. cbn. tauto.
  - rewrite mockTimer_run_started. cbn. tauto.
Qed.

(** *** The real timer under [Next] *)

Lemma idle_Start_fire_receive (d : time.Duration) (t : realTimer) :
  idle t -> idle (recv (tick (Start d t))).
Proof. destruct t as [[tm|]]; cbn; intros Hi; [destruct Hi |]; auto. Qed.

Lemma idle_Start_Stop (d : time.Duration) (t : realTimer) :
  idle t ->
  fst (Stop (Start d t)) = true /\ idle (snd (Stop (Start d t))).
Proof.
  destruct t as [[tm|]]; cbn; intros Hi; [destruct Hi as [Ha Hk] |]; auto.
Qed.

Lemma idle_Start_fire_Stop (d : time.Duration) (t : realTimer) :
  idle t ->
  fst (Stop (tick (Start d t))) = false
  /\ C (snd (Stop (tick (Start d t)))) = Some 1%nat
  /\ idle (recv (snd (Stop (tick (Start d t))))).
Proof.
  destruct t as [[tm|]]; cbn; intros Hi; [destruct Hi as [Ha Hk] |]; auto.
Qed.

Section TimersUnderNext.

Variable convert_invalid : float64 -> Z.
Variables Exp Log : float64 -> float64.

Local Abbreviation Duration := (Backoff.Duration convert_invalid Exp Log).
Local Abbreviation Next := (Backoff.Next convert_invalid Exp Log).
Local Abbreviation run := (exec convert_invalid Exp Log).

Lemma Next_idle (w : World) (b : Backoff.t realTimer) :
  idle (Backoff.Timer b) -> idle (Backoff.Timer (snd (fst (Next w b)))).
Proof.
  intros Hi. rewrite Next_unfold.
  destruct (exhausted b); [exact Hi |]. cbv zeta.
  destruct (Duration b =? 0); [exact Hi |].
  change (Backoff.Timer (Backoff.set_n b (uint_wrap (Backoff.n b + 1))))
    with (Backoff.Timer b).
  destruct (race w) as [|[|]].
  - cbn [fst snd Backoff.set_Timer Backoff.Timer].
    apply idle_Start_fire_receive. exact Hi.
  - destruct (idle_Start_fire_Stop (Duration b) (Backoff.Timer b) Hi)
      as (Hs & _ & Hr).
    destruct (Stop (tick (Start (Duration b) (Backoff.Timer b))))
      as [p tm]. cbn [fst snd] in Hs, Hr. subst p. exact Hr.
  - destruct (idle_Start_Stop (Duration b) (Backoff.Timer b) Hi)
      as (Hs & Hr).
    destruct (Stop (Start (Duration b) (Backoff.Timer b))) as [p tm].
    cbn [fst snd] in Hs, Hr. subst p. exact Hr.
Qed.

(** X13.  [Next] leaves the real timer at rest -- not armed and with an empty
    channel -- however the wait ended: the tick was received, or [Stop]
    prevented it, or it was drained.  A controller made by [New] thus has
    its timer at rest after any sequence of operations, ready for the
    next [Start]. *)
Theorem real_timer_left_at_rest
    (N : Z) (factor : float64) (min max : time.Duration) (ops : list Op) :
  idle (Backoff.Timer (Backoff.New N factor min max))
  /\ (forall (w : World) (b : Backoff.t realTimer),
        idle (Backoff.Timer b) ->
        idle (Backoff.Timer (snd (fst (Next w b)))))
  /\ idle (Backoff.Timer (fold_left run ops (Backoff.New N factor min max))).
Proof.
  assert (H0 : idle (Backoff.Timer (Backoff.New N factor min max)))
    by exact I.
  split; [exact H0 |]. split; [exact Next_idle |].
  revert H0. generalize (Backoff.New N factor min max).
  induction ops as [|op ops IH]; intros b Hb; cbn [fold_left].
  - exact Hb.
  - apply IH. destruct op as [| |w|]; cbn [exec].
    + exact Hb.
    + exact Hb.
    + apply Next_idle. exact Hb.
    + exact Hb.
Qed.

(** X14.  With a real timer at rest, [Next] drains the channel exactly when the
    context won the [select] although the timer had already expired; the
    tick it then receives is in the channel, so the receive does not
    block. *)
Theorem real_timer_drained_when_in_flight (w : World)
    (b : Backoff.t realTimer) :
  idle (Backoff.Timer b) ->
  (In DrainC (snd (Next w b))
   <-> exhausted b = false /\ Duration b <> 0 /\ race w = CtxDone true)
  /\ C (snd (Stop (tick (Start (Duration b) (Backoff.Timer b)))))
     = Some 1%nat.
Proof.
  intros Hi.
  destruct (idle_Start_fire_Stop (Duration b) (Backoff.Timer b) Hi)
    as (Hs & Hc & _).
  split; [| exact Hc].
  rewrite Next_unfold.
  destruct (exhausted b); [cbn; intuition discriminate |]. cbv zeta.
  destruct (Z.eqb_spec (Duration b) 0) as [Hd | Hd].
  { cbn. intuition (try discriminate; try contradiction). }
  change (Backoff.Timer (Backoff.set_n b (uint_wrap (Backoff.n b + 1))))
    with (Backoff.Timer b).
  destruct (race w) as [|[|]].
  - cbn. intuition discriminate.
  - destruct (Stop (tick (Start (Duration b) (Backoff.Timer b))))
      as [p tm]. cbn [fst] in Hs. subst p. cbn. intuition.
  - destruct (idle_Start_Stop (Duration b) (Backoff.Timer b) Hi)
      as (Hs' & _).
    destruct (Stop (Start (Duration b) (Backoff.Timer b))) as [p tm].
    cbn [fst] in Hs'. subst p. cbn. intuition discriminate.
Qed.

(** *** The mock timer under [Next] *)

(** X15.  With the mock timer of the tests, a wait that the context wins drains
    the channel the first time only: [Stop] returns false once and true
    ever after, so that each later cancelled wait leaves one more sender
    blocked on the channel. *)
Theorem mock_timer_cancelled_wait (fl : bool) (w : World)
    (b : Backoff.t mockTimer) :
  exhausted b = false -> Duration b <> 0 -> race w = CtxDone fl ->
  (In DrainC (snd (Next w b)) <-> stopped (Backoff.Timer b) = false)
  /\ stopped (Backoff.Timer (snd (fst (Next w b)))) = true
  /\ senders (Backoff.Timer (snd (fst (Next w b))))
     = if stopped (Backoff.Timer b) then S (senders (Backoff.Timer b))
       else senders (Backoff.Timer b).
Proof.
  intros Hex Hd Hr. rewrite Next_unfold, Hex. cbv zeta.
  destruct (Z.eqb_spec (Duration b) 0) as [|_]; [contradiction |].
  rewrite Hr.
  change (Backoff.Timer (Backoff.set_n b (uint_wrap (Backoff.n b + 1))))
    with (Backoff.Timer b).
  destruct (Backoff.Timer b) as [st sp k].
  destruct fl, sp; cbn; intuition discriminate.
Qed.

End TimersUnderNext.

(** ** Further properties of the duration *)

Section Growth.

Variable convert_invalid : float64 -> Z.
Variables Exp Log : float64 -> float64.

Local Abbreviation duration := (Backoff.duration convert_invalid Exp Log).

(** *** [math.Exp] and [math.Log] *)

(** X16.  The duration does not depend on the platform's [math.Exp] and
    [math.Log]: [math.Pow] reaches them only for an exponent with a
    fractional part, and [float64(attempt)] has none. *)
Theorem duration_ignores_Exp_and_Log {T}
    (Exp' Log' : float64 -> float64) (b : Backoff.t T) (attempt : Z) :
  is_uint attempt ->
  duration b attempt = Backoff.duration convert_invalid Exp' Log' b attempt.
Proof.
  intros [H0 H1]. unfold Backoff.duration.
  destruct (Z.eqb_spec attempt 0) as [| Hnz]; [reflexivity |].
  rewrite (Pow_libm_irrelevant Exp Log Exp' Log') by (unfold uint_modulus in H1; lia).
  reflexivity.
Qed.

(** *** Constant backoff *)

Lemma Pow_base_one (y : float64) : math.Pow Exp Log one y = one.
Proof.
  unfold math.Pow, math.pow_body. change (eqb one one) with true.
  rewrite orb_true_r. reflexivity.
Qed.

Lemma Pow_base_zero (a : Z) :
  1 <= a -> a < 2 ^ 64 -> math.Pow Exp Log zero (of_Z a) = zero.
Proof.
  intros Ha Hb. destruct (Z.eq_dec a 1) as [-> | Hne].
  - change (of_Z 1) with one. apply Pow_one.
  - destruct (of_Z_tests a ltac:(lia) Hb)
      as (H0 & H1 & Hnan & Hinf & _ & _ & Hlt & Hgt).
    unfold math.Pow, math.pow_body.
    rewrite H0, H1, Hnan, Hlt, Hgt. reflexivity.
Qed.

(** What [duration] returns for a product that is the float of a small
    non-negative integer. *)
Lemma duration_of_small_product {T} (b : Backoff.t T) (attempt z : Z) :
  attempt <> 0 -> 0 <= z -> z < 2 ^ 53 ->
  mul (of_Z (Backoff.Min b))
      (math.Pow Exp Log (Backoff.Factor b) (of_Z attempt)) = of_Z z ->
  duration b attempt = Spec.clamp z (Backoff.Min b) (Backoff.Max b).
Proof.
  intros Ha Hz0 Hz Hprod. unfold Backoff.duration.
  destruct (Z.eqb_spec attempt 0) as [| _]; [contradiction |].
  cbv zeta. rewrite Hprod.
  assert (Hconv : gtb (of_Z z) Backoff.maxInt64 = false
                  /\ Backoff.to_Duration convert_invalid (of_Z z) = z).
  { destruct (Z.eq_dec z 0) as [-> | Hnz]; [split; reflexivity |].
    assert (Hd : digits z <= 53) by (apply digits_lt_pow2; lia).
    pose proof (norm_range z 0 ltac:(lia)) as Hn.
    pose proof (normal_pos _ Hn) as Hp.
    assert (Hg : nleb (norm z 0) n_guard = true).
    { rewrite norm_int_small by (try assumption; lia).
      unfold nleb, n_guard. cbn [fst snd].
      destruct (Z.ltb_spec (digits z - 53) 10); [reflexivity | lia]. }
    rewrite of_Z_nfloat
      by (try lia; change (2 ^ 53) with 9007199254740992 in Hz;
          change (2 ^ 64) with 18446744073709551616; lia).
    split.
    - unfold gtb. fold (ltb Backoff.maxInt64 (nfloat (norm z 0))).
      rewrite maxInt64_nfloat, ltb_nfloat by (try exact Hp; cbn; lia).
      rewrite Hg. reflexivity.
    - rewrite to_Duration_nfloat by assumption.
      apply ipart_small; [lia | exact Hd]. }
  destruct Hconv as [Hg Hc]. rewrite Hg, Hc.
  unfold Spec.clamp. rewrite Z.gtb_ltb. reflexivity.
Qed.

Lemma mul_zero_r (z : Z) :
  0 <= z -> z < 2 ^ 63 -> mul (of_Z z) zero = zero.
Proof.
  intros Hz0 Hz. destruct (Z.eq_dec z 0) as [-> | Hnz]; [reflexivity |].
  rewrite of_Z_nfloat
    by (try lia; change (2 ^ 63) with 9223372036854775808 in Hz;
        change (2 ^ 64) with 18446744073709551616; lia).
  reflexivity.
Qed.

(** X17.  With a factor of zero the product is zero at every retry, and the
    delay is raised to [Min]. *)
Theorem duration_constant_for_factor_zero {T} (b : Backoff.t T)
    (attempt : Z) :
  Backoff.Factor b = zero ->
  0 <= Backoff.Min b -> Backoff.Min b <= math.MaxInt64 ->
  Backoff.Min b <= Backoff.Max b ->
  1 <= attempt -> is_uint attempt ->
  duration b attempt = Backoff.Min b.
Proof.
  intros HF Hmin0 Hmin Hmm Ha [_ Hu].
  unfold math.MaxInt64 in Hmin. unfold uint_modulus in Hu.
  rewrite (duration_of_small_product b attempt 0).
  - unfold Spec.clamp.
    destruct (Z.ltb_spec 0 (Backoff.Min b)); [reflexivity |].
    destruct (Z.ltb_spec (Backoff.Max b) 0); lia.
  - lia.
  - lia.
  - reflexivity.
  - rewrite HF, Pow_base_zero by lia. apply mul_zero_r; lia.
Qed.

(** *** Doubling *)

(** X18.  With a factor of two the arithmetic is exact: the delay of a retry is
    [Min * 2^attempt] capped at [Max], for every [Min] that [float64]
    holds exactly (below [2^53] nanoseconds). *)
Theorem duration_doubles_for_factor_two {T} (b : Backoff.t T)
    (attempt : Z) :
  Backoff.Factor b = two ->
  0 < Backoff.Min b -> Backoff.Min b < 2 ^ 53 ->
  Backoff.Min b <= Backoff.Max b -> Backoff.Max b <= math.MaxInt64 ->
  1 <= attempt -> is_uint attempt ->
  duration b attempt = Z.min (Backoff.Min b * 2 ^ attempt) (Backoff.Max b).
Proof.
  intros HF Hmin0 Hmin Hmm Hmax Ha [_ Hu].
  unfold math.MaxInt64 in Hmax. unfold uint_modulus in Hu.
  change (2 ^ 63 - 1) with 9223372036854775807 in Hmax.
  assert (Hd : digits (Backoff.Min b) <= 53)
    by (apply digits_lt_pow2; lia).
  pose proof (digits_pos (Backoff.Min b) Hmin0) as Hdp.
  pose proof (digits_spec (Backoff.Min b) Hmin0) as [Hlo Hhi].
  assert (Hmin63 : Backoff.Min b < 2 ^ 63).
  { change (2 ^ 53) with 9007199254740992 in Hmin.
    change (2 ^ 63) with 9223372036854775808. lia. }
  assert (He : snd n_two <= 971) by (unfold n_two; cbn [snd]; lia).
  rewrite (duration_nduration convert_invalid Exp Log b n_two attempt
             Hmin0 Hmin63 (eq_trans HF two_nfloat) n_two_normal
             eq_refl He Ha Hu).
  rewrite npow_two by exact Ha.
  assert (Hbig : forall k, 63 <= k ->
            Z.min (Backoff.Min b * 2 ^ k) (Backoff.Max b) = Backoff.Max b).
  { intros k Hk.
    assert (2 ^ 63 <= 2 ^ k) by (apply Z.pow_le_mono_r; lia).
    change (2 ^ 63) with 9223372036854775808 in *. nia. }
  destruct (Z.leb_spec attempt 4095) as [Hs | Hb];
    [| cbn [nduration]; symmetry; apply Hbig; lia].
  cbn [nduration].
  rewrite nmul_small_pow2 by assumption.
  rewrite ival_small_pow2 by (try assumption; lia).
  cbn [fst snd]. unfold nleb, n_guard. cbn [fst snd].
  destruct (Z.le_gt_cases (digits (Backoff.Min b) + attempt) 63) as [Hok | Hov].
  - destruct (Z.leb_spec (attempt - 52) 971); [| lia].
    destruct (Z.leb_spec (digits (Backoff.Min b) - 53 + attempt) 971); [| lia].
    assert (Hn : normal (Backoff.Min b * 2 ^ (53 - digits (Backoff.Min b)))).
    { pose proof (norm_range (Backoff.Min b) 0 Hmin0) as Hn.
      rewrite norm_int_small in Hn by assumption. exact Hn. }
    assert (Hg : (digits (Backoff.Min b) - 53 + attempt <? 10)
                 || (digits (Backoff.Min b) - 53 + attempt =? 10)
                    && (Backoff.Min b * 2 ^ (53 - digits (Backoff.Min b))
                        <=? 2 ^ 53 - 1) = true).
    { destruct (Z.ltb_spec (digits (Backoff.Min b) - 53 + attempt) 10);
        [reflexivity |].
      destruct (Z.eqb_spec (digits (Backoff.Min b) - 53 + attempt) 10); [| lia].
      destruct Hn as [_ Hn].
      destruct (Z.leb_spec (Backoff.Min b * 2 ^ (53 - digits (Backoff.Min b)))
                           (2 ^ 53 - 1)); [reflexivity | lia]. }
    rewrite Hg. cbn [andb].
    pose proof (pow2_pos attempt ltac:(lia)) as Hpa.
    unfold Spec.clamp.
    destruct (Z.ltb_spec (Backoff.Min b * 2 ^ attempt) (Backoff.Min b)); [nia |].
    destruct (Z.ltb_spec (Backoff.Max b) (Backoff.Min b * 2 ^ attempt)); lia.
  - assert (Hg : (digits (Backoff.Min b) - 53 + attempt <? 10)
                 || (digits (Backoff.Min b) - 53 + attempt =? 10)
                    && (Backoff.Min b * 2 ^ (53 - digits (Backoff.Min b))
                        <=? 2 ^ 53 - 1) = false).
    { destruct (Z.ltb_spec (digits (Backoff.Min b) - 53 + attempt) 10); [lia |].
      destruct (Z.eqb_spec (digits (Backoff.Min b) - 53 + attempt) 10); [lia |].
      reflexivity. }
    rewrite Hg, !andb_false_r.
    assert (Hp : 2 ^ 63 <= 2 ^ (digits (Backoff.Min b) - 1) * 2 ^ attempt).
    { rewrite <- Z.pow_add_r by lia. apply Z.pow_le_mono_r; lia. }
    pose proof (pow2_pos attempt ltac:(lia)) as Hpa.
    change (2 ^ 63) with 9223372036854775808 in Hp.
    assert (Backoff.Max b < Backoff.Min b * 2 ^ attempt) by nia.
    lia.
Qed.

(** *** Factors beyond every duration *)

(** X19.  A factor above the overflow guard -- [math.MaxFloat64] or an infinity,
    say -- makes every retry wait [Max], for any [Min] of a nanosecond or
    more: no overflow of the product shows in the result. *)
Theorem duration_is_Max_for_huge_factor {T} (b : Backoff.t T)
    (attempt : Z) :
  valid_binary prec emax (Backoff.Factor b) = true ->
  gtb (Backoff.Factor b) Backoff.maxInt64 = true ->
  1 <= Backoff.Min b -> Backoff.Min b <= math.MaxInt64 ->
  1 <= attempt -> is_uint attempt ->
  duration b attempt = Backoff.Max b.
Proof.
  intros Hv Hgt Hmin1 Hmin Ha [_ Hu].
  unfold math.MaxInt64 in Hmin. unfold uint_modulus in Hu.
  pose proof (of_Z_nfloat (Backoff.Min b) ltac:(lia) ltac:(lia)) as HM.
  destruct (factor_gt_guard _ Hv Hgt) as [Hinf | (X & HF & HX & HG & HeX)].
  - apply (duration_inf_product convert_invalid Exp Log b attempt
             (norm (Backoff.Min b) 0)); [lia | exact HM |].
    rewrite Hinf. apply Pow_inf; lia.
  - assert (H1 : nleb X n_one = false).
    { apply (nle_antisym_false n_guard n_one X).
      - reflexivity.
      - apply nleb_false. exact HG. }
    destruct (gt_n_one X HX H1) as (HX52 & _ & _).
    rewrite (duration_nduration convert_invalid Exp Log b X attempt)
      by (try assumption; lia).
    pose proof (npow_mono X 1 attempt HX H1 ltac:(lia) Ha) as Hole.
    rewrite npow_first in Hole by assumption.
    destruct (npow X attempt) as [R |] eqn:HR; [| reflexivity].
    cbn [ole] in Hole. cbn [nduration].
    destruct (npow_inv X attempt R HX HX52 HR) as [HnR _].
    pose proof (norm_range (Backoff.Min b) 0 ltac:(lia)) as HnM.
    assert (HMR : nle R (nmul (norm (Backoff.Min b) 0) R)).
    { rewrite <- (nmul_one_l R HnR) at 1.
      apply nmul_mono_l; try assumption; [exact n_one_normal |].
      change n_one with (norm 1 0). apply norm_int_mono; lia. }
    assert (Hfalse : nleb (nmul (norm (Backoff.Min b) 0) R) n_guard = false).
    { apply (nle_antisym_false X n_guard); [exact HG |].
      apply (nle_trans _ _ _ Hole HMR). }
    rewrite Hfalse, andb_false_r. reflexivity.
Qed.

(** *** The cap *)

Lemma duration_le {T} (b : Backoff.t T) (a a' : Z) :
  valid_binary prec emax (Backoff.Factor b) = true ->
  gtb (Backoff.Factor b) one = true ->
  0 <= Backoff.Min b -> Backoff.Min b < 2 ^ 63 ->
  Backoff.Min b <= Backoff.Max b ->
  1 <= a -> a <= a' -> a' < 2 ^ 64 ->
  duration b a <= duration b a'.
Proof.
  intros Hv Hgt Hmin0 Hmin63 Hmm Ha Haa' Hb.
  destruct (factor_gt_one _ Hv Hgt) as [Hinf | (X & HF & HX & HX1 & HeX)].
  - rewrite (duration_same_power convert_invalid Exp Log b a a');
      [lia | lia | lia |].
    rewrite Hinf, !Pow_inf by lia. reflexivity.
  - destruct (gt_n_one X HX HX1) as (HX52 & _ & _).
    pose proof (npow_mono X a a' HX HX1 Ha Haa') as Hole.
    pose proof (Pow_nfloat Exp Log X a HX HX1 HeX Ha ltac:(lia)) as HP.
    pose proof (Pow_nfloat Exp Log X a' HX HX1 HeX ltac:(lia) Hb) as HP'.
    rewrite <- HF in HP, HP'.
    destruct (Z.eq_dec (Backoff.Min b) 0) as [Hz | Hnz].
    + destruct (ofloat_cases (npow X a)) as [(R & _ & _ & HR) | Hi].
      * rewrite HR in HP.
        rewrite (duration_zero_Min convert_invalid Exp Log b a R)
          by (try assumption; lia).
        pose proof (duration_range convert_invalid Exp Log b a'
                      ltac:(lia) Hmm). lia.
      * pose proof (ofloat_inf_mono _ _ Hole Hi) as Hi'.
        rewrite (duration_same_power convert_invalid Exp Log b a a');
          [lia | lia | lia |].
        rewrite HP, HP', Hi, Hi'. reflexivity.
    + rewrite (duration_nduration convert_invalid Exp Log b X a)
        by (try assumption; lia).
      rewrite (duration_nduration convert_invalid Exp Log b X a')
        by (try assumption; lia).
      apply nduration_mono; try assumption.
      * apply norm_range. lia.
      * intros R HR. apply (npow_inv X a R HX HX52 HR).
      * intros R HR. apply (npow_inv X a' R HX HX52 HR).
Qed.

(** X20.  Once the delay has reached [Max] it stays there: with a factor above
    one, a retry that waits [Max] is followed by retries that wait [Max]. *)
Theorem duration_stays_at_Max {T} (b : Backoff.t T) (a a' : Z) :
  valid_binary prec emax (Backoff.Factor b) = true ->
  gtb (Backoff.Factor b) one = true ->
  0 <= Backoff.Min b -> Backoff.Min b <= math.MaxInt64 ->
  Backoff.Min b <= Backoff.Max b ->
  1 <= a -> a <= a' -> is_uint a' ->
  duration b a = Backoff.Max b ->
  duration b a' = Backoff.Max b.
Proof.
  intros Hv Hgt Hmin0 Hmin Hmm Ha Haa' [_ Hu] Hcap.
  unfold math.MaxInt64 in Hmin. unfold uint_modulus in Hu.
  pose proof (duration_le b a a' Hv Hgt Hmin0 ltac:(lia) Hmm Ha Haa' Hu)
    as Hle.
  pose proof (duration_range convert_invalid Exp Log b a' ltac:(lia) Hmm)
    as [_ Hhi].
  lia.
Qed.

End Growth.

(** *** Constant backoff for a factor of at most one *)

Section Shrinking.

Variable convert_invalid : float64 -> Z.
Variables Exp Log : float64 -> float64.

Local Abbreviation duration := (Backoff.duration convert_invalid Exp Log).

Lemma Pow_zero_base (s : bool) (a : Z) :
  1 <= a -> a < 2 ^ 64 ->
  exists s', math.Pow Exp Log (S754_zero s) (of_Z a) = S754_zero s'.
Proof.
  intros Ha Hb. destruct (Z.eq_dec a 1) as [-> | Hne].
  - exists s. change (of_Z 1) with one. apply Pow_one.
  - destruct (of_Z_tests a ltac:(lia) Hb)
      as (H0 & H1 & Hnan & Hinf & _ & _ & Hlt & Hgt).
    unfold math.Pow, math.pow_body.
    rewrite H0, H1, Hnan, Hlt, Hgt.
    replace (eqb (S754_zero s) one) with false by (destruct s; reflexivity).
    replace (eqb (S754_zero s) zero) with true by (destruct s; reflexivity).
    cbn [orb math.IsNaN].
    destruct (math.Signbit (S754_zero s) && math.isOddInt (of_Z a));
      [exists s | exists false]; reflexivity.
Qed.

Lemma pow_general_shrinks (p : positive) (e mx xe : Z) (a : Z) :
  math.Frexp (S754_finite false p e) = (nfloat (mx, -53), xe) ->
  normal mx -> xe <= 0 ->
  ltb (S754_finite false p e) one = true ->
  2 <= a -> a < 2 ^ 64 ->
  at_most_one (math.pow_general Exp Log (S754_finite false p e) (of_Z a)).
Proof.
  intros HF Hmx Hxe Hlt Ha Hb.
  pose proof (norm_range a 0 ltac:(lia)) as HnY.
  pose proof (normal_pos _ HnY) as HYpos.
  unfold math.pow_general.
  replace (math.Abs (of_Z a)) with (of_Z a)
    by (rewrite of_Z_nfloat by lia; reflexivity).
  rewrite Modf_int by lia.
  change (neqb (S754_zero false) zero) with false. cbn [andb].
  unfold geb. fold (leb two63 (of_Z a)).
  rewrite of_Z_nfloat by lia. rewrite two63_nfloat.
  rewrite leb_nfloat by (cbn [fst]; lia).
  destruct (nleb (2 ^ 52, 11) (norm a 0)) eqn:Hbig.
  - replace (eqb (S754_finite false p e) minus_one) with false by reflexivity.
    replace (math.Abs (S754_finite false p e)) with (S754_finite false p e)
      by reflexivity.
    rewrite Hlt.
    replace (gtb (nfloat (norm a 0)) zero) with true by reflexivity.
    left. exact I.
  - rewrite HF.
    assert (Hip : math.int_part (nfloat (norm a 0)) = ipart a).
    { unfold math.int_part. rewrite trunc_nfloat by exact HYpos. reflexivity. }
    rewrite Hip.
    pose proof (ipart_pos a ltac:(lia)) as Hipos.
    assert (Hilt : ipart a < 2 ^ 63).
    { rewrite <- ipart_big in Hbig by lia. apply Z.leb_gt. exact Hbig. }
    destruct (ipart a) as [| i | i] eqn:Hi; try lia.
    pose proof (size_lt_pow2 i 63 Hilt) as Hsz.
    destruct (pow_loop_shrinks i (2 ^ 52) (-52) 0 mx xe)
      as (m & e1 & ae' & Hpow & Hm & Hle & Hae);
      try assumption; try lia.
    { unfold normal. lia. }
    { apply nle_refl. }
    change (nfloat (2 ^ 52, -52)) with (nfloat n_one) in Hpow.
    rewrite one_nfloat, Hpow.
    replace (ltb (nfloat (norm a 0)) zero) with false by reflexivity.
    apply Ldexp_at_most_one; assumption.
Qed.

Lemma Pow_at_most_one (x : float64) (a : Z) :
  valid_binary prec emax x = true ->
  geb x zero = true -> leb x one = true ->
  1 <= a -> a < 2 ^ 64 ->
  at_most_one (math.Pow Exp Log x (of_Z a)).
Proof.
  intros Hv Hge Hle Ha Hb.
  destruct (factor_at_most_one x Hv Hge Hle) as [Hx Hcases].
  destruct (Z.eq_dec a 1) as [-> | Hne].
  { change (of_Z 1) with one. rewrite Pow_one. exact Hx. }
  destruct Hcases as [[s ->] | [-> | (p & e & mx & xe & -> & HF & Hmx & Hxe & Hlt)]].
  - destruct (Pow_zero_base s a Ha Hb) as [s' ->]. left. exact I.
  - rewrite Pow_base_one. apply at_most_one_one.
  - destruct (of_Z_tests a ltac:(lia) Hb)
      as (T1 & T2 & T3 & T4 & T5 & T6 & _ & _).
    unfold math.Pow. rewrite pow_body_general; try assumption;
      try reflexivity.
    + apply (pow_general_shrinks p e mx xe); try assumption; lia.
    + unfold ltb, SFltb in Hlt. unfold eqb, SFeqb.
      destruct (SFcompare (S754_finite false p e) one) as [[| |] |];
        try discriminate; reflexivity.
Qed.

(** X21.  With a factor between zero and one the backoff is constant: every
    retry waits [Min], for every [Min] that [float64] holds exactly
    (below [2^53] nanoseconds). *)
Theorem duration_constant_for_shrinking_factor {T} (b : Backoff.t T)
    (attempt : Z) :
  valid_binary prec emax (Backoff.Factor b) = true ->
  geb (Backoff.Factor b) zero = true ->
  leb (Backoff.Factor b) one = true ->
  0 <= Backoff.Min b -> Backoff.Min b < 2 ^ 53 ->
  Backoff.Min b <= Backoff.Max b ->
  1 <= attempt -> is_uint attempt ->
  duration b attempt = Backoff.Min b.
Proof.
  intros Hv Hge Hle Hmin0 Hmin Hmm Ha [_ Hu]. unfold uint_modulus in Hu.
  pose proof (Pow_at_most_one (Backoff.Factor b) attempt Hv Hge Hle Ha Hu)
    as Hp.
  destruct (mul_at_most_one convert_invalid (Backoff.Min b) _ Hmin0 Hmin Hp)
    as [Hg Hd].
  unfold Backoff.duration.
  destruct (Z.eqb_spec attempt 0) as [| _]; [lia |].
  cbv zeta. rewrite Hg.
  destruct (Z.ltb_spec
              (Backoff.to_Duration convert_invalid
                 (mul (of_Z (Backoff.Min b))
                      (math.Pow Exp Log (Backoff.Factor b) (of_Z attempt))))
              (Backoff.Min b)); [reflexivity |].
  rewrite Z.gtb_ltb.
  destruct (Z.ltb_spec (Backoff.Max b)
              (Backoff.to_Duration convert_invalid
                 (mul (of_Z (Backoff.Min b))
                      (math.Pow Exp Log (Backoff.Factor b) (of_Z attempt)))));
    lia.
Qed.

End Shrinking.

(** *** The factor *)

Section Factor.

Variable convert_invalid : float64 -> Z.
Variables Exp Log : float64 -> float64.

Local Abbreviation duration := (Backoff.duration convert_invalid Exp Log).

Lemma duration_eq_of_power {T U} (b : Backoff.t T) (b' : Backoff.t U)
    (a : Z) :
  Backoff.Min b' = Backoff.Min b -> Backoff.Max b' = Backoff.Max b ->
  math.Pow Exp Log (Backoff.Factor b) (of_Z a)
  = math.Pow Exp Log (Backoff.Factor b') (of_Z a) ->
  duration b a = duration b' a.
Proof.
  intros Hmin Hmax HP. unfold Backoff.duration.
  rewrite HP, Hmin, Hmax. reflexivity.
Qed.

(** X22.  A larger factor never shortens a delay: of two controllers with the
    same bounds [0 <= Min <= Max], the one with the larger factor (both
    above one) waits at least as long at every retry. *)
Theorem duration_grows_with_factor {T U} (b : Backoff.t T)
    (b' : Backoff.t U) (attempt : Z) :
  Backoff.Min b' = Backoff.Min b -> Backoff.Max b' = Backoff.Max b ->
  valid_binary prec emax (Backoff.Factor b) = true ->
  valid_binary prec emax (Backoff.Factor b') = true ->
  gtb (Backoff.Factor b) one = true ->
  leb (Backoff.Factor b) (Backoff.Factor b') = true ->
  0 <= Backoff.Min b -> Backoff.Min b <= math.MaxInt64 ->
  Backoff.Min b <= Backoff.Max b ->
  1 <= attempt -> is_uint attempt ->
  duration b attempt <= duration b' attempt.
Proof.
  intros Hmin Hmax Hv Hv' Hgt Hle Hmin0 Hmin63 Hmm Ha [_ Hu].
  unfold math.MaxInt64 in Hmin63. unfold uint_modulus in Hu.
  assert (Hmm' : Backoff.Min b' <= Backoff.Max b') by lia.
  pose proof (duration_range convert_invalid Exp Log b attempt Ha Hmm)
    as Hr.
  pose proof (duration_range convert_invalid Exp Log b' attempt Ha Hmm')
    as Hr'.
  destruct (factor_gt_one _ Hv Hgt) as [Hinf | (X & HF & HX & HX1 & HeX)].
  - (* both factors are infinite *)
    assert (Hinf' : Backoff.Factor b' = S754_infinity false).
    { rewrite Hinf in Hle.
      destruct (Backoff.Factor b') as [s | s | | s m e]; try discriminate.
      destruct s; [discriminate | reflexivity]. }
    rewrite (duration_eq_of_power b b' attempt Hmin Hmax);
      [lia | rewrite Hinf, Hinf'; reflexivity].
  - destruct (gt_n_one X HX HX1) as (HX52 & _ & _).
    pose proof (Pow_nfloat Exp Log X attempt HX HX1 HeX Ha Hu) as HP.
    rewrite <- HF in HP. rewrite HF in Hle.
    destruct (factor_ge X _ HX HX1 Hv' Hle)
      as [Hinf' | (G & HF' & HG & HXG & HG1 & HeG)].
    + (* the larger factor is infinite *)
      assert (HP' : math.Pow Exp Log (Backoff.Factor b') (of_Z attempt)
                    = S754_infinity false)
        by (rewrite Hinf'; apply Pow_inf; lia).
      destruct (Z.eq_dec (Backoff.Min b) 0) as [Hz | Hnz].
      * destruct (ofloat_cases (npow X attempt)) as [(R & _ & _ & HR) | Hi].
        -- rewrite HR in HP.
           rewrite (duration_zero_Min convert_invalid Exp Log b attempt R)
             by (try assumption; lia).
           lia.
        -- rewrite (duration_eq_of_power b b' attempt Hmin Hmax);
             [lia | rewrite HP, HP', Hi; reflexivity].
      * rewrite (duration_inf_product convert_invalid Exp Log b' attempt
                   (norm (Backoff.Min b') 0)); [lia | lia | | exact HP'].
        apply of_Z_nfloat; lia.
    + destruct (gt_n_one G HG HG1) as (HG52 & _ & _).
      pose proof (Pow_nfloat Exp Log G attempt HG HG1 HeG Ha Hu) as HP'.
      rewrite <- HF' in HP'.
      pose proof (npow_mono_base X G attempt HX HG HXG) as Hole.
      destruct (Z.eq_dec (Backoff.Min b) 0) as [Hz | Hnz].
      * destruct (ofloat_cases (npow X attempt)) as [(R & _ & _ & HR) | Hi].
        -- rewrite HR in HP.
           rewrite (duration_zero_Min convert_invalid Exp Log b attempt R)
             by (try assumption; lia).
           lia.
        -- pose proof (ofloat_inf_mono _ _ Hole Hi) as Hi'.
           rewrite (duration_eq_of_power b b' attempt Hmin Hmax);
             [lia | rewrite HP, HP', Hi, Hi'; reflexivity].
      * rewrite (duration_nduration convert_invalid Exp Log b X attempt)
          by (try assumption; lia).
        rewrite (duration_nduration convert_invalid Exp Log b' G attempt)
          by (try assumption; lia).
        rewrite Hmin, Hmax.
        apply nduration_mono; try assumption.
        -- apply norm_range. lia.
        -- intros R HR. apply (npow_inv X attempt R HX HX52 HR).
        -- intros R HR. apply (npow_inv G attempt R HG HG52 HR).
Qed.

(** X23.  With a factor of two or more the cap is reached by the 63rd retry at
    the latest: from there on every retry waits [Max], for any [Min] of a
    nanosecond or more. *)
Theorem duration_is_Max_from_retry_63 {T} (b : Backoff.t T) (attempt : Z) :
  valid_binary prec emax (Backoff.Factor b) = true ->
  leb two (Backoff.Factor b) = true ->
  1 <= Backoff.Min b -> Backoff.Min b <= math.MaxInt64 ->
  63 <= attempt -> is_uint attempt ->
  duration b attempt = Backoff.Max b.
Proof.
  intros Hv Hle Hmin1 Hmin63 Ha [_ Hu].
  unfold math.MaxInt64 in Hmin63. unfold uint_modulus in Hu.
  pose proof (of_Z_nfloat (Backoff.Min b) ltac:(lia) ltac:(lia)) as HM.
  rewrite two_nfloat in Hle.
  destruct (factor_ge n_two _ n_two_normal eq_refl Hv Hle)
    as [Hinf | (G & HF & HG & H2G & HG1 & HeG)].
  - apply (duration_inf_product convert_invalid Exp Log b attempt
             (norm (Backoff.Min b) 0)); [lia | exact HM |].
    rewrite Hinf. apply Pow_inf; lia.
  - destruct (gt_n_one G HG HG1) as (HG52 & _ & _).
    rewrite (duration_nduration convert_invalid Exp Log b G attempt)
      by (try assumption; lia).
    pose proof (npow_mono_base n_two G attempt n_two_normal HG H2G) as Hole.
    rewrite npow_two in Hole by lia.
    destruct (npow G attempt) as [R |] eqn:HR; [| reflexivity].
    destruct (npow_inv G attempt R HG HG52 HR) as [HnR _].
    apply nduration_above_guard; [lia | exact HnR |].
    destruct (Z.leb_spec attempt 4095) as [Hs | Hb]; [| destruct Hole].
    cbn [ole] in Hole.
    apply (nle_antisym_false (2 ^ 52, attempt - 52) n_guard R);
      [| exact Hole].
    unfold nleb, n_guard. cbn [fst snd].
    destruct (Z.ltb_spec (attempt - 52) 10); [lia |].
    destruct (Z.eqb_spec (attempt - 52) 10); [lia | reflexivity].
Qed.

End Factor.

(** ** The properties at concrete controllers *)

(** The README's controller after its three attempts. *)
Definition spent : Backoff.t realTimer := Backoff.set_n readme 3.

(** The README's controller between its first and second attempt. *)
Definition retrying : Backoff.t realTimer := Backoff.set_n readme 1.

(** A context that is already cancelled. *)
Definition cancelled : World := {| ctx_done := true; race := CtxDone false |}.

Lemma Next_exhausted_is_noop_at_spent :
  Backoff.MaxAttempts spent <> 0
  /\ Backoff.Attempt spent >= Backoff.MaxAttempts spent
  /\ Backoff.Next amd64 libm libm calm spent = (false, spent, []).
Proof.
  assert (H1 : Backoff.MaxAttempts spent <> 0) by (cbn; discriminate).
  assert (H2 : Backoff.Attempt spent >= Backoff.MaxAttempts spent)
    by (cbn; discriminate).
  split; [exact H1 |]. split; [exact H2 |].
  exact (@Next_exhausted_is_noop amd64 libm libm _ _ calm spent H1 H2).
Defined.

Lemma Next_begins_attempt_when_cancelled :
  fst (fst (Backoff.Next amd64 libm libm cancelled retrying)) = false
  /\ Backoff.Attempt
       (snd (fst (Backoff.Next amd64 libm libm cancelled retrying)))
     = Backoff.Attempt retrying + 1.
Proof.
  split; [reflexivity |].
  refine (proj2 (@Next_begins_attempt amd64 libm libm _ _ cancelled retrying
                   _ _) _).
  - right. reflexivity.
  - split; [discriminate | reflexivity].
  - reflexivity.
Defined.

Lemma Next_zero_duration_at_readme :
  Backoff.Duration amd64 libm libm readme = 0
  /\ fst (fst (Backoff.Next amd64 libm libm cancelled readme)) = false
  /\ fst (fst (Backoff.Next amd64 libm libm calm readme)) = true
  /\ snd (Backoff.Next amd64 libm libm cancelled readme) = [PollDone]
  /\ Backoff.Timer (snd (fst (Backoff.Next amd64 libm libm cancelled readme)))
     = NewRealTimer.
Proof.
  assert (Hlim : Backoff.MaxAttempts readme = 0
                 \/ Backoff.Attempt readme < Backoff.MaxAttempts readme)
    by (right; reflexivity).
  assert (Hd : Backoff.Duration amd64 libm libm readme = 0) by reflexivity.
  destruct (@Next_zero_duration amd64 libm libm _ _ cancelled readme Hlim Hd)
    as (Hr & Htr & Htm).
  destruct (@Next_zero_duration amd64 libm libm _ _ calm readme Hlim Hd)
    as (Hr' & _ & _).
  repeat split; assumption.
Defined.

Lemma loop_runs_three_times :
  exists b',
    Backoff.calls amd64 libm libm (repeat calm 4) readme
      = ([true; true; true; false], b')
    /\ Backoff.loop amd64 libm libm 4 calm readme = Some (3%nat, b')
    /\ Backoff.Attempt b' = 3.
Proof.
  refine (@loop_runs_MaxAttempts_times amd64 libm libm _ _
            3 two time.Second (5 * time.Second) NewRealTimer 0 _ _).
  - reflexivity.
  - split; [discriminate | reflexivity].
Defined.

Lemma attempt_within_budget_at_readme :
  within_budget
    (fold_left (exec amd64 libm libm)
       [OpNext calm; OpDuration; OpNext cancelled; OpNext calm; OpAttempt;
        OpNext calm; OpReset; OpNext calm]
       readme).
Proof.
  refine (proj2 (proj2 (@attempt_within_budget amd64 libm libm _ _
            3 two time.Second (5 * time.Second) NewRealTimer _ _)) _).
  - discriminate.
  - split; [discriminate | reflexivity].
Defined.

Lemma duration_between_Min_and_Max_at_readme :
  1 <= 2
  /\ Backoff.Min readme <= Backoff.Max readme
  /\ Backoff.Min readme <= Backoff.duration amd64 libm libm readme 2
     <= Backoff.Max readme.
Proof.
  assert (H1 : 1 <= 2) by discriminate.
  assert (H2 : Backoff.Min readme <= Backoff.Max readme) by discriminate.
  split; [exact H1 |]. split; [exact H2 |].
  exact (@duration_between_Min_and_Max amd64 libm libm _ readme 2 H1 H2).
Defined.

(** C2 fails as stated: with [Min = 3s] above [Max = 500ms] (both
    non-negative, the factor being 2) the first retry waits [Max], which is
    below [Min]. *)
Lemma duration_below_Min_when_inverted :
  0 <= Backoff.Min inverted
  /\ 0 <= Backoff.Max inverted
  /\ Backoff.Factor inverted = two
  /\ Backoff.duration amd64 libm libm inverted 1 = 500 * time.Millisecond
  /\ ~ (Backoff.Min inverted
        <= Backoff.duration amd64 libm libm inverted 1
        <= Backoff.Max inverted).
Proof.
  split; [discriminate |]. split; [discriminate |].
  split; [reflexivity |]. split; [vm_compute; reflexivity |].
  intros [Hlo _]. vm_compute in Hlo. apply Hlo. reflexivity.
Qed.

(** C8 fails as stated: the README's controller waits two seconds before
    its first retry, twice its [Min]. *)
Lemma duration_first_retry_is_not_Min :
  Backoff.duration amd64 libm libm readme 1 = 2 * time.Second
  /\ Backoff.duration amd64 libm libm readme 1 <> Backoff.Min readme.
Proof.
  split; [vm_compute; reflexivity |].
  vm_compute. discriminate.
Qed.

(** The README's controller waits no less before its second retry than
    before its first. *)
Lemma duration_monotone_at_readme :
  Backoff.duration amd64 libm libm readme 1
  <= Backoff.duration amd64 libm libm readme 2.
Proof.
  refine (@duration_monotone amd64 libm libm _ readme 1 2 _ _ _ _ _ _ _ _).
  - reflexivity.
  - reflexivity.
  - discriminate.
  - discriminate.
  - discriminate.
  - discriminate.
  - discriminate.
  - split; [discriminate | reflexivity].
Defined.

(** *** The further properties at concrete controllers *)

(** The factor of the test "Duration does not drop below Min", 0.25. *)
Definition quarter : float64 := S754_finite false 4503599627370496 (-54).

(** The number three. *)
Definition three : float64 := Eval cbv in of_Z 3.

(** A context that is cancelled while [Next] waits, too late to keep the
    timer from expiring. *)
Definition late : World := {| ctx_done := true; race := CtxDone true |}.

(** The README's controller between its first and second attempt, with
    the mock timer of the tests. *)
Definition mocked : Backoff.t mockTimer :=
Backoff.set_Timer retrying newMockTimer.

(** A new controller with the mock timer, its context cancelled before
    the first call. *)
Lemma first_call_skips_the_wait_when_cancelled :
  Backoff.Next amd64 libm libm cancelled
    (Backoff.set_Timer (Backoff.New 3 two time.Second (5 * time.Second))
                       newMockTimer)
  = (negb (ctx_done cancelled),
     Backoff.set_n
       (Backoff.set_Timer (Backoff.New 3 two time.Second (5 * time.Second))
                          newMockTimer) 1,
     [PollDone]).
Proof.
  refine (@first_call_skips_the_wait amd64 libm libm _ _
            3 two time.Second (5 * time.Second) newMockTimer cancelled _).
  discriminate.
Defined.

(** The controller of the test "Duration does not exceed Max" has no
    limit: three calls return true and the loop is not over. *)
Lemma unlimited_loop_never_ends_at_inverted :
  fst (Backoff.calls amd64 libm libm (repeat calm 3) inverted)
  = [true; true; true]
  /\ Backoff.loop amd64 libm libm 3 calm inverted = None.
Proof.
  exact (@unlimited_loop_never_ends amd64 libm libm _ _ inverted 3%nat
           eq_refl).
Defined.

Lemma unlimited_counter_counts_calls_at_inverted :
  Backoff.Attempt
    (snd (Backoff.calls amd64 libm libm [calm; cancelled; calm] inverted))
  = uint_wrap (0 + 3).
Proof.
  refine (@unlimited_counter_counts_calls amd64 libm libm _ _
            [calm; cancelled; calm] inverted eq_refl _).
  split; [discriminate | reflexivity].
Defined.

Lemma readme_within_budget : within_budget readme.
Proof.
  split; [discriminate |]. split.
  - split; [discriminate | reflexivity].
  - split; discriminate.
Defined.

(** Five calls on the README's controller, one of them cancelled, leave
    the counter at the limit of three. *)
Lemma limited_counter_counts_calls_at_readme :
  Backoff.Attempt
    (snd (Backoff.calls amd64 libm libm
            [calm; cancelled; calm; calm; calm] readme))
  = Z.min (0 + 5) 3.
Proof.
  exact (@limited_counter_counts_calls amd64 libm libm _ _
           [calm; cancelled; calm; calm; calm] readme readme_within_budget).
Defined.

Lemma successes_within_budget_at_readme :
  successes
    (fst (Backoff.calls amd64 libm libm
            [calm; cancelled; calm; calm; calm] readme))
  <= 3 - 0.
Proof.
  exact (@successes_within_budget amd64 libm libm _ _
           [calm; cancelled; calm; calm; calm] readme readme_within_budget).
Defined.

(** The README's controller, its three attempts spent, is good for three
    more after [Reset]. *)
Lemma Reset_restarts_the_loop_at_spent :
  Backoff.Attempt (Backoff.Reset spent) = 0
  /\ Backoff.Duration amd64 libm libm (Backoff.Reset spent) = 0
  /\ exists b',
       Backoff.calls amd64 libm libm (repeat calm 4) (Backoff.Reset spent)
       = ([true; true; true; false], b')
       /\ Backoff.loop amd64 libm libm 4 calm (Backoff.Reset spent)
          = Some (3%nat, b')
       /\ Backoff.Attempt b' = 3.
Proof.
  refine (@Reset_restarts_the_loop amd64 libm libm _ _ spent 0%nat _ _).
  - discriminate.
  - split; [discriminate | reflexivity].
Defined.

(** After the second call of [Next] the README's controller reports the
    delay of the second retry, four seconds. *)
Lemma Duration_after_Next_at_retrying :
  Backoff.Duration amd64 libm libm
    (snd (fst (Backoff.Next amd64 libm libm cancelled retrying)))
  = Backoff.duration amd64 libm libm retrying (1 + 1).
Proof.
  refine (@Duration_after_Next amd64 libm libm _ _ cancelled retrying _ _ _).
  - right. reflexivity.
  - discriminate.
  - reflexivity.
Defined.

(** The second call of [Next] on the README's controller starts the timer
    for two seconds. *)
Lemma Next_waits_within_bounds_at_retrying :
  2 * time.Second = Backoff.Duration amd64 libm libm retrying
  /\ 2 * time.Second <> 0
  /\ Z.min (Backoff.Min retrying) (Backoff.Max retrying) <= 2 * time.Second
     <= Z.max (Backoff.Min retrying) (Backoff.Max retrying)
  /\ (0 <= Backoff.Min retrying -> 0 <= Backoff.Max retrying ->
      0 < 2 * time.Second).
Proof.
  refine (@Next_waits_within_bounds amd64 libm libm _ _ calm retrying
            (2 * time.Second) _).
  left. reflexivity.
Defined.

Lemma real_timer_drained_when_in_flight_at_retrying :
  (In DrainC (snd (Backoff.Next amd64 libm libm late retrying))
   <-> exhausted retrying = false
       /\ Backoff.Duration amd64 libm libm retrying <> 0
       /\ race late = CtxDone true)
  /\ C (snd (Stop (tick (Start (Backoff.Duration amd64 libm libm retrying)
                                (Backoff.Timer retrying)))))
     = Some 1%nat.
Proof.
  exact (@real_timer_drained_when_in_flight amd64 libm libm late retrying I).
Defined.

Lemma mock_timer_cancelled_wait_at_mocked :
  (In DrainC (snd (Backoff.Next amd64 libm libm late mocked))
   <-> stopped (Backoff.Timer mocked) = false)
  /\ stopped (Backoff.Timer
                (snd (fst (Backoff.Next amd64 libm libm late mocked))))
     = true
  /\ senders (Backoff.Timer
                (snd (fst (Backoff.Next amd64 libm libm late mocked))))
     = if stopped (Backoff.Timer mocked)
       then S (senders (Backoff.Timer mocked))
       else senders (Backoff.Timer mocked).
Proof.
  refine (@mock_timer_cancelled_wait amd64 libm libm true late mocked
            eq_refl _ eq_refl).
  discriminate.
Defined.

(** The README's delays are the same with another [math.Exp] and
    [math.Log]. *)
Lemma duration_ignores_Exp_and_Log_at_readme :
  Backoff.duration amd64 libm libm readme 2
  = Backoff.duration amd64 (fun x => x) (fun x => x) readme 2.
Proof.
  refine (@duration_ignores_Exp_and_Log amd64 libm libm _
            (fun x => x) (fun x => x) readme 2 _).
  split; [discriminate | reflexivity].
Defined.

(** The controller of the test "Aborts when MaxAttempt limit is reached",
    [New(5, 0, 0, 0)]. *)
Lemma duration_constant_for_factor_zero_at_zero :
  Backoff.duration amd64 libm libm (Backoff.New 5 zero 0 0) 3 = 0.
Proof.
  refine (@duration_constant_for_factor_zero amd64 libm libm _
            (Backoff.New 5 zero 0 0) 3 eq_refl _ _ _ _ _).
  - discriminate.
  - discriminate.
  - discriminate.
  - discriminate.
  - split; [discriminate | reflexivity].
Defined.

(** The README's second retry waits four seconds. *)
Lemma duration_doubles_for_factor_two_at_readme :
  Backoff.duration amd64 libm libm readme 2
  = Z.min (time.Second * 2 ^ 2) (5 * time.Second).
Proof.
  refine (@duration_doubles_for_factor_two amd64 libm libm _ readme 2
            eq_refl _ _ _ _ _ _).
  - reflexivity.
  - reflexivity.
  - discriminate.
  - discriminate.
  - discriminate.
  - split; [discriminate | reflexivity].
Defined.

(** The controller of the test "Duration does not exceed Max when
    overflowing float64". *)
Lemma duration_is_Max_for_huge_factor_at_MaxFloat64 :
  Backoff.duration amd64 libm libm
    (Backoff.New 0 MaxFloat64 (3 * time.Second) (500 * time.Millisecond)) 1
  = 500 * time.Millisecond.
Proof.
  refine (@duration_is_Max_for_huge_factor amd64 libm libm _
            (Backoff.New 0 MaxFloat64 (3 * time.Second)
                         (500 * time.Millisecond)) 1
            eq_refl eq_refl _ _ _ _).
  - discriminate.
  - discriminate.
  - discriminate.
  - split; [discriminate | reflexivity].
Defined.

(** The README's controller waits five seconds from its third retry
    on. *)
Lemma duration_stays_at_Max_at_readme :
  Backoff.duration amd64 libm libm readme 10 = 5 * time.Second.
Proof.
  refine (@duration_stays_at_Max amd64 libm libm _ readme 3 10
            eq_refl eq_refl _ _ _ _ _ _ _).
  - discriminate.
  - discriminate.
  - discriminate.
  - discriminate.
  - discriminate.
  - split; [discriminate | reflexivity].
  - vm_compute. reflexivity.
Defined.

(** The controller of the test "Duration does not drop below Min",
    [New(0, 0.25, 1*time.Second, 5*time.Second)]. *)
Lemma duration_constant_for_shrinking_factor_at_quarter :
  Backoff.duration amd64 libm libm
    (Backoff.New 0 quarter time.Second (5 * time.Second)) 3
  = time.Second.
Proof.
  refine (@duration_constant_for_shrinking_factor amd64 libm libm _
            (Backoff.New 0 quarter time.Second (5 * time.Second)) 3
            eq_refl eq_refl eq_refl _ _ _ _ _).
  - discriminate.
  - reflexivity.
  - discriminate.
  - discriminate.
  - split; [discriminate | reflexivity].
Defined.

(** Against the README's controller, one that triples the delay waits
    three seconds where the other waits two. *)
Lemma duration_grows_with_factor_at_readme :
  Backoff.duration amd64 libm libm readme 1
  <= Backoff.duration amd64 libm libm
       (Backoff.New 3 three time.Second (5 * time.Second)) 1.
Proof.
  refine (@duration_grows_with_factor amd64 libm libm _ _ readme
            (Backoff.New 3 three time.Second (5 * time.Second)) 1
            eq_refl eq_refl eq_refl eq_refl eq_refl eq_refl _ _ _ _ _).
  - discriminate.
  - discriminate.
  - discriminate.
  - discriminate.
  - split; [discriminate | reflexivity].
Defined.

Lemma duration_is_Max_from_retry_63_at_readme :
  Backoff.duration amd64 libm libm readme 63 = 5 * time.Second.
Proof.
  refine (@duration_is_Max_from_retry_63 amd64 libm libm _ readme 63
            eq_refl eq_refl _ _ _ _).
  - discriminate.
  - discriminate.
  - discriminate.
  - split; [discriminate | reflexivity].
Defined.
